(** * tcpee: the TCP proxy engine (package tcpee)

    A shallow embedding of the proxy instance [TCPProxy], its accept loop
    [Proxy], the session driver [serve], the copy pump [copyConn] and the
    small helpers around them, followed by the properties of the
    connection lifecycle.

    Conventions.  Go's [int64]/[uint64] are [Z] with the wrap-around of the
    machine operation written out; a [net.IP] is a list of byte values;
    header bytes are a [string]; goroutines are tasks of an interleaving
    step function whose actions carry what the environment decides (the
    result of a dial, of a write, of [ReadFrom], the reading of the clock). *)

From Stdlib Require Import ZArith List String Ascii Bool Lia DecimalString.
Import ListNotations.
Open Scope Z_scope.

(* ================================================================== *)
(** * Part I.  Definitions                                             *)
(* ================================================================== *)

(** ** Machine integers *)

(** [uint64(x)]: reduction modulo 2^64. *)
Definition wrap_u64 (x : Z) : Z := x mod 2 ^ 64.

(** [int64] arithmetic: two's complement wrap-around. *)
Definition wrap_i64 (x : Z) : Z := (x + 2 ^ 63) mod 2 ^ 64 - 2 ^ 63.

(** [atomic.AddInt64(&v, d)]. *)
Definition atomic_AddInt64 (v d : Z) : Z := wrap_i64 (v + d).

(** ** Errors

    The error values the proxy tells apart.  [io_EOF] and [net_ErrClosed]
    are the two sentinels compared with [==]; [net_OpError] stands for the
    errors of package net that implement [net.Error] and wrap the error of
    the failed operation (field [Err], reached by [Unwrap]); [errors_New] is any other error value. *)

Inductive error : Type :=
| io_EOF
| net_ErrClosed
| net_OpError (timeout temporary : bool) (Err : error)
| errors_New (msg : string).

(** [err.(net.Error)]: [Some (Timeout(), Temporary())] when the dynamic type
    implements the interface.  [net.ErrClosed] does, with both false. *)
Definition as_net_Error (e : error) : option (bool * bool) :=
  match e with
  | io_EOF => None
  | net_ErrClosed => Some (false, false)
  | net_OpError t tmp _ => Some (t, tmp)
  | errors_New _ => None
  end.

(** [err == io.EOF] *)
Definition eq_EOF (e : error) : bool :=
  match e with io_EOF => true | _ => false end.

(** [err == net.ErrClosed] *)
Definition eq_ErrClosed (e : error) : bool :=
  match e with net_ErrClosed => true | _ => false end.

(** [errors.Is(err, io.EOF)]: follows the chain of wrapped errors. *)
Fixpoint errors_Is_EOF (e : error) : bool :=
  match e with
  | io_EOF => true
  | net_OpError _ _ w => errors_Is_EOF w
  | _ => false
  end.

(** ** Address utilities *)

Definition IP := list Z.

Definition IPv4len : nat := 4.
Definition IPv6len : nat := 16.

(** [isZeros]: the loop returns false at the first non-zero byte. *)
Fixpoint isZeros (ip : IP) : bool :=
  match ip with
  | [] => true
  | b :: rest => if negb (b =? 0) then false else isZeros rest
  end.

(** [isIPv4]: 4-byte form, or 16-byte form with the IPv4-mapped prefix. *)
Definition isIPv4 (ip : IP) : bool :=
  (List.length ip =? IPv4len)%nat
  || ((List.length ip =? IPv6len)%nat && isZeros (firstn 10 ip)
      && (nth 10 ip 0 =? 0xff) && (nth 11 ip 0 =? 0xff)).

(** [strconv.Itoa] / [strconv.AppendInt(_, i, 10)]: base-10 text. *)
Definition Itoa (i : Z) : string := NilZero.string_of_int (Z.to_int i).

(** [ip.To4()]: the four address bytes of an IPv4 or IPv4-mapped address. *)
Definition To4 (ip : IP) : option IP :=
  if (List.length ip =? IPv4len)%nat then Some ip
  else if (List.length ip =? IPv6len)%nat && isZeros (firstn 10 ip)
          && (nth 10 ip 0 =? 0xff) && (nth 11 ip 0 =? 0xff)
       then Some (skipn 12 ip)
       else None.

Definition dotted (p4 : IP) : string :=
  (Itoa (nth 0 p4 0) ++ "." ++ Itoa (nth 1 p4 0) ++ "."
   ++ Itoa (nth 2 p4 0) ++ "." ++ Itoa (nth 3 p4 0))%string.

(** A TCP endpoint, [*net.TCPAddr]. *)
Record TCPAddr := mkTCPAddr { addrIP : IP; addrPort : Z }.

Definition CRLF : string := String "013" (String "010" EmptyString).

Section Header.

(** The textual form of an address that is not IPv4 (colon-hex, and the
    library's fallbacks) is computed by package net; it is a parameter
    of the header. *)
Variable text6 : IP -> string.

(** [ip.String()]: dotted decimal when [To4] succeeds. *)
Definition IP_String (ip : IP) : string :=
  match To4 ip with
  | Some p4 => dotted p4
  | None => text6 ip
  end.

(** The header [serve] assembles in [hdr]: [sAddr] is the peer address of
    the accepted socket ([sTCPConn.RemoteAddr()]), [dAddr] the peer
    address of the dialed socket ([dTCPConn.RemoteAddr()]). *)
Definition proxyHeader (sAddr dAddr : TCPAddr) : string :=
  let srcIP := IP_String (addrIP sAddr) in
  let dstIP := IP_String (addrIP dAddr) in
  let dstPort := Itoa (addrPort dAddr) in
  let hdr := "PROXY "%string in
  let hdr := (hdr ++ (if isIPv4 (addrIP sAddr) then "TCP4 " else "TCP6 "))%string in
  let hdr := (hdr ++ srcIP)%string in
  let hdr := (hdr ++ " ")%string in
  let hdr := (hdr ++ dstIP)%string in
  let hdr := (hdr ++ " ")%string in
  let hdr := (hdr ++ Itoa (addrPort sAddr))%string in
  let hdr := (hdr ++ " ")%string in
  let hdr := (hdr ++ dstPort)%string in
  (hdr ++ CRLF)%string.

End Header.

(** ** Time *)

Definition Duration := Z.   (* nanoseconds, int64 *)
Definition Time := Z.       (* an instant, as nanoseconds *)

Definition Second : Duration := 1000000000.

(** [t.Add(d)] *)
Definition Time_Add (t : Time) (d : Duration) : Time := t + d.

(** [timeoutFunc]: the returned closure reads the clock when it is invoked;
    the reading [now] of [time.Now()] is its argument here, and the state
    [W] is whatever the deadline function [fn] acts on. *)
Definition timeoutFunc {W : Type} (d : Duration) (fn : Time -> W -> W)
  : Time -> W -> W :=
  if d <? 1 then (fun _ w => w)
  else (fun now w => fn (Time_Add now d) w).

(** ** Sockets and channels *)

(** What is written to a socket: the header line, or [n] forwarded bytes. *)
Inductive wireEvent : Type :=
| WroteHeader (line : string)
| Forwarded (n : Z).

(** A [*net.TCPConn], as far as the proxy acts on it. *)
Record Conn := mkConn {
  closeCalls : nat;              (* calls of Close() on this socket *)
  readDeadline : option Time;    (* deadline last passed to SetReadDeadline *)
  writeDeadline : option Time;   (* deadline last passed to SetWriteDeadline *)
  wire : list wireEvent          (* writes to this socket, oldest first *)
}.

Definition newConn : Conn := mkConn 0 None None [].

Definition Conn_Close (c : Conn) : Conn :=
  mkConn (S (closeCalls c)) (readDeadline c) (writeDeadline c) (wire c).

Definition SetReadDeadline (t : Time) (c : Conn) : Conn :=
  mkConn (closeCalls c) (Some t) (writeDeadline c) (wire c).

Definition SetWriteDeadline (t : Time) (c : Conn) : Conn :=
  mkConn (closeCalls c) (readDeadline c) (Some t) (wire c).

Definition Conn_Write (ev : wireEvent) (c : Conn) : Conn :=
  mkConn (closeCalls c) (readDeadline c) (writeDeadline c) (wire c ++ [ev]).

(** [dst.ReadFrom(src)] returned [n]: that many bytes went out on [dst]. *)
Definition ReadFrom_moved (n : Z) (dst : Conn) : Conn :=
  if 0 <? n then Conn_Write (Forwarded n) dst else dst.

(** [make(chan error, 1)] *)
Record Chan := mkChan { buf : list error; chClosed : bool }.

Definition newChan : Chan := mkChan [] false.

(** [ch <- e]: [None] when the send cannot proceed (buffer full), which
    blocks the sender. *)
Definition Chan_send (e : error) (c : Chan) : option Chan :=
  if chClosed c then None
  else match buf c with
       | [] => Some (mkChan [e] false)
       | _ :: _ => None
       end.

(** [close(ch)]: [None] is the panic of closing a closed channel. *)
Definition Chan_close (c : Chan) : option Chan :=
  if chClosed c then None else Some (mkChan (buf c) true).

(** A receive can proceed when a value is buffered or the channel is closed. *)
Definition Chan_ready (c : Chan) : bool :=
  match buf c with
  | _ :: _ => true
  | [] => chClosed c
  end.

(** [<-ch] when ready: the buffered value, or nil from a closed channel. *)
Definition Chan_recv (c : Chan) : option error * Chan :=
  match buf c with
  | e :: rest => (Some e, mkChan rest (chClosed c))
  | [] => (None, c)
  end.

(** ** The proxy instance *)

Record ListenConfig := mkListenConfig { lc_KeepAlive : Duration }.
Record Dialer := mkDialer { d_KeepAlive : Duration; d_Timeout : Duration }.

Definition Context := nat.   (* a context object, by its place in the heap *)
Definition Timer := nat.     (* a timer object, by its order of creation *)

Record TCPProxy := mkTCPProxy {
  Name : string;
  ProxyProto : bool;
  DialTimeout : Duration;
  ClientTimeout : Duration;
  ServerTimeout : Duration;
  ClientKeepAlive : Duration;
  ServerKeepAlive : Duration;
  lnCfg : ListenConfig;
  dialer : Dialer;
  cancel : option Context;    (* nil, or the cancel function of that context *)
  baseCtx : option Context;
  serveWg : Z;                (* counter of the WaitGroup *)
  doOnce : bool;              (* sync.Once: already done *)
  ppool : option nat;         (* ppool.New: nil, or makes buffers of that capacity *)
  open : Z;
  bytesIn : Z;
  bytesOut : Z;
  statsTimer : option Timer
}.

(** The zero-valued private part around the exported knobs: an instance as
    the caller constructs it. *)
Definition inert (name : string) (pp : bool) (dt ct st cka ska : Duration)
  : TCPProxy :=
  mkTCPProxy name pp dt ct st cka ska
    (mkListenConfig 0) (mkDialer 0 0) None None 0 false None 0 0 0 None.

Definition set_serveWg (v : Z) (p : TCPProxy) : TCPProxy :=
  mkTCPProxy (Name p) (ProxyProto p) (DialTimeout p) (ClientTimeout p)
    (ServerTimeout p) (ClientKeepAlive p) (ServerKeepAlive p) (lnCfg p)
    (dialer p) (cancel p) (baseCtx p) v (doOnce p) (ppool p) (open p)
    (bytesIn p) (bytesOut p) (statsTimer p).

Definition set_open (v : Z) (p : TCPProxy) : TCPProxy :=
  mkTCPProxy (Name p) (ProxyProto p) (DialTimeout p) (ClientTimeout p)
    (ServerTimeout p) (ClientKeepAlive p) (ServerKeepAlive p) (lnCfg p)
    (dialer p) (cancel p) (baseCtx p) (serveWg p) (doOnce p) (ppool p) v
    (bytesIn p) (bytesOut p) (statsTimer p).

Definition set_bytesIn (v : Z) (p : TCPProxy) : TCPProxy :=
  mkTCPProxy (Name p) (ProxyProto p) (DialTimeout p) (ClientTimeout p)
    (ServerTimeout p) (ClientKeepAlive p) (ServerKeepAlive p) (lnCfg p)
    (dialer p) (cancel p) (baseCtx p) (serveWg p) (doOnce p) (ppool p)
    (open p) v (bytesOut p) (statsTimer p).

Definition set_bytesOut (v : Z) (p : TCPProxy) : TCPProxy :=
  mkTCPProxy (Name p) (ProxyProto p) (DialTimeout p) (ClientTimeout p)
    (ServerTimeout p) (ClientKeepAlive p) (ServerKeepAlive p) (lnCfg p)
    (dialer p) (cancel p) (baseCtx p) (serveWg p) (doOnce p) (ppool p)
    (open p) (bytesIn p) v (statsTimer p).

Definition set_statsTimer (v : option Timer) (p : TCPProxy) : TCPProxy :=
  mkTCPProxy (Name p) (ProxyProto p) (DialTimeout p) (ClientTimeout p)
    (ServerTimeout p) (ClientKeepAlive p) (ServerKeepAlive p) (lnCfg p)
    (dialer p) (cancel p) (baseCtx p) (serveWg p) (doOnce p) (ppool p)
    (open p) (bytesIn p) (bytesOut p) v.

(** [addBytesIn], [addBytesOut]: [+= uint64(n)] on a [uint64]. *)
Definition addBytesIn (n : Z) (p : TCPProxy) : TCPProxy :=
  set_bytesIn (wrap_u64 (bytesIn p + wrap_u64 n)) p.

Definition addBytesOut (n : Z) (p : TCPProxy) : TCPProxy :=
  set_bytesOut (wrap_u64 (bytesOut p + wrap_u64 n)) p.

(** ** Sessions

    One accepted connection: the driver [serve] and its two pumps, each a
    task with a program counter. *)

Inductive DriverPC : Type :=
| D_dial         (* dConn, err := proxy.dial(dst) *)
| D_header       (* if proxy.ProxyProto { ... dTCPConn.Write(hdr) ... } *)
| D_launch       (* make the channels, the setters, go copyConn twice *)
| D_select       (* select { errIn, errOut, baseCtx.Done() } *)
| D_closeD       (* dTCPConn.Close() of the Done branch *)
| D_closeS       (* sTCPConn.Close() of the Done branch *)
| D_deferDec     (* deferred: atomic.AddInt64(&proxy.open, -1) *)
| D_deferDone    (* deferred: proxy.serveWg.Done() *)
| D_exit.

Inductive PumpPC : Type :=
| P_idle         (* not started *)
| P_loop         (* at the top of the for loop *)
| P_closeChan    (* deferred: close(errChan) *)
| P_closeDst     (* deferred: dst.Close() *)
| P_done.

Record Session := mkSession {
  drv : DriverPC;
  pumpIn : PumpPC;          (* copyConn(dTCPConn, sTCPConn, errIn, ...) *)
  pumpOut : PumpPC;         (* copyConn(sTCPConn, dTCPConn, errOut, ...) *)
  sAddr : TCPAddr;          (* sTCPConn.RemoteAddr() *)
  sLocal : TCPAddr;         (* sTCPConn.LocalAddr(): the listener's address *)
  dAddr : TCPAddr;          (* dTCPConn.RemoteAddr() *)
  sConn : Conn;
  dConn : Conn;
  errIn : Chan;
  errOut : Chan;
  dialed : bool;            (* the dial succeeded: dConn exists *)
  tookCancel : bool;        (* the select took the Done branch *)
  panicking : bool;         (* serve is unwinding from a panic *)
  incs : nat;               (* increments of proxy.open made for this session *)
  decs : nat                (* decrements of proxy.open made by this session *)
}.

(** The session as [go proxy.serve(conn, dst)] starts it, the increment of
    [proxy.open] done. *)
Definition newSession (peer local : TCPAddr) : Session :=
  mkSession D_dial P_idle P_idle peer local (mkTCPAddr [] 0) newConn newConn
    newChan newChan false false false 1 0.

Definition set_drv (v : DriverPC) (s : Session) : Session :=
  mkSession v (pumpIn s) (pumpOut s) (sAddr s) (sLocal s) (dAddr s) (sConn s) (dConn s)
    (errIn s) (errOut s) (dialed s) (tookCancel s) (panicking s) (incs s)
    (decs s).

Definition set_pumpIn (v : PumpPC) (s : Session) : Session :=
  mkSession (drv s) v (pumpOut s) (sAddr s) (sLocal s) (dAddr s) (sConn s) (dConn s)
    (errIn s) (errOut s) (dialed s) (tookCancel s) (panicking s) (incs s)
    (decs s).

Definition set_pumpOut (v : PumpPC) (s : Session) : Session :=
  mkSession (drv s) (pumpIn s) v (sAddr s) (sLocal s) (dAddr s) (sConn s) (dConn s)
    (errIn s) (errOut s) (dialed s) (tookCancel s) (panicking s) (incs s)
    (decs s).

Definition set_sConn (v : Conn) (s : Session) : Session :=
  mkSession (drv s) (pumpIn s) (pumpOut s) (sAddr s) (sLocal s) (dAddr s) v (dConn s)
    (errIn s) (errOut s) (dialed s) (tookCancel s) (panicking s) (incs s)
    (decs s).

Definition set_dConn (v : Conn) (s : Session) : Session :=
  mkSession (drv s) (pumpIn s) (pumpOut s) (sAddr s) (sLocal s) (dAddr s) (sConn s) v
    (errIn s) (errOut s) (dialed s) (tookCancel s) (panicking s) (incs s)
    (decs s).

Definition set_errIn (v : Chan) (s : Session) : Session :=
  mkSession (drv s) (pumpIn s) (pumpOut s) (sAddr s) (sLocal s) (dAddr s) (sConn s)
    (dConn s) v (errOut s) (dialed s) (tookCancel s) (panicking s) (incs s)
    (decs s).

Definition set_errOut (v : Chan) (s : Session) : Session :=
  mkSession (drv s) (pumpIn s) (pumpOut s) (sAddr s) (sLocal s) (dAddr s) (sConn s)
    (dConn s) (errIn s) v (dialed s) (tookCancel s) (panicking s) (incs s)
    (decs s).

Definition set_dialed (a : TCPAddr) (s : Session) : Session :=
  mkSession (drv s) (pumpIn s) (pumpOut s) (sAddr s) (sLocal s) a (sConn s) newConn
    (errIn s) (errOut s) true (tookCancel s) (panicking s) (incs s) (decs s).

Definition set_tookCancel (s : Session) : Session :=
  mkSession (drv s) (pumpIn s) (pumpOut s) (sAddr s) (sLocal s) (dAddr s) (sConn s)
    (dConn s) (errIn s) (errOut s) (dialed s) true (panicking s) (incs s)
    (decs s).

Definition set_panicking (s : Session) : Session :=
  mkSession (drv s) (pumpIn s) (pumpOut s) (sAddr s) (sLocal s) (dAddr s) (sConn s)
    (dConn s) (errIn s) (errOut s) (dialed s) (tookCancel s) true (incs s)
    (decs s).

Definition add_dec (s : Session) : Session :=
  mkSession (drv s) (pumpIn s) (pumpOut s) (sAddr s) (sLocal s) (dAddr s) (sConn s)
    (dConn s) (errIn s) (errOut s) (dialed s) (tookCancel s) (panicking s)
    (incs s) (S (decs s)).

(** The two sockets and the two channels of a session, as [copyConn] is
    handed them. *)
Inductive Side : Type := Front | Back.
Inductive ChanName : Type := ErrIn | ErrOut.

Definition conn (x : Side) (s : Session) : Conn :=
  match x with Front => sConn s | Back => dConn s end.

Definition set_conn (x : Side) (c : Conn) (s : Session) : Session :=
  match x with Front => set_sConn c s | Back => set_dConn c s end.

Definition chan (x : ChanName) (s : Session) : Chan :=
  match x with ErrIn => errIn s | ErrOut => errOut s end.

Definition set_chan (x : ChanName) (c : Chan) (s : Session) : Session :=
  match x with ErrIn => set_errIn c s | ErrOut => set_errOut c s end.

(** ** The copy pump *)

Record copyConnArgs := mkArgs {
  a_dst : Side;
  a_src : Side;
  a_errChan : ChanName;
  a_setTimeout : Time -> Session -> Session;
  a_isClientToServer : bool
}.

Inductive LoopCtl : Type := Continue | Break.

(** One iteration of the [for] loop of [copyConn]; [now] is the reading of
    the clock inside [setTimeout()], [(n, err)] what [dst.ReadFrom(src)]
    returned.  [None]: the send on [errChan] cannot proceed. *)
Definition copyConn_iter (a : copyConnArgs) (now : Time) (n : Z)
    (err : option error) (p : TCPProxy) (s : Session)
  : option (TCPProxy * Session * LoopCtl) :=
  let s := a_setTimeout a now s in
  let s := set_conn (a_dst a) (ReadFrom_moved n (conn (a_dst a) s)) s in
  let count := fun p =>
    if a_isClientToServer a then addBytesIn n p else addBytesOut n p in
  match err with
  | None => Some (count p, s, Break)
  | Some e =>
      if eq_EOF e || eq_ErrClosed e then Some (count p, s, Break)
      else
        match as_net_Error e with
        | Some (true, _) =>
            if n <? 1 then Some (p, s, Break)
            else Some (count p, s, Continue)
        | _ =>
            match Chan_send e (chan (a_errChan a) s) with
            | Some c => Some (p, set_chan (a_errChan a) c s, Break)
            | None => None
            end
        end
  end.

Inductive PumpAction : Type :=
| P_ReadFrom (now : Time) (n : Z) (err : option error)
| P_next.

(** A step of the pump: an iteration of the loop, or one statement of the
    deferred function. *)
Definition copyConn_step (a : copyConnArgs) (act : PumpAction) (pc : PumpPC)
    (p : TCPProxy) (s : Session) : option (PumpPC * TCPProxy * Session) :=
  match pc, act with
  | P_loop, P_ReadFrom now n err =>
      match copyConn_iter a now n err p s with
      | Some (p', s', Continue) => Some (P_loop, p', s')
      | Some (p', s', Break) => Some (P_closeChan, p', s')
      | None => None
      end
  | P_closeChan, P_next =>
      match Chan_close (chan (a_errChan a) s) with
      | Some c => Some (P_closeDst, p, set_chan (a_errChan a) c s)
      | None => None
      end
  | P_closeDst, P_next =>
      Some (P_done, p, set_conn (a_dst a) (Conn_Close (conn (a_dst a) s)) s)
  | _, _ => None
  end.

(** ** Human-readable byte counts

    [formatBytes] up to the arguments it hands to [fmt.Sprintf]: the plain
    count below one unit, otherwise the count, the divisor and the unit
    letter; the rendering of the quotient as a decimal fraction is left to
    the formatter. *)

(** [const unit = 1024] *)
Definition byteUnit : Z := 1024.

(** ["KMGTPE"[exp]]: [None] is the panic of an index out of range. *)
Definition unitLetter (exp : Z) : option ascii :=
  if exp <? 0 then None
  else nth_error (list_ascii_of_string "KMGTPE") (Z.to_nat exp).

(** [for n := bytes / unit; n >= unit; n /= unit { div *= unit; exp++ }],
    one iteration per unit of [fuel]; [div] is a [uint64]. *)
Fixpoint formatBytes_loop (fuel : nat) (n div exp : Z) : option (Z * Z) :=
  if n >=? byteUnit then
    match fuel with
    | O => None
    | S fuel' =>
        formatBytes_loop fuel' (n / byteUnit) (wrap_u64 (div * byteUnit)) (exp + 1)
    end
  else Some (div, exp).

Inductive Rendering : Type :=
| PlainBytes (bytes : Z)                        (* "%d B" *)
| Scaled (bytes div : Z) (letter : ascii)       (* "%.2f %cB" *)
| IndexPanic.

Definition formatBytes (fuel : nat) (bytes : Z) : option Rendering :=
  if bytes <? byteUnit then Some (PlainBytes bytes)
  else
    match formatBytes_loop fuel (bytes / byteUnit) byteUnit 0 with
    | None => None
    | Some (div, exp) =>
        match unitLetter exp with
        | Some c => Some (Scaled bytes div c)
        | None => Some IndexPanic
        end
    end.

(** ** The session driver *)

Inductive Event : Type :=
| ErrorKVs (proxyName : string) (e : error) (msg : string)
| InfoProxying (count : Z) (src dst : string)
| InfoStats (proxyName : string) (bytes_in bytes_out : option Rendering)
    (active_connections : Z)
| Sleep (d : Duration).

(** The two setters [serve] prepares. *)
Definition clientTimeout (p : TCPProxy) : Time -> Session -> Session :=
  timeoutFunc (ClientTimeout p)
    (fun t s => set_sConn (SetReadDeadline t (sConn s)) s).

Definition serverTimeout (p : TCPProxy) : Time -> Session -> Session :=
  timeoutFunc (ServerTimeout p)
    (fun t s => set_sConn (SetWriteDeadline t (sConn s)) s).

(** The arguments of the two [go copyConn(...)] statements. *)
Definition argsIn (p : TCPProxy) : copyConnArgs :=
  mkArgs Back Front ErrIn (clientTimeout p) true.

Definition argsOut (p : TCPProxy) : copyConnArgs :=
  mkArgs Front Back ErrOut (serverTimeout p) false.

Inductive Branch : Type := CaseErrIn | CaseErrOut | CaseDone.

Inductive DrvAction : Type :=
| D_dialed (r : error + TCPAddr)   (* what the dial returned *)
| D_wrote (werr : option error)    (* what the header write returned *)
| D_selected (b : Branch)          (* the case the select takes *)
| D_panic                          (* serve panics at its current statement *)
| D_next.

Section Serve.

Variable text6 : IP -> string.

(** A step of [serve]; [done] tells whether [baseCtx] is cancelled.
    The result carries the events logged by the step. *)
Definition serve_step (act : DrvAction) (done : bool) (p : TCPProxy)
    (s : Session) : option (TCPProxy * Session * list Event) :=
  match drv s, act with
  | D_dial, D_dialed (inl err) =>
      Some (p, set_drv D_deferDec s, [ErrorKVs (Name p) err "dial error"])
  | D_dial, D_dialed (inr addr) =>
      let s := set_dialed addr s in
      let srcIP := IP_String text6 (addrIP (sAddr s)) in
      let dstIP := IP_String text6 (addrIP (dAddr s)) in
      let dstPort := Itoa (addrPort (dAddr s)) in
      Some (p, set_drv D_header s,
            [InfoProxying (open p) srcIP (dstIP ++ ":" ++ dstPort)])
  | D_header, D_wrote werr =>
      if ProxyProto p then
        let hdr := proxyHeader text6 (sAddr s) (dAddr s) in
        match werr with
        | Some err =>
            Some (p, set_drv D_deferDec s,
                  [ErrorKVs (Name p) err "output error"])
        | None =>
            Some (p, set_drv D_launch
                       (set_dConn (Conn_Write (WroteHeader hdr) (dConn s)) s),
                  [])
        end
      else Some (p, set_drv D_launch s, [])
  | D_launch, D_next =>
      Some (p, set_drv D_select
                 (set_pumpOut P_loop
                    (set_pumpIn P_loop
                       (set_errOut newChan (set_errIn newChan s)))), [])
  | D_select, D_selected CaseErrIn =>
      if Chan_ready (errIn s) then
        let (v, c) := Chan_recv (errIn s) in
        Some (p, set_drv D_deferDec (set_errIn c s),
              match v with
              | Some err => [ErrorKVs (Name p) err "input error"]
              | None => []
              end)
      else None
  | D_select, D_selected CaseErrOut =>
      if Chan_ready (errOut s) then
        let (v, c) := Chan_recv (errOut s) in
        Some (p, set_drv D_deferDec (set_errOut c s),
              match v with
              | Some err => [ErrorKVs (Name p) err "output error"]
              | None => []
              end)
      else None
  | D_select, D_selected CaseDone =>
      if done then Some (p, set_drv D_closeD (set_tookCancel s), [])
      else None
  | D_closeD, D_next =>
      Some (p, set_drv D_closeS (set_dConn (Conn_Close (dConn s)) s), [])
  | D_closeS, D_next =>
      Some (p, set_drv D_deferDec (set_sConn (Conn_Close (sConn s)) s), [])
  | D_deferDec, D_next =>
      Some (set_open (atomic_AddInt64 (open p) (-1)) p,
            set_drv D_deferDone (add_dec s), [])
  | D_deferDone, D_next =>
      Some (set_serveWg (serveWg p - 1) p, set_drv D_exit s, [])
  | D_dial, D_panic | D_header, D_panic | D_launch, D_panic
  | D_select, D_panic =>
      Some (p, set_drv D_deferDec (set_panicking s), [])
  | _, _ => None
  end.

End Serve.

(** ** The accept loop *)

(** [ErrProxyClosed] *)
Definition ErrProxyClosed : error := errors_New "tcpee: proxy closed".

Inductive AcceptResult : Type :=
| Accepted (peer local : TCPAddr)
| AcceptFailed (err : error).

(** A call of [Proxy] that has reached its loop. *)
Inductive AcceptorPC : Type :=
| L_top                          (* select { case <-baseCtx.Done(): ...; default: } *)
| L_accept                       (* conn, err = ln.Accept() *)
| L_wgAdd (peer local : TCPAddr)     (* proxy.serveWg.Add(1) *)
| L_openInc (peer local : TCPAddr)   (* atomic.AddInt64(&proxy.open, 1); go proxy.serve(conn, dst) *)
| L_returned (err : option error).

(** The inner loop after one [ln.Accept()]: the events of the iteration and
    where the call of [Proxy] goes next. *)
Definition accept_iter (name : string) (r : AcceptResult)
  : list Event * AcceptorPC :=
  match r with
  | AcceptFailed err =>
      match as_net_Error err with
      | Some (_, true) =>
          ([ErrorKVs name err "temp. accept error"; Sleep Second], L_accept)
      | _ =>
          if errors_Is_EOF err then ([], L_returned None)
          else ([ErrorKVs name err "accept error"], L_returned (Some err))
      end
  | Accepted peer local => ([], L_wgAdd peer local)
  end.

Inductive AccAction : Type :=
| L_check                        (* the select at the top of the outer loop *)
| L_accepted (r : AcceptResult)  (* what ln.Accept() returned *)
| L_next.

(** ** The instance and its tasks *)

(** The goroutine of [startStatsTimer]. *)
Inductive StatsPC : Type :=
| S_top                  (* entering the select: proxy.statsTimer.C is read *)
| S_select (t : Timer)   (* in the select, on baseCtx.Done() and on the
                            channel of the timer read at its entry *)
| S_stop                 (* case Done: if proxy.statsTimer != nil { Stop() } *)
| S_report               (* case tick: getStats() and log.InfoKVs(...) *)
| S_reset                (* proxy.statsTimer.Reset(time.Minute) *)
| S_returned.

Record State := mkState {
  proxy : TCPProxy;
  ctxs : list bool;              (* the contexts created so far: cancelled? *)
  timers : list bool;            (* the timers created by time.NewTimer:
                                    armed?  A timer is armed from NewTimer or
                                    Reset until its tick is received or it is
                                    stopped *)
  statsTasks : list Timer;       (* goroutines started by startStatsTimer,
                                    each with the timer created at its start *)
  statsPCs : list StatsPC;       (* where each of these goroutines is *)
  acceptors : list AcceptorPC;   (* calls of Proxy in their accept loop *)
  sessions : list Session;
  waiting : nat;                 (* calls of Close in serveWg.Wait() *)
  returned : nat;                (* calls of Close that have returned *)
  logs : list Event
}.

Definition newState (p : TCPProxy) : State :=
  mkState p [] [] [] [] [] [] 0 0 [].

Definition set_proxy (v : TCPProxy) (st : State) : State :=
  mkState v (ctxs st) (timers st) (statsTasks st) (statsPCs st) (acceptors st)
    (sessions st) (waiting st) (returned st) (logs st).

Definition set_ctxs (v : list bool) (st : State) : State :=
  mkState (proxy st) v (timers st) (statsTasks st) (statsPCs st) (acceptors st)
    (sessions st) (waiting st) (returned st) (logs st).

Definition set_acceptors (v : list AcceptorPC) (st : State) : State :=
  mkState (proxy st) (ctxs st) (timers st) (statsTasks st) (statsPCs st) v
    (sessions st) (waiting st) (returned st) (logs st).

Definition set_sessions (v : list Session) (st : State) : State :=
  mkState (proxy st) (ctxs st) (timers st) (statsTasks st) (statsPCs st) (acceptors st)
    v (waiting st) (returned st) (logs st).

Definition set_closers (w r : nat) (st : State) : State :=
  mkState (proxy st) (ctxs st) (timers st) (statsTasks st) (statsPCs st) (acceptors st)
    (sessions st) w r (logs st).

Definition set_timers (v : list bool) (st : State) : State :=
  mkState (proxy st) (ctxs st) v (statsTasks st) (statsPCs st) (acceptors st)
    (sessions st) (waiting st) (returned st) (logs st).

Definition set_statsPCs (v : list StatsPC) (st : State) : State :=
  mkState (proxy st) (ctxs st) (timers st) (statsTasks st) v (acceptors st)
    (sessions st) (waiting st) (returned st) (logs st).

Definition add_logs (evs : list Event) (st : State) : State :=
  mkState (proxy st) (ctxs st) (timers st) (statsTasks st) (statsPCs st) (acceptors st)
    (sessions st) (waiting st) (returned st) (logs st ++ evs).

(** Replace the element at index [i]. *)
Fixpoint upd {A : Type} (i : nat) (x : A) (l : list A) : list A :=
  match l, i with
  | [], _ => []
  | _ :: t, O => x :: t
  | h :: t, S j => h :: upd j x t
  end.

(** [<-proxy.baseCtx.Done()] can proceed. *)
Definition ctx_done (st : State) : bool :=
  match baseCtx (proxy st) with
  | Some c => nth c (ctxs st) false
  | None => false
  end.

(** [init]: the body runs under [doOnce]. *)
Definition init (st : State) : State :=
  let p := proxy st in
  if doOnce p then st
  else
    let name := if (String.length (Name p) <? 1)%nat then "proxy"%string
                else Name p in
    let c := List.length (ctxs st) in
    set_ctxs (ctxs st ++ [false])
      (set_proxy
         (mkTCPProxy name (ProxyProto p) (DialTimeout p) (ClientTimeout p)
            (ServerTimeout p) (ClientKeepAlive p) (ServerKeepAlive p)
            (mkListenConfig (ClientKeepAlive p))
            (mkDialer (ServerKeepAlive p) (DialTimeout p))
            (Some c) (Some c) (serveWg p) true (Some 107%nat) (open p)
            (bytesIn p) (bytesOut p) (statsTimer p))
         st).

(** [startStatsTimer]: a new timer, armed, is put in [proxy.statsTimer],
    and a new goroutine is started. *)
Definition startStatsTimer (st : State) : State :=
  let t := List.length (timers st) in
  mkState (set_statsTimer (Some t) (proxy st)) (ctxs st) (timers st ++ [true])
    (statsTasks st ++ [t]) (statsPCs st ++ [S_top]) (acceptors st)
    (sessions st) (waiting st) (returned st) (logs st).

(** [getStats] *)
Definition getStats (p : TCPProxy) : Z * Z * Z :=
  (bytesIn p, bytesOut p, open p).

Inductive StatsAction : Type :=
| S_enter                (* the select is entered *)
| S_done                 (* the select takes the Done case *)
| S_tick                 (* the select receives from the timer's channel *)
| S_next.

(** A step of the goroutine of [startStatsTimer].  [None]: the step cannot
    be taken, or panics on a nil [proxy.statsTimer].  Six rounds of the loop
    of [formatBytes] are enough for any [uint64]. *)
Definition stats_step (a : StatsAction) (pc : StatsPC) (st : State)
  : option (StatsPC * State) :=
  match pc, a with
  | S_top, S_enter =>
      match statsTimer (proxy st) with
      | Some t => Some (S_select t, st)
      | None => None
      end
  | S_select t, S_done =>
      if ctx_done st then Some (S_stop, st) else None
  | S_select t, S_tick =>
      if nth t (timers st) false
      then Some (S_report, set_timers (upd t false (timers st)) st)
      else None
  | S_stop, S_next =>
      match statsTimer (proxy st) with
      | Some t => Some (S_returned, set_timers (upd t false (timers st)) st)
      | None => Some (S_returned, st)
      end
  | S_report, S_next =>
      let '(bytes_in, bytes_out, conns) := getStats (proxy st) in
      Some (S_reset,
            add_logs [InfoStats (Name (proxy st)) (formatBytes 6 bytes_in)
                        (formatBytes 6 bytes_out) conns] st)
  | S_reset, S_next =>
      match statsTimer (proxy st) with
      | Some t => Some (S_top, set_timers (upd t true (timers st)) st)
      | None => None
      end
  | _, _ => None
  end.

(** [Proxy] up to its loop: the state, and the error returned if one of
    the probe dial, the close of the probe or the listen fails. *)
Definition Proxy_enter (dialErr closeErr listenErr : option error)
    (st : State) : State * option error :=
  let st := init st in
  let st := startStatsTimer st in
  match dialErr with
  | Some err => (st, Some err)
  | None =>
      match closeErr with
      | Some err => (st, Some err)
      | None =>
          match listenErr with
          | Some err => (st, Some err)
          | None => (st, None)
          end
      end
  end.

(** [proxy.cancel()]: [None] is the panic of calling a nil function. *)
Definition Close_cancel (st : State) : option State :=
  match cancel (proxy st) with
  | None => None
  | Some c => Some (set_ctxs (upd c true (ctxs st)) st)
  end.

(** [proxy.serveWg.Wait()] returns when the counter is zero. *)
Definition Wait_returns (st : State) : bool := serveWg (proxy st) =? 0.

(** [Close], run without another task in between. *)
Inductive CloseOutcome : Type :=
| ClosePanics
| CloseBlocks (st : State)
| CloseReturns (st : State).

Definition Close (st : State) : CloseOutcome :=
  match Close_cancel st with
  | None => ClosePanics
  | Some st' => if Wait_returns st' then CloseReturns st' else CloseBlocks st'
  end.

(** ** The interleaving of the tasks *)

Inductive Action : Type :=
| CallProxy (dialErr closeErr listenErr : option error)
| Acc (j : nat) (a : AccAction)
| Drv (i : nat) (a : DrvAction)
| PumpIn (i : nat) (a : PumpAction)
| PumpOut (i : nat) (a : PumpAction)
| CallClose
| CloseReturn
| Stats (k : nat) (a : StatsAction).

Section Steps.

Variable text6 : IP -> string.

Definition acceptor_step (a : AccAction) (pc : AcceptorPC) (st : State)
  : option (AcceptorPC * State) :=
  match pc, a with
  | L_top, L_check =>
      if ctx_done st then Some (L_returned (Some ErrProxyClosed), st)
      else Some (L_accept, st)
  | L_accept, L_accepted r =>
      let (evs, pc') := accept_iter (Name (proxy st)) r in
      Some (pc', add_logs evs st)
  | L_wgAdd peer local, L_next =>
      Some (L_openInc peer local,
            set_proxy (set_serveWg (serveWg (proxy st) + 1) (proxy st)) st)
  | L_openInc peer local, L_next =>
      Some (L_top,
            set_sessions (sessions st ++ [newSession peer local])
              (set_proxy
                 (set_open (atomic_AddInt64 (open (proxy st)) 1) (proxy st))
                 st))
  | _, _ => None
  end.

Definition step (act : Action) (st : State) : option State :=
  match act with
  | CallProxy de ce le =>
      match Proxy_enter de ce le st with
      | (st', Some _) => Some st'
      | (st', None) => Some (set_acceptors (acceptors st' ++ [L_top]) st')
      end
  | Acc j a =>
      match nth_error (acceptors st) j with
      | Some pc =>
          match acceptor_step a pc st with
          | Some (pc', st') =>
              Some (set_acceptors (upd j pc' (acceptors st')) st')
          | None => None
          end
      | None => None
      end
  | Drv i a =>
      match nth_error (sessions st) i with
      | Some s =>
          match serve_step text6 a (ctx_done st) (proxy st) s with
          | Some (p', s', evs) =>
              Some (add_logs evs
                      (set_sessions (upd i s' (sessions st))
                         (set_proxy p' st)))
          | None => None
          end
      | None => None
      end
  | PumpIn i a =>
      match nth_error (sessions st) i with
      | Some s =>
          match copyConn_step (argsIn (proxy st)) a (pumpIn s) (proxy st) s with
          | Some (pc', p', s') =>
              Some (set_sessions (upd i (set_pumpIn pc' s') (sessions st))
                      (set_proxy p' st))
          | None => None
          end
      | None => None
      end
  | PumpOut i a =>
      match nth_error (sessions st) i with
      | Some s =>
          match copyConn_step (argsOut (proxy st)) a (pumpOut s) (proxy st) s with
          | Some (pc', p', s') =>
              Some (set_sessions (upd i (set_pumpOut pc' s') (sessions st))
                      (set_proxy p' st))
          | None => None
          end
      | None => None
      end
  | CallClose =>
      match Close_cancel st with
      | Some st' => Some (set_closers (S (waiting st')) (returned st') st')
      | None => None
      end
  | CloseReturn =>
      match waiting st with
      | S w =>
          if Wait_returns st then Some (set_closers w (S (returned st)) st)
          else None
      | O => None
      end
  | Stats k a =>
      match nth_error (statsPCs st) k with
      | Some pc =>
          match stats_step a pc st with
          | Some (pc', st') =>
              Some (set_statsPCs (upd k pc' (statsPCs st')) st')
          | None => None
          end
      | None => None
      end
  end.

(** The actions of a schedule, one after the other. *)
Fixpoint run (acts : list Action) (st : State) : option State :=
  match acts with
  | [] => Some st
  | a :: rest =>
      match step a st with
      | Some st' => run rest st'
      | None => None
      end
  end.

(** The states the instance [p] can be in. *)
Definition reachable (p : TCPProxy) (st : State) : Prop :=
  exists acts, run acts (newState p) = Some st.

End Steps.

(** ** The words of the specification

    Predicates and values the properties below are stated with. *)

(** An IPv4 address: the 4-byte form, or the 16-byte form whose first 10
    bytes are zero and whose bytes 10 and 11 are 0xFF. *)
Definition IPv4_form (ip : IP) : Prop :=
  List.length ip = 4%nat
  \/ (List.length ip = 16%nat
      /\ (forall i, (i < 10)%nat -> nth i ip 0 = 0)
      /\ nth 10 ip 0 = 0xFF /\ nth 11 ip 0 = 0xFF).

(** The header line between two loopback endpoints, with the given source
    and destination ports. *)
Definition loopback_line (srcPort dstPort : Z) : string :=
  ("PROXY TCP4 127.0.0.1 127.0.0.1 " ++ Itoa srcPort ++ " " ++ Itoa dstPort
   ++ CRLF)%string.

Definition loopback (port : Z) : TCPAddr := mkTCPAddr [127; 0; 0; 1] port.

(** [err] is a network error that reports a timeout. *)
Definition isTimeout (err : error) : Prop :=
  exists tmp, as_net_Error err = Some (true, tmp).

(** [err] is a network error that reports itself temporary. *)
Definition isTemporary (err : error) : Prop :=
  exists t, as_net_Error err = Some (t, true).

(** The bytes that went out on a socket through a pump. *)
Fixpoint forwardedBytes (w : list wireEvent) : Z :=
  match w with
  | [] => 0
  | Forwarded n :: rest => n + forwardedBytes rest
  | WroteHeader _ :: rest => forwardedBytes rest
  end.

Fixpoint sumZ {A : Type} (f : A -> Z) (l : list A) : Z :=
  match l with
  | [] => 0
  | x :: rest => f x + sumZ f rest
  end.

(** Sessions whose driver has incremented [proxy.open] and not yet
    decremented it. *)
Definition liveDrivers (l : list Session) : Z :=
  sumZ (fun s => Z.of_nat (incs s) - Z.of_nat (decs s)) l.

(** The driver has run its cleanup: the decrement and the release of the
    barrier. *)
Definition cleanedUp (s : Session) : Prop := drv s = D_exit /\ decs s = 1%nat.

(** ** What holds of a session at every point

    The ledger of who has closed what, kept against the program counters. *)

Definition closedByPump (pc : PumpPC) : nat :=
  match pc with P_done => 1 | _ => 0 end.

(** The driver is past [dTCPConn.Close()] of the Done branch. *)
Definition closedByDriverD (s : Session) : nat :=
  if tookCancel s then
    match drv s with
    | D_closeS | D_deferDec | D_deferDone | D_exit => 1
    | _ => 0
    end
  else 0.

(** The driver is past [sTCPConn.Close()] of the Done branch. *)
Definition closedByDriverS (s : Session) : nat :=
  if tookCancel s then
    match drv s with
    | D_deferDec | D_deferDone | D_exit => 1
    | _ => 0
    end
  else 0.

Definition chanAt (pc : PumpPC) (c : Chan) : Prop :=
  match pc with
  | P_idle | P_loop => c = newChan
  | P_closeChan => chClosed c = false
  | P_closeDst | P_done => chClosed c = true
  end.

Definition headerPrefix (text6 : IP -> string) (pp : bool) (s : Session)
  : list wireEvent :=
  if pp then [WroteHeader (proxyHeader text6 (sAddr s) (dAddr s))] else [].

(** What is on the wire of the back-end socket starts with the header. *)
Definition headerFirst (text6 : IP -> string) (pp : bool) (s : Session)
  : Prop :=
  exists ns, wire (dConn s) = headerPrefix text6 pp s ++ map Forwarded ns.

Record SessInv (text6 : IP -> string) (pp : bool) (s : Session) : Prop := {
  inv_closeD :
    closeCalls (dConn s) = (closedByPump (pumpIn s) + closedByDriverD s)%nat;
  inv_closeS :
    closeCalls (sConn s) = (closedByPump (pumpOut s) + closedByDriverS s)%nat;
  inv_cancel :
    match drv s with
    | D_dial | D_header | D_launch | D_select => tookCancel s = false
    | D_closeD | D_closeS => tookCancel s = true
    | _ => True
    end;
  inv_pumps :
    match drv s with
    | D_dial | D_header | D_launch => pumpIn s = P_idle /\ pumpOut s = P_idle
    | D_select | D_closeD | D_closeS =>
        pumpIn s <> P_idle /\ pumpOut s <> P_idle
    | _ => True
    end;
  inv_incs : incs s = 1%nat;
  inv_decs :
    decs s = match drv s with D_deferDone | D_exit => 1%nat | _ => 0%nat end;
  inv_errIn : chanAt (pumpIn s) (errIn s);
  inv_errOut : chanAt (pumpOut s) (errOut s);
  inv_wire :
    match drv s, pumpIn s with
    | D_dial, _ | D_header, _ => wire (dConn s) = []
    | D_launch, _ => headerFirst text6 pp s
    | _, P_idle => wire (dConn s) = [] \/ headerFirst text6 pp s
    | _, _ => headerFirst text6 pp s
    end;
  inv_deadlines :
    readDeadline (dConn s) = None /\ writeDeadline (dConn s) = None
}.

(** A driver that has not released the barrier. *)
Definition running (s : Session) : Z :=
  match drv s with D_exit => 0 | _ => 1 end.

(** A call of [Proxy] between [serveWg.Add(1)] and [go proxy.serve]. *)
Definition tracking (pc : AcceptorPC) : Z :=
  match pc with L_openInc _ _ => 1 | _ => 0 end.

Record StateInv (text6 : IP -> string) (p0 : TCPProxy) (st : State) : Prop := {
  inv_sessions : Forall (SessInv text6 (ProxyProto p0)) (sessions st);
  inv_proto : ProxyProto (proxy st) = ProxyProto p0;
  inv_wg :
    serveWg (proxy st) = sumZ running (sessions st)
                         + sumZ tracking (acceptors st);
  inv_open : open (proxy st) = wrap_i64 (liveDrivers (sessions st));
  inv_once :
    if doOnce (proxy st) then
      cancel (proxy st) = Some 0%nat /\ baseCtx (proxy st) = Some 0%nat
      /\ List.length (ctxs st) = 1%nat
    else
      cancel (proxy st) = None /\ baseCtx (proxy st) = None /\ ctxs st = []
      /\ acceptors st = [] /\ sessions st = []
      /\ waiting st = 0%nat /\ returned st = 0%nat;
  inv_tripped :
    (0 < waiting st + returned st)%nat -> ctx_done st = true
}.

(** The private fields a session never writes, and the knobs. *)
Definition sameSetup (p p' : TCPProxy) : Prop :=
  Name p' = Name p /\ ProxyProto p' = ProxyProto p
  /\ ClientTimeout p' = ClientTimeout p /\ ServerTimeout p' = ServerTimeout p
  /\ cancel p' = cancel p /\ baseCtx p' = baseCtx p /\ doOnce p' = doOnce p.

Definition weight (s : Session) : Z := Z.of_nat (incs s) - Z.of_nat (decs s).

(** The statements the driver has before it, on its longest way to the
    exit: through the select, the Done branch and the deferred function. *)
Definition stepsLeft (pc : DriverPC) : nat :=
  match pc with
  | D_dial => 8 | D_header => 7 | D_launch => 6 | D_select => 5
  | D_closeD => 4 | D_closeS => 3 | D_deferDec => 2 | D_deferDone => 1
  | D_exit => 0
  end.

(** ** Scenarios

    Concrete schedules of the tasks, run from an inert instance. *)

Definition sample_text6 : IP -> string := fun _ => "::1"%string.

(** An instance with the header enabled and a client idle budget of 5 s. *)
Definition sample_proxy : TCPProxy :=
  inert EmptyString true 0 (5 * Second) 0 0 0.

Definition timeoutErr : error :=
  net_OpError true false (errors_New "i/o timeout").

Definition closedConnErr : error :=
  net_OpError false false net_ErrClosed.

Definition resetErr : error :=
  net_OpError false false (errors_New "connection reset by peer").

(** [Proxy] is called, accepts on its listener 127.0.0.1:8080 a client from
    127.0.0.1:50000 and spawns the session, which dials the back-end 127.0.0.1:9090 and writes the header. *)
Definition scenario_open : list Action :=
  [CallProxy None None None; Acc 0 L_check;
   Acc 0 (L_accepted (Accepted (loopback 50000) (loopback 8080))); Acc 0 L_next; Acc 0 L_next;
   Drv 0 (D_dialed (inr (loopback 9090))); Drv 0 (D_wrote None); Drv 0 D_next].

(** Shutdown while the session is streaming: the front-to-back pump has moved
    10 bytes; [Close] is called; the driver takes the Done branch and closes
    both sockets; each pump then fails on the closed socket and runs its
    deferred function; the driver cleans up and [Close] returns. *)
Definition scenario_cancel : list Action :=
  scenario_open ++
  [PumpIn 0 (P_ReadFrom 1000 10 (Some timeoutErr));
   CallClose; Drv 0 (D_selected CaseDone); Drv 0 D_next; Drv 0 D_next;
   PumpIn 0 (P_ReadFrom 2000 0 (Some closedConnErr));
   PumpOut 0 (P_ReadFrom 2000 0 (Some closedConnErr));
   PumpIn 0 P_next; PumpIn 0 P_next; PumpOut 0 P_next; PumpOut 0 P_next;
   Drv 0 D_next; Drv 0 D_next; CloseReturn].

(** The client hangs up: end of stream front-to-back after 10 bytes; the
    back-to-front pump then fails on the closed back-end socket. *)
Definition scenario_eof : list Action :=
  scenario_open ++
  [PumpIn 0 (P_ReadFrom 1000 10 None);
   PumpIn 0 P_next; PumpIn 0 P_next;
   Drv 0 (D_selected CaseErrIn);
   PumpOut 0 (P_ReadFrom 1500 0 (Some closedConnErr));
   PumpOut 0 P_next; PumpOut 0 P_next;
   Drv 0 D_next; Drv 0 D_next].

(** The back-end resets the connection after 5 bytes of its answer went out
    to the client. *)
Definition scenario_reset : list Action :=
  scenario_open ++
  [PumpOut 0 (P_ReadFrom 1000 5 (Some resetErr));
   PumpOut 0 P_next; PumpOut 0 P_next;
   Drv 0 (D_selected CaseErrOut)].

(** The dial of the back-end fails. *)
Definition scenario_dial_fails : list Action :=
  [CallProxy None None None; Acc 0 L_check;
   Acc 0 (L_accepted (Accepted (loopback 50000) (loopback 8080)));
   Acc 0 L_next; Acc 0 L_next;
   Drv 0 (D_dialed (inl (net_OpError false false
                           (errors_New "connection refused"))));
   Drv 0 D_next; Drv 0 D_next].

(** The write of the header fails. *)
Definition scenario_header_fails : list Action :=
  [CallProxy None None None; Acc 0 L_check;
   Acc 0 (L_accepted (Accepted (loopback 50000) (loopback 8080)));
   Acc 0 L_next; Acc 0 L_next;
   Drv 0 (D_dialed (inr (loopback 9090))); Drv 0 (D_wrote (Some resetErr));
   Drv 0 D_next; Drv 0 D_next].

(** [serve] panics after the dial. *)
Definition scenario_panic : list Action :=
  [CallProxy None None None; Acc 0 L_check;
   Acc 0 (L_accepted (Accepted (loopback 50000) (loopback 8080)));
   Acc 0 L_next; Acc 0 L_next;
   Drv 0 (D_dialed (inr (loopback 9090))); Drv 0 D_panic;
   Drv 0 D_next; Drv 0 D_next].

Definition final (acts : list Action) : State :=
  match run sample_text6 acts (newState sample_proxy) with
  | Some st => st
  | None => newState sample_proxy
  end.

Definition state_open : State := Eval vm_compute in final scenario_open.
Definition state_cancel : State := Eval vm_compute in final scenario_cancel.
Definition state_eof : State := Eval vm_compute in final scenario_eof.
Definition state_reset : State := Eval vm_compute in final scenario_reset.

(** What each session of a state has come to. *)
Definition exit_summary (st : State) : list (DriverPC * nat * nat * nat * nat) :=
  map (fun s => (drv s, incs s, decs s,
                 closeCalls (sConn s), closeCalls (dConn s)))
      (sessions st).

(** ** More of what holds of a session at every point *)

Record PumpsInv (s : Session) : Prop := {
  inv_together : pumpIn s = P_idle <-> pumpOut s = P_idle;
  inv_selecting : drv s = D_select -> pumpIn s <> P_idle;
  inv_cancelled : tookCancel s = true -> pumpIn s <> P_idle;
  inv_front_wire : exists ns, wire (sConn s) = map Forwarded ns
}.

(** ** What holds of the statistics goroutines at every point *)

Record StatsInv (st : State) : Prop := {
  inv_started : List.length (statsPCs st) = List.length (statsTasks st);
  inv_unstarted : doOnce (proxy st) = false -> statsPCs st = [];
  inv_timer :
    statsPCs st <> [] ->
    exists t, statsTimer (proxy st) = Some t
              /\ (t < List.length (timers st))%nat;
  inv_alive :
    ctx_done st = false ->
    Forall (fun pc => pc <> S_stop /\ pc <> S_returned) (statsPCs st)
}.



Definition state_dial_fails : State :=
  Eval vm_compute in final scenario_dial_fails.

(** What [init] writes and nothing else does: the knobs, the name, the
    listener configuration, the dialer, the pool, the context and its cancel
    function, and the flag of the [sync.Once]. *)
Definition setup (p : TCPProxy) :=
  (Name p, ProxyProto p, DialTimeout p, ClientTimeout p, ServerTimeout p,
   ClientKeepAlive p, ServerKeepAlive p, lnCfg p, dialer p, cancel p,
   baseCtx p, doOnce p, ppool p).

(** The shutdown scenario in two halves: up to the call of [Close], and the
    draining of the session after it. *)
Definition scenario_closing : list Action :=
  scenario_open ++
  [PumpIn 0 (P_ReadFrom 1000 10 (Some timeoutErr)); CallClose].

Definition scenario_drain : list Action :=
  [Drv 0 (D_selected CaseDone); Drv 0 D_next; Drv 0 D_next;
   PumpIn 0 (P_ReadFrom 2000 0 (Some closedConnErr));
   PumpOut 0 (P_ReadFrom 2000 0 (Some closedConnErr));
   PumpIn 0 P_next; PumpIn 0 P_next; PumpOut 0 P_next; PumpOut 0 P_next;
   Drv 0 D_next; Drv 0 D_next; CloseReturn].

Definition state_closing : State := Eval vm_compute in final scenario_closing.

(** A read on a closed socket.  The front-to-back pump of the open session
    calls [ReadFrom] on a socket that has been closed meanwhile: 5 bytes had
    gone out, and the call fails with the [*net.OpError] that wraps
    [net.ErrClosed]; the pump runs its deferred function and the driver
    receives from [errIn].  Beside it, the same run with the bare value
    [net.ErrClosed] in place of the wrapped one. *)
Definition scenario_closed_read : list Action :=
  scenario_open ++
  [PumpIn 0 (P_ReadFrom 2000 5 (Some closedConnErr));
   PumpIn 0 P_next; PumpIn 0 P_next; Drv 0 (D_selected CaseErrIn)].

Definition scenario_sentinel_read : list Action :=
  scenario_open ++
  [PumpIn 0 (P_ReadFrom 2000 5 (Some net_ErrClosed));
   PumpIn 0 P_next; PumpIn 0 P_next; Drv 0 (D_selected CaseErrIn)].

Definition state_closed_read : State :=
  Eval vm_compute in final scenario_closed_read.

Definition state_sentinel_read : State :=
  Eval vm_compute in final scenario_sentinel_read.

(** A failing listener beside a working one.  [Proxy] is called twice on
    the instance; the first call has a session open, and its [Accept] then
    fails with an error that is neither temporary nor end of stream. *)
Definition acceptFatalErr : error :=
  net_OpError false false (errors_New "accept4: invalid argument").

Definition scenario_accept_fatal : list Action :=
  scenario_open ++
  [CallProxy None None None; Acc 1 L_check; Acc 0 L_check;
   Acc 0 (L_accepted (AcceptFailed acceptFatalErr))].

Definition state_accept_fatal : State :=
  Eval vm_compute in final scenario_accept_fatal.

(** What goes on after it: the session of the first call forwards 10 more
    bytes, and the second call accepts a client and spawns its session. *)
Definition scenario_after_fatal : list Action :=
  [PumpIn 0 (P_ReadFrom 3000 10 (Some timeoutErr));
   Acc 1 (L_accepted (Accepted (loopback 50001) (loopback 8081)));
   Acc 1 L_next; Acc 1 L_next].

Definition state_after_fatal : State :=
  Eval vm_compute in final (scenario_accept_fatal ++ scenario_after_fatal).

(** Shutdown while the answer still flows.  The client has hung up: the
    front-to-back pump leaves its loop and closes its channel, the driver
    receives, runs its deferred function and exits.  [Close] is then called
    and returns at once.  After that the back-to-front pump forwards 7 bytes
    of the answer. *)
Definition scenario_close_early : list Action :=
  scenario_open ++
  [PumpIn 0 (P_ReadFrom 1000 10 None); PumpIn 0 P_next;
   Drv 0 (D_selected CaseErrIn); Drv 0 D_next; Drv 0 D_next;
   CallClose; CloseReturn].

Definition state_close_early : State :=
  Eval vm_compute in final scenario_close_early.

Definition state_close_early_later : State :=
  Eval vm_compute in
    final (scenario_close_early
           ++ [PumpOut 0 (P_ReadFrom 3000 7 (Some timeoutErr))]).

(** Shutdown while [Proxy] is in [Accept].  [Close] is called and returns;
    [Accept] then yields a client, and the call of [Proxy] spawns its session
    before it looks at the context again. *)
Definition scenario_late_accept : list Action :=
  [CallProxy None None None; Acc 0 L_check; CallClose; CloseReturn;
   Acc 0 (L_accepted (Accepted (loopback 50000) (loopback 8080)));
   Acc 0 L_next; Acc 0 L_next].

Definition state_late_accept : State :=
  Eval vm_compute in final scenario_late_accept.

(** ** Checking a range of integers, one by one *)

Fixpoint all_from (f : Z -> bool) (count : nat) (x : Z) : bool :=
  match count with
  | O => true
  | S count' => f x && all_from f count' (x + 1)
  end.

(** A byte value, a port number. *)
Definition isByte (b : Z) : Prop := 0 <= b <= 255.
Definition isPort (x : Z) : Prop := 0 <= x <= 65535.

(** ** The transparent-socket hook (sock.go)

    [SetSocketIPTransparent] against what the raw connection and the kernel
    answer: whether [c.Control] ran its function and what it returned, and
    the results of the two system calls. *)

Inductive Syscall : Type :=
| SetsockoptInt (level opt value : Z)
| GetsockoptInt (level opt : Z).

Definition SOL_IP : Z := 0.
Definition IP_TRANSPARENT : Z := 19.

Record SockAnswers := mkSockAnswers {
  controlRuns : bool;            (* c.Control called the function *)
  controlErr : option error;     (* what c.Control returned *)
  setErr : option error;         (* what SetsockoptInt returned *)
  getVal : Z;                    (* what GetsockoptInt returned *)
  getErr : option error
}.

Definition errNotTransparent : error :=
  errors_New "tcpee: failed to set IP_TRANSPARENT".

(** The function handed to [c.Control]: the system calls it makes and the
    [fnErr] it leaves. *)
Definition transparentControl (a : SockAnswers) : list Syscall * option error :=
  match setErr a with
  | Some e => ([SetsockoptInt SOL_IP IP_TRANSPARENT 1], Some e)
  | None =>
      let calls := [SetsockoptInt SOL_IP IP_TRANSPARENT 1;
                    GetsockoptInt SOL_IP IP_TRANSPARENT] in
      match getErr a with
      | Some e => (calls, Some e)
      | None =>
          if negb (getVal a =? 1) then (calls, Some errNotTransparent)
          else (calls, None)
      end
  end.

Definition SetSocketIPTransparent (a : SockAnswers)
  : list Syscall * option error :=
  let (calls, fnErr) :=
    if controlRuns a then transparentControl a else ([], None) in
  match controlErr a with
  | Some err => (calls, Some err)
  | None => (calls, fnErr)
  end.

(** ** Contextual error data (go-errors, data.go)

    [errorData] is a slice of key-value pairs; the values are of any type. *)

Section ErrorData.

Variable V : Type.

Record KV := mkKV { kv_Key : string; kv_Value : V }.

(** [NewData]: no pair yet. *)
Definition NewData : list KV := [].

(** [set]: the first pair with the key gets the value; without one, a new
    pair goes to the end. *)
Fixpoint errorData_set (key : string) (value : V) (data : list KV)
  : list KV :=
  match data with
  | [] => [mkKV key value]
  | kv :: rest =>
      if String.eqb (kv_Key kv) key then mkKV (kv_Key kv) value :: rest
      else kv :: errorData_set key value rest
  end.

(** [Value]: the value of the first pair with the key. *)
Fixpoint errorData_Value (key : string) (data : list KV) : option V :=
  match data with
  | [] => None
  | kv :: rest =>
      if String.eqb (kv_Key kv) key then Some (kv_Value kv)
      else errorData_Value key rest
  end.

(** [Append]: [set] for each pair, in order. *)
Definition errorData_Append (kvs : list KV) (data : list KV) : list KV :=
  fold_left (fun d kv => errorData_set (kv_Key kv) (kv_Value kv) d) kvs data.

End ErrorData.

Arguments mkKV {V} _ _.
Arguments kv_Key {V} _.
Arguments kv_Value {V} _.
Arguments NewData {V}.
Arguments errorData_set {V} _ _ _.
Arguments errorData_Value {V} _ _.
Arguments errorData_Append {V} _ _.

(** ** Formatting flags (go-format)

    The flag byte of a [Format] and the functions that read and set it. *)

Definition IsKeyBit : Z := Z.shiftl 1 0.
Definition VboseBit : Z := Z.shiftl 1 1.
Definition IsValBit : Z := Z.shiftl 1 2.
Definition PanicBit : Z := Z.shiftl 1 3.

(** [^x] on a [uint8]. *)
Definition not_u8 (x : Z) : Z := Z.lxor x 255.

(** [x + 1] on a [uint8]. *)
Definition incr_u8 (x : Z) : Z := (x + 1) mod 256.

(** The field of the configuration that a [Format] reads. *)
Record Formatter := mkFormatter { MaxDepth : Z }.

Record Format := mkFormat {
  Flags : Z;
  Derefs : Z;
  CurDepth : Z;
  VType : string;
  Config : Formatter;
  Buffer : nat                   (* the buffer pointed to *)
}.

Definition Format_AtMaxDepth (f : Format) : bool :=
  MaxDepth (Config f) <? CurDepth f.

Definition Format_Key (f : Format) : bool :=
  negb (Z.land (Flags f) IsKeyBit =? 0).

Definition Format_Value (f : Format) : bool :=
  negb (Z.land (Flags f) IsValBit =? 0).

Definition Format_Verbose (f : Format) : bool :=
  negb (Z.land (Flags f) VboseBit =? 0).

Definition Format_Panic (f : Format) : bool :=
  negb (Z.land (Flags f) PanicBit =? 0).

Definition Format_SetKey (f : Format) : Format :=
  let flags := Z.lor (Flags f) IsKeyBit in
  let flags := Z.land flags (not_u8 IsValBit) in
  mkFormat flags 0 (CurDepth f) EmptyString (Config f) (Buffer f).

Definition Format_SetValue (f : Format) : Format :=
  let flags := Z.lor (Flags f) IsValBit in
  let flags := Z.land flags (not_u8 IsKeyBit) in
  mkFormat flags 0 (CurDepth f) EmptyString (Config f) (Buffer f).

Definition Format_SetVerbose (f : Format) : Format :=
  mkFormat (Z.lor (Flags f) VboseBit) 0 (CurDepth f) EmptyString (Config f)
    (Buffer f).

Definition Format_SetPanic (f : Format) : Format :=
  let flags := Z.lor (Flags f) PanicBit in
  let flags := Z.lor flags IsValBit in
  let flags := Z.land flags (not_u8 IsKeyBit) in
  mkFormat flags 0 (CurDepth f) EmptyString (Config f) (Buffer f).

Definition Format_IncrDepth (f : Format) : Format :=
  mkFormat (Flags f) (Derefs f) (incr_u8 (CurDepth f)) EmptyString (Config f)
    (Buffer f).

Definition Format_IncrDerefs (f : Format) : Format :=
  mkFormat (Flags f) (incr_u8 (Derefs f)) (CurDepth f) EmptyString (Config f)
    (Buffer f).

(* ================================================================== *)
(** * Part II.  Properties                                             *)
(* ================================================================== *)

(** ** Address classification and the header line *)

Lemma isZeros_all_zero (l : IP) :
  isZeros l = true <-> (forall i, (i < List.length l)%nat -> nth i l 0 = 0).
Proof.
  induction l as [|b rest IH]; simpl.
  - split; [intros _ i Hi; lia | reflexivity].
  - destruct (Z.eqb_spec b 0) as [Hb|Hb]; simpl.
    + rewrite IH. split.
      * intros H [|i] Hi; [exact Hb | apply H; lia].
      * intros H i Hi. apply (H (S i)). lia.
    + split; [discriminate|].
      intros H. exfalso. apply Hb. apply (H 0%nat). lia.
Qed.

Lemma nth_firstn_lt (l : IP) (k i : nat) :
  (i < k)%nat -> nth i (firstn k l) 0 = nth i l 0.
Proof.
  revert k i. induction l as [|b rest IH]; intros k i Hi.
  - rewrite firstn_nil. reflexivity.
  - destruct k as [|k]; [lia|]. destruct i as [|i]; simpl; [reflexivity|].
    apply IH. lia.
Qed.

Lemma isIPv4_form (ip : IP) : isIPv4 ip = true <-> IPv4_form ip.
Proof.
  unfold isIPv4, IPv4_form, IPv4len, IPv6len.
  rewrite orb_true_iff, !andb_true_iff, !Nat.eqb_eq, !Z.eqb_eq,
    isZeros_all_zero.
  split.
  - intros [H4 | [[[H16 Hz] H10] H11]]; [left; exact H4 | right].
    repeat split; try assumption.
    intros i Hi. rewrite <- (nth_firstn_lt ip 10 i Hi). apply Hz.
    rewrite length_firstn. lia.
  - intros [H4 | (H16 & Hz & H10 & H11)]; [left; exact H4 | right].
    repeat split; try assumption.
    intros i Hi. rewrite length_firstn in Hi.
    rewrite nth_firstn_lt by lia. apply Hz. lia.
Qed.

Lemma string_app_assoc (a b c : string) :
  ((a ++ b) ++ c)%string = (a ++ (b ++ c))%string.
Proof.
  induction a as [|ch a IH]; simpl; [reflexivity | now rewrite IH].
Qed.

(** The header has the shape of the PROXY v1 line, whatever the addresses. *)
Lemma proxyHeader_shape (text6 : IP -> string) (sAddr dAddr : TCPAddr) :
  proxyHeader text6 sAddr dAddr =
  ("PROXY " ++ (if isIPv4 (addrIP sAddr) then "TCP4" else "TCP6") ++ " "
   ++ IP_String text6 (addrIP sAddr) ++ " "
   ++ IP_String text6 (addrIP dAddr) ++ " "
   ++ Itoa (addrPort sAddr) ++ " " ++ Itoa (addrPort dAddr) ++ CRLF)%string.
Proof.
  unfold proxyHeader. rewrite !string_app_assoc.
  destruct (isIPv4 (addrIP sAddr)); reflexivity.
Qed.

Lemma proxyHeader_loopback (text6 : IP -> string) (A C : Z) :
  proxyHeader text6 (loopback A) (loopback C) = loopback_line A C.
Proof.
  rewrite proxyHeader_shape. reflexivity.
Qed.

(** ** Arithmetic of the counters *)

Lemma wrap_i64_small (x : Z) : - 2 ^ 63 <= x < 2 ^ 63 -> wrap_i64 x = x.
Proof.
  intros H. unfold wrap_i64. rewrite Z.mod_small; lia.
Qed.

Lemma wrap_i64_add (a b : Z) : wrap_i64 (wrap_i64 a + b) = wrap_i64 (a + b).
Proof.
  unfold wrap_i64.
  replace ((a + 2 ^ 63) mod 2 ^ 64 - 2 ^ 63 + b + 2 ^ 63)
    with ((a + 2 ^ 63) mod 2 ^ 64 + b) by ring.
  rewrite Zplus_mod_idemp_l. f_equal. f_equal. ring.
Qed.

(** ** Lists of tasks *)

Lemma sumZ_app {A : Type} (f : A -> Z) (l1 l2 : list A) :
  sumZ f (l1 ++ l2) = sumZ f l1 + sumZ f l2.
Proof.
  induction l1 as [|x l1 IH]; simpl; [reflexivity | rewrite IH; ring].
Qed.

Lemma sumZ_upd {A : Type} (f : A -> Z) (l : list A) (i : nat) (x y : A) :
  nth_error l i = Some x -> sumZ f (upd i y l) = sumZ f l - f x + f y.
Proof.
  revert i. induction l as [|h t IH]; intros [|i] H; simpl in *;
    try discriminate.
  - inversion H; subst. ring.
  - rewrite (IH i H). ring.
Qed.

Lemma sumZ_nonneg {A : Type} (f : A -> Z) (l : list A) :
  (forall x, 0 <= f x) -> 0 <= sumZ f l.
Proof.
  intros Hf. induction l as [|x l IH]; simpl; [lia | specialize (Hf x); lia].
Qed.

Lemma sumZ_zero {A : Type} (f : A -> Z) (l : list A) :
  (forall x, 0 <= f x) -> sumZ f l = 0 -> Forall (fun x => f x = 0) l.
Proof.
  intros Hf. induction l as [|x l IH]; simpl; intros H; constructor.
  - pose proof (Hf x). pose proof (sumZ_nonneg f l Hf). lia.
  - apply IH. pose proof (Hf x). pose proof (sumZ_nonneg f l Hf). lia.
Qed.

Lemma Forall_upd {A : Type} (P : A -> Prop) (l : list A) (i : nat) (y : A) :
  Forall P l -> P y -> Forall P (upd i y l).
Proof.
  intros Hl Hy. revert i. induction Hl as [|h t Hh Ht IH]; intros [|i]; simpl;
    constructor; auto.
Qed.

Lemma Forall_nth_error {A : Type} (P : A -> Prop) (l : list A) (i : nat) (x : A) :
  Forall P l -> nth_error l i = Some x -> P x.
Proof.
  intros Hl H. apply nth_error_In in H. rewrite Forall_forall in Hl. auto.
Qed.

Lemma upd_length {A : Type} (l : list A) (i : nat) (y : A) :
  List.length (upd i y l) = List.length l.
Proof.
  revert i. induction l as [|h t IH]; intros [|i]; simpl; auto.
Qed.

Lemma upd_idem {A : Type} (l : list A) (i : nat) (y : A) :
  upd i y (upd i y l) = upd i y l.
Proof.
  revert i. induction l as [|h t IH]; intros [|i]; simpl; auto.
  now rewrite IH.
Qed.

(** ** Steps of a session keep its ledger *)

Lemma nth_error_upd_same {A : Type} (l : list A) (i : nat) (x y : A) :
  nth_error l i = Some x -> nth_error (upd i y l) i = Some y.
Proof.
  revert i. induction l as [|h t IH]; intros [|i] H; simpl in *;
    try discriminate; auto.
Qed.

Lemma upd_upd {A : Type} (l : list A) (i : nat) (x y : A) :
  upd i y (upd i x l) = upd i y l.
Proof.
  revert i. induction l as [|h t IH]; intros [|i]; simpl; auto.
  now rewrite IH.
Qed.

Lemma upd_same {A : Type} (l : list A) (i : nat) (x : A) :
  nth_error l i = Some x -> upd i x l = l.
Proof.
  revert i. induction l as [|h t IH]; intros [|i] H; simpl in *;
    try discriminate; auto.
  - inversion H; reflexivity.
  - now rewrite (IH i H).
Qed.

Lemma nth_error_upd_other {A : Type} (l : list A) (i k : nat) (y : A) :
  k <> i -> nth_error (upd i y l) k = nth_error l k.
Proof.
  revert i k. induction l as [|h t IH]; intros [|i] [|k] H; simpl;
    try reflexivity; try congruence.
  apply IH. congruence.
Qed.

(** A step of a statistics goroutine touches the timers and the log only. *)
Lemma stats_step_frame (a : StatsAction) (pc pc' : StatsPC) (st st' : State) :
  stats_step a pc st = Some (pc', st') ->
  proxy st' = proxy st /\ ctxs st' = ctxs st /\ ctx_done st' = ctx_done st
  /\ sessions st' = sessions st /\ acceptors st' = acceptors st
  /\ waiting st' = waiting st /\ returned st' = returned st
  /\ statsTasks st' = statsTasks st /\ statsPCs st' = statsPCs st.
Proof.
  intros H. unfold stats_step in H.
  destruct pc; destruct a; try discriminate H;
    repeat match type of H with
           | context [match ?x with Some _ => _ | None => _ end] =>
               destruct x eqn:?
           | context [if ?b then _ else _] => destruct b eqn:?
           end;
    try discriminate H; inversion H; subst; clear H; simpl;
    repeat split; try reflexivity; congruence.
Qed.

Lemma chanAt_recv (pc : PumpPC) (c c' : Chan) (v : option error) :
  pc <> P_idle -> chanAt pc c -> Chan_ready c = true ->
  Chan_recv c = (v, c') -> chanAt pc c'.
Proof.
  intros Hpc Hat Hready Hrecv. unfold Chan_recv in Hrecv.
  destruct pc; simpl in *; try congruence.
  - subst c. discriminate.
  - destruct (buf c); inversion Hrecv; subst; auto.
  - destruct (buf c); inversion Hrecv; subst; auto.
  - destruct (buf c); inversion Hrecv; subst; auto.
Qed.

Section SessionSteps.

Variable text6 : IP -> string.

Lemma newSession_inv (pp : bool) (peer local : TCPAddr) :
  SessInv text6 pp (newSession peer local).
Proof.
  constructor; simpl; auto.
Qed.

Lemma serve_step_inv (pp : bool) (act : DrvAction) (done : bool)
    (p p' : TCPProxy) (s s' : Session) (evs : list Event) :
  SessInv text6 pp s -> ProxyProto p = pp ->
  serve_step text6 act done p s = Some (p', s', evs) ->
  SessInv text6 pp s'.
Proof.
  intros [HcD HcS Hcan Hpumps Hincs Hdecs HeI HeO Hwire Hdl] Hpp H.
  unfold serve_step in H.
  destruct (drv s) eqn:Edrv.
  all: destruct act as [[err|addr]|werr|[| |]| |]; try discriminate.
  all: repeat match type of H with
       | context [if ?b then _ else _] => destruct b eqn:?
       | context [match ?x with _ => _ end] => destruct x eqn:?
       end; try discriminate.
  all: inversion H; subst; clear H.
  all: constructor;
    unfold closedByDriverD, closedByDriverS, headerFirst, headerPrefix in *;
    simpl in *.
  all: try rewrite Edrv in *.
  all: try match type of Hpumps with
       | _ /\ _ => destruct Hpumps as [Hp1 Hp2]
       end.
  all: try match type of Hcan with
       | tookCancel _ = _ => rewrite Hcan in *
       end.
  all: try match goal with
       | Hi : pumpIn _ = P_idle |- _ => rewrite Hi in *
       end.
  all: try match goal with
       | Hi : pumpOut _ = P_idle |- _ => rewrite Hi in *
       end.
  all: simpl in *; auto; try lia; try congruence.
  all: try (split; discriminate).
  all: try (eapply chanAt_recv; eassumption).
  all: try (rewrite Hwire; simpl).
  all: try (exists []; reflexivity).
Qed.

Lemma headerFirst_moved (pp : bool) (s s' : Session) (n : Z) :
  headerFirst text6 pp s ->
  sAddr s' = sAddr s -> dAddr s' = dAddr s ->
  wire (dConn s') = wire (ReadFrom_moved n (dConn s)) ->
  headerFirst text6 pp s'.
Proof.
  intros [ns Hns] Hs Hd Hw. unfold headerFirst, headerPrefix in *.
  rewrite Hw, Hs, Hd. unfold ReadFrom_moved.
  destruct (0 <? n); simpl.
  - exists (ns ++ [n]). rewrite Hns, map_app, app_assoc. reflexivity.
  - exists ns. exact Hns.
Qed.

Lemma copyConn_iter_cases (a : copyConnArgs) (now : Time) (n : Z)
    (err : option error) (p p' : TCPProxy) (s s' : Session) (ctl : LoopCtl) :
  copyConn_iter a now n err p s = Some (p', s', ctl) ->
  let s0 := a_setTimeout a now s in
  let s1 := set_conn (a_dst a) (ReadFrom_moved n (conn (a_dst a) s0)) s0 in
  let counted :=
    if a_isClientToServer a then addBytesIn n p else addBytesOut n p in
  (s' = s1 /\ (p' = p \/ p' = counted))
  \/ (exists e, err = Some e /\ ctl = Break /\ p' = p
                /\ chan (a_errChan a) s1 = newChan
                /\ s' = set_chan (a_errChan a) (mkChan [e] false) s1).
Proof.
  unfold copyConn_iter. intros H. cbv zeta in *.
  destruct err as [e|].
  - destruct (eq_EOF e || eq_ErrClosed e).
    + inversion H; subst. left. auto.
    + destruct (as_net_Error e) as [[[|] tmp]|].
      * destruct (n <? 1); inversion H; subst; left; auto.
      * unfold Chan_send in H.
        destruct (chan (a_errChan a) _) as [b c] eqn:Ech; simpl in H.
        destruct c; [discriminate|]. destruct b; [|discriminate].
        inversion H; subst. right. exists e. auto.
      * unfold Chan_send in H.
        destruct (chan (a_errChan a) _) as [b c] eqn:Ech; simpl in H.
        destruct c; [discriminate|]. destruct b; [|discriminate].
        inversion H; subst. right. exists e. auto.
  - inversion H; subst. left. auto.
Qed.

Lemma clientTimeout_cases (p : TCPProxy) (now : Time) (s : Session) :
  clientTimeout p now s = s
  \/ clientTimeout p now s
     = set_sConn (SetReadDeadline (now + ClientTimeout p) (sConn s)) s.
Proof.
  unfold clientTimeout, timeoutFunc, Time_Add.
  destruct (ClientTimeout p <? 1); auto.
Qed.

Lemma serverTimeout_cases (p : TCPProxy) (now : Time) (s : Session) :
  serverTimeout p now s = s
  \/ serverTimeout p now s
     = set_sConn (SetWriteDeadline (now + ServerTimeout p) (sConn s)) s.
Proof.
  unfold serverTimeout, timeoutFunc, Time_Add.
  destruct (ServerTimeout p <? 1); auto.
Qed.

Lemma ReadFrom_moved_closeCalls (n : Z) (c : Conn) :
  closeCalls (ReadFrom_moved n c) = closeCalls c.
Proof. unfold ReadFrom_moved. destruct (0 <? n); reflexivity. Qed.

Lemma ReadFrom_moved_deadlines (n : Z) (c : Conn) :
  readDeadline (ReadFrom_moved n c) = readDeadline c
  /\ writeDeadline (ReadFrom_moved n c) = writeDeadline c.
Proof. unfold ReadFrom_moved. destruct (0 <? n); split; reflexivity. Qed.

(** What an iteration of the front-to-back pump leaves alone. *)
Lemma copyConn_iter_In_frame (now : Time) (n : Z) (err : option error)
    (p p' : TCPProxy) (s s' : Session) (ctl : LoopCtl) :
  copyConn_iter (argsIn p) now n err p s = Some (p', s', ctl) ->
  drv s' = drv s /\ pumpIn s' = pumpIn s /\ pumpOut s' = pumpOut s
  /\ sAddr s' = sAddr s /\ dAddr s' = dAddr s
  /\ tookCancel s' = tookCancel s /\ incs s' = incs s /\ decs s' = decs s
  /\ errOut s' = errOut s
  /\ closeCalls (sConn s') = closeCalls (sConn s)
  /\ closeCalls (dConn s') = closeCalls (dConn s)
  /\ readDeadline (dConn s') = readDeadline (dConn s)
  /\ writeDeadline (dConn s') = writeDeadline (dConn s)
  /\ wire (dConn s') = wire (ReadFrom_moved n (dConn s))
  /\ (errIn s' = errIn s
      \/ (ctl = Break /\ errIn s = newChan /\ chClosed (errIn s') = false)).
Proof.
  intros H. apply copyConn_iter_cases in H. simpl in H.
  pose proof (ReadFrom_moved_closeCalls n (dConn s)) as Hc.
  pose proof (ReadFrom_moved_deadlines n (dConn s)) as [Hr Hw].
  destruct (clientTimeout_cases p now s) as [Hct|Hct]; rewrite Hct in H;
    simpl in H;
    destruct H as [[Hs _]|(e & _ & Hctl & _ & Hch & Hs)]; subst s';
    simpl; repeat split; auto.
Qed.

(** What an iteration of the back-to-front pump leaves alone. *)
Lemma copyConn_iter_Out_frame (now : Time) (n : Z) (err : option error)
    (p p' : TCPProxy) (s s' : Session) (ctl : LoopCtl) :
  copyConn_iter (argsOut p) now n err p s = Some (p', s', ctl) ->
  drv s' = drv s /\ pumpIn s' = pumpIn s /\ pumpOut s' = pumpOut s
  /\ sAddr s' = sAddr s /\ dAddr s' = dAddr s
  /\ tookCancel s' = tookCancel s /\ incs s' = incs s /\ decs s' = decs s
  /\ errIn s' = errIn s
  /\ closeCalls (sConn s') = closeCalls (sConn s)
  /\ dConn s' = dConn s
  /\ (errOut s' = errOut s
      \/ (ctl = Break /\ errOut s = newChan /\ chClosed (errOut s') = false)).
Proof.
  intros H. apply copyConn_iter_cases in H. simpl in H.
  destruct (serverTimeout_cases p now s) as [Hct|Hct]; rewrite Hct in H;
    simpl in H;
    destruct H as [[Hs _]|(e & _ & Hctl & _ & Hch & Hs)]; subst s';
    simpl; rewrite ?ReadFrom_moved_closeCalls; repeat split; auto.
Qed.

Lemma copyConn_step_In_inv (pp : bool) (act : PumpAction)
    (p p' : TCPProxy) (s s' : Session) (pc' : PumpPC) :
  SessInv text6 pp s ->
  copyConn_step (argsIn p) act (pumpIn s) p s = Some (pc', p', s') ->
  SessInv text6 pp (set_pumpIn pc' s').
Proof.
  intros Hinv H.
  assert (Hhdr : pumpIn s <> P_idle -> headerFirst text6 pp s).
  { destruct Hinv as [_ _ _ Hpumps _ _ _ _ Hwire _]. intros Hne.
    destruct (drv s); destruct (pumpIn s); simpl in *;
      try tauto; try (destruct Hpumps; congruence). }
  assert (Hlaunched : pumpIn s <> P_idle ->
            match drv s with D_dial | D_header | D_launch => False | _ => True end).
  { destruct Hinv as [_ _ _ Hpumps _ _ _ _ _ _]. intros Hne.
    destruct (drv s); auto; destruct Hpumps; congruence. }
  destruct Hinv as [HcD HcS Hcan Hpumps Hincs Hdecs HeI HeO Hwire Hdl].
  unfold copyConn_step in H.
  destruct (pumpIn s) eqn:Epc; destruct act as [now n err|];
    try discriminate.
  - (* an iteration of the loop *)
    destruct (copyConn_iter (argsIn p) now n err p s)
      as [[[p1 s1] ctl]|] eqn:Eiter; [|discriminate].
    apply copyConn_iter_In_frame in Eiter.
    destruct Eiter as (F1 & F2 & F3 & F4 & F5 & F6 & F7 & F8 & F9 & F10
                       & F11 & F12 & F13 & F14 & F15).
    specialize (Hhdr ltac:(discriminate)).
    specialize (Hlaunched ltac:(discriminate)).
    assert (Hh' : headerFirst text6 pp (set_pumpIn pc' s')).
    { destruct ctl; inversion H; subst;
        eapply headerFirst_moved; eauto. }
    simpl in HeI.
    destruct ctl; inversion H; subst; clear H.
    all: constructor; unfold closedByDriverD, closedByDriverS in *;
      simpl; rewrite ?F1, ?F3, ?F6, ?F7, ?F8, ?F9, ?F10, ?F11, ?F12, ?F13;
      auto.
    all: try (destruct (drv s); tauto).
    all: try (destruct (drv s); simpl in *; auto; tauto).
    all: try (destruct F15 as [F15|(F15 & _ & F16)]; [rewrite F15; rewrite HeI; reflexivity | discriminate F15 || exact F16]).
    all: destruct (drv s); simpl in *; try tauto; destruct Hpumps; split;
      (assumption || discriminate).
  - (* deferred: close(errChan) *)
    simpl in H. unfold Chan_close in H.
    destruct (chClosed (errIn s)) eqn:Ecl; [discriminate|].
    inversion H; subst; clear H.
    specialize (Hhdr ltac:(discriminate)).
    specialize (Hlaunched ltac:(discriminate)).
    constructor; unfold closedByDriverD, closedByDriverS, headerFirst in *;
      simpl in *; auto.
    all: destruct (drv s); simpl in *; try tauto; destruct Hpumps; split;
      (assumption || discriminate).
  - (* deferred: dst.Close() *)
    simpl in H. inversion H; subst; clear H.
    specialize (Hhdr ltac:(discriminate)).
    specialize (Hlaunched ltac:(discriminate)).
    constructor; unfold closedByDriverD, closedByDriverS, headerFirst in *;
      simpl in *; auto; try lia.
    all: destruct (drv s); simpl in *; try tauto; destruct Hpumps; split;
      (assumption || discriminate).
Qed.

Lemma copyConn_step_Out_inv (pp : bool) (act : PumpAction)
    (p p' : TCPProxy) (s s' : Session) (pc' : PumpPC) :
  SessInv text6 pp s ->
  copyConn_step (argsOut p) act (pumpOut s) p s = Some (pc', p', s') ->
  SessInv text6 pp (set_pumpOut pc' s').
Proof.
  intros Hinv H.
  destruct Hinv as [HcD HcS Hcan Hpumps Hincs Hdecs HeI HeO Hwire Hdl].
  unfold copyConn_step in H.
  destruct (pumpOut s) eqn:Epc; destruct act as [now n err|];
    try discriminate.
  - (* an iteration of the loop *)
    destruct (copyConn_iter (argsOut p) now n err p s)
      as [[[p1 s1] ctl]|] eqn:Eiter; [|discriminate].
    apply copyConn_iter_Out_frame in Eiter.
    destruct Eiter as (F1 & F2 & F3 & F4 & F5 & F6 & F7 & F8 & F9 & F10
                       & F11 & F12).
    simpl in HeO.
    destruct ctl; inversion H; subst; clear H.
    all: constructor;
      unfold closedByDriverD, closedByDriverS, headerFirst, headerPrefix in *;
      simpl; rewrite ?F1, ?F2, ?F4, ?F5, ?F6, ?F7, ?F8, ?F9, ?F10, ?F11;
      auto.
    all: try (destruct F12 as [F12|(F12 & _ & F13)];
              [rewrite F12; rewrite HeO; reflexivity
              | discriminate F12 || exact F13]).
    all: destruct (drv s); simpl in *; try tauto; destruct Hpumps; split;
      (assumption || discriminate || congruence).
  - (* deferred: close(errChan) *)
    simpl in H. unfold Chan_close in H.
    destruct (chClosed (errOut s)) eqn:Ecl; [discriminate|].
    inversion H; subst; clear H.
    constructor;
      unfold closedByDriverD, closedByDriverS, headerFirst, headerPrefix in *;
      simpl in *; auto.
    all: destruct (drv s); simpl in *; try tauto; destruct Hpumps; split;
      (assumption || discriminate || congruence).
  - (* deferred: dst.Close() *)
    simpl in H. inversion H; subst; clear H.
    constructor;
      unfold closedByDriverD, closedByDriverS, headerFirst, headerPrefix in *;
      simpl in *; auto; try lia.
    all: destruct (drv s); simpl in *; try tauto; destruct Hpumps; split;
      (assumption || discriminate || congruence).
Qed.

End SessionSteps.

(** ** Steps of the tasks keep the books of the instance *)

Section TaskSteps.

Variable text6 : IP -> string.

Lemma serve_step_proxy (act : DrvAction) (done : bool)
    (p p' : TCPProxy) (s s' : Session) (evs : list Event) :
  serve_step text6 act done p s = Some (p', s', evs) ->
  sameSetup p p'
  /\ bytesIn p' = bytesIn p /\ bytesOut p' = bytesOut p
  /\ serveWg p' = serveWg p - running s + running s'
  /\ (forall K, open p = wrap_i64 K ->
                open p' = wrap_i64 (K - weight s + weight s')).
Proof.
  intros H. unfold serve_step in H.
  destruct (drv s) eqn:Edrv.
  all: destruct act as [[err|addr]|werr|[| |]| |]; try discriminate.
  all: repeat match type of H with
       | context [if ?b then _ else _] => destruct b eqn:?
       | context [match ?x with _ => _ end] => destruct x eqn:?
       end; try discriminate.
  all: inversion H; subst; clear H.
  all: unfold sameSetup, running, weight; simpl; rewrite ?Edrv.
  all: repeat split; auto; try lia.
  all: intros K HK; try (rewrite HK; f_equal; lia).
  unfold atomic_AddInt64. rewrite HK, wrap_i64_add. f_equal. lia.
Qed.

Lemma copyConn_step_proxy (a : copyConnArgs) (act : PumpAction)
    (pc pc' : PumpPC) (p p' : TCPProxy) (s s' : Session) :
  copyConn_step a act pc p s = Some (pc', p', s') ->
  sameSetup p p' /\ serveWg p' = serveWg p /\ open p' = open p.
Proof.
  intros H. unfold copyConn_step in H.
  destruct pc; destruct act as [now n err|]; try discriminate.
  - destruct (copyConn_iter a now n err p s) as [[[p1 s1] ctl]|] eqn:E;
      [|discriminate].
    apply copyConn_iter_cases in E.
    assert (p1 = p') by (destruct ctl; inversion H; auto). subst p1.
    unfold sameSetup.
    destruct E as [[_ [Hp|Hp]]|(e & _ & _ & Hp & _)]; subst p'; auto 10.
    destruct (a_isClientToServer a); simpl; auto 10.
  - destruct (Chan_close _); inversion H; subst. unfold sameSetup. auto 10.
  - inversion H; subst. unfold sameSetup. auto 10.
Qed.

Lemma copyConn_step_In_books (act : PumpAction) (pc' : PumpPC)
    (p p' : TCPProxy) (s s' : Session) :
  copyConn_step (argsIn p) act (pumpIn s) p s = Some (pc', p', s') ->
  drv s' = drv s /\ incs s' = incs s /\ decs s' = decs s.
Proof.
  intros H. unfold copyConn_step in H.
  destruct (pumpIn s); destruct act as [now n err|]; try discriminate.
  - destruct (copyConn_iter (argsIn p) now n err p s)
      as [[[p1 s1] ctl]|] eqn:E; [|discriminate].
    apply copyConn_iter_In_frame in E.
    assert (s1 = s') by (destruct ctl; inversion H; auto). subst s1.
    tauto.
  - simpl in H. destruct (Chan_close _); inversion H; subst. auto.
  - inversion H; subst. auto.
Qed.

Lemma copyConn_step_Out_books (act : PumpAction) (pc' : PumpPC)
    (p p' : TCPProxy) (s s' : Session) :
  copyConn_step (argsOut p) act (pumpOut s) p s = Some (pc', p', s') ->
  drv s' = drv s /\ incs s' = incs s /\ decs s' = decs s.
Proof.
  intros H. unfold copyConn_step in H.
  destruct (pumpOut s); destruct act as [now n err|]; try discriminate.
  - destruct (copyConn_iter (argsOut p) now n err p s)
      as [[[p1 s1] ctl]|] eqn:E; [|discriminate].
    apply copyConn_iter_Out_frame in E.
    assert (s1 = s') by (destruct ctl; inversion H; auto). subst s1.
    tauto.
  - simpl in H. destruct (Chan_close _); inversion H; subst. auto.
  - inversion H; subst. auto.
Qed.

Lemma liveDrivers_upd (l : list Session) (i : nat) (s s' : Session) :
  nth_error l i = Some s ->
  liveDrivers (upd i s' l) = liveDrivers l - weight s + weight s'.
Proof. intros H. unfold liveDrivers. now rewrite (sumZ_upd _ _ _ _ _ H). Qed.

Lemma step_inv (p0 : TCPProxy) (act : Action) (st st' : State) :
  StateInv text6 p0 st -> step text6 act st = Some st' ->
  StateInv text6 p0 st'.
Proof.
  intros [Hsess Hproto Hwg Hopen Honce Htrip] H.
  destruct act as [de ce le|j a|i a|i a|i a| | |k a]; simpl in H.
  8: { destruct (nth_error (statsPCs st) k) as [spc|]; [|discriminate].
    destruct (stats_step a spc st) as [[spc' stS]|] eqn:Ess; [|discriminate].
    inversion H; subst; clear H.
    destruct (stats_step_frame _ _ _ _ _ Ess)
      as (Fp & Fc & Fd & Fs & Fa & Fw & Fr & Ft & Fk).
    constructor; simpl; unfold ctx_done in *; simpl;
      rewrite ?Fp, ?Fc, ?Fs, ?Fa, ?Fw, ?Fr; assumption. }
  - (* a call of Proxy *)
    assert (Hst : exists stE, StateInv text6 p0 stE
              /\ (st' = stE \/ st' = set_acceptors (acceptors stE ++ [L_top]) stE)
              /\ doOnce (proxy stE) = true).
    { exists (startStatsTimer (init st)). split; [|split].
      - unfold init. destruct (doOnce (proxy st)) eqn:Ed.
        + constructor; simpl; rewrite ?Ed; auto.
        + destruct Honce as (Hc & Hb & Hx & Ha & Hs & Hw & Hr).
          constructor; simpl; rewrite ?Hx, ?Hs, ?Ha in *; simpl; auto.
          rewrite Hw, Hr. intros Hlt. inversion Hlt.
      - unfold Proxy_enter in H.
        destruct de; [inversion H; auto|].
        destruct ce; [inversion H; auto|].
        destruct le; inversion H; auto.
      - unfold init. destruct (doOnce (proxy st)) eqn:Ed; simpl; auto. }
    destruct Hst as (stE & [Hs1 Hp1 Hw1 Ho1 Hon1 Ht1] & [->| ->] & Hd).
    + constructor; auto.
    + constructor; simpl; auto.
      * rewrite sumZ_app. simpl. lia.
      * rewrite Hd in *. auto.
  - (* a call of Proxy in its loop *)
    destruct (nth_error (acceptors st) j) as [pc|] eqn:Ej; [|discriminate].
    assert (Hd : doOnce (proxy st) = true).
    { destruct (doOnce (proxy st)); auto.
      destruct Honce as (_ & _ & _ & Ha & _). rewrite Ha in Ej.
      destruct j; discriminate. }
    rewrite Hd in Honce.
    unfold acceptor_step in H.
    destruct pc; destruct a as [|r|]; try discriminate.
    + destruct (ctx_done st) eqn:Ecd; inversion H; subst; clear H.
      all: constructor; simpl; rewrite ?Hd; auto.
      all: try (rewrite (sumZ_upd _ _ _ _ _ Ej); simpl; lia).
      all: intros Hlt; specialize (Htrip Hlt); try discriminate; exact Ecd.
    + destruct (accept_iter (Name (proxy st)) r) as [evs pc'] eqn:Eit.
      inversion H; subst; clear H.
      assert (tracking pc' = 0).
      { unfold accept_iter in Eit. destruct r.
        - inversion Eit; reflexivity.
        - destruct (as_net_Error err) as [[t [|]]|];
            [inversion Eit; reflexivity| |];
            destruct (errors_Is_EOF err); inversion Eit; reflexivity. }
      constructor; simpl; rewrite ?Hd; auto.
      rewrite (sumZ_upd _ _ _ _ _ Ej); simpl; lia.
    + inversion H; subst; clear H.
      constructor; simpl; rewrite ?Hd; auto.
      rewrite (sumZ_upd _ _ _ _ _ Ej); simpl; lia.
    + inversion H; subst; clear H.
      constructor; simpl; rewrite ?Hd; auto.
      * apply Forall_app. split; auto. constructor; auto.
        apply newSession_inv.
      * rewrite (sumZ_upd _ _ _ _ _ Ej), sumZ_app; simpl.
        change (running (newSession peer local)) with 1. lia.
      * unfold atomic_AddInt64. rewrite Hopen, wrap_i64_add.
        unfold liveDrivers. rewrite sumZ_app. simpl. f_equal; lia.
  - (* the driver of a session *)
    destruct (nth_error (sessions st) i) as [s|] eqn:Ei; [|discriminate].
    destruct (serve_step text6 a (ctx_done st) (proxy st) s)
      as [[[p' s'] evs]|] eqn:Es; [|discriminate].
    inversion H; subst; clear H.
    pose proof (Forall_nth_error _ _ _ _ Hsess Ei) as Hs.
    pose proof (serve_step_inv text6 _ _ _ _ _ _ _ _ Hs Hproto Es) as Hs'.
    destruct (serve_step_proxy _ _ _ _ _ _ _ Es)
      as ((Hn & Hpp & Hct & Hst & Hca & Hb & Hdo) & _ & _ & Hw & Ho).
    constructor; simpl; auto.
    + apply Forall_upd; auto.
    + congruence.
    + rewrite (sumZ_upd _ _ _ _ _ Ei). lia.
    + rewrite (liveDrivers_upd _ _ _ _ Ei). apply Ho. exact Hopen.
    + rewrite Hdo, Hca, Hb. destruct (doOnce (proxy st)); auto.
      destruct Honce as (_ & _ & _ & _ & Hnil & _). rewrite Hnil in Ei.
      destruct i; discriminate.
    + intros Hlt. specialize (Htrip Hlt). unfold ctx_done in *. simpl.
      rewrite Hb. exact Htrip.
  - (* the front-to-back pump *)
    destruct (nth_error (sessions st) i) as [s|] eqn:Ei; [|discriminate].
    destruct (copyConn_step (argsIn (proxy st)) a (pumpIn s) (proxy st) s)
      as [[[pc' p'] s']|] eqn:Es; [|discriminate].
    inversion H; subst; clear H.
    pose proof (Forall_nth_error _ _ _ _ Hsess Ei) as Hs.
    pose proof (copyConn_step_In_inv text6 _ _ _ _ _ _ _ Hs Es) as Hs'.
    destruct (copyConn_step_proxy _ _ _ _ _ _ _ _ Es)
      as ((Hn & Hpp & Hct & Hst & Hca & Hb & Hdo) & Hw & Ho).
    destruct (copyConn_step_In_books _ _ _ _ _ _ Es) as (B1 & B2 & B3).
    assert (Hrun : running (set_pumpIn pc' s') = running s)
      by (unfold running; simpl; rewrite B1; reflexivity).
    assert (Hwt : weight (set_pumpIn pc' s') = weight s)
      by (unfold weight; simpl; rewrite B2, B3; reflexivity).
    constructor; simpl; auto.
    + apply Forall_upd; auto.
    + congruence.
    + rewrite (sumZ_upd _ _ _ _ _ Ei), Hrun. lia.
    + rewrite (liveDrivers_upd _ _ _ _ Ei), Hwt, Ho, Hopen. f_equal; lia.
    + rewrite Hdo, Hca, Hb. destruct (doOnce (proxy st)); auto.
      destruct Honce as (_ & _ & _ & _ & Hnil & _). rewrite Hnil in Ei.
      destruct i; discriminate.
    + intros Hlt. specialize (Htrip Hlt). unfold ctx_done in *. simpl.
      rewrite Hb. exact Htrip.
  - (* the back-to-front pump *)
    destruct (nth_error (sessions st) i) as [s|] eqn:Ei; [|discriminate].
    destruct (copyConn_step (argsOut (proxy st)) a (pumpOut s) (proxy st) s)
      as [[[pc' p'] s']|] eqn:Es; [|discriminate].
    inversion H; subst; clear H.
    pose proof (Forall_nth_error _ _ _ _ Hsess Ei) as Hs.
    pose proof (copyConn_step_Out_inv text6 _ _ _ _ _ _ _ Hs Es) as Hs'.
    destruct (copyConn_step_proxy _ _ _ _ _ _ _ _ Es)
      as ((Hn & Hpp & Hct & Hst & Hca & Hb & Hdo) & Hw & Ho).
    destruct (copyConn_step_Out_books _ _ _ _ _ _ Es) as (B1 & B2 & B3).
    assert (Hrun : running (set_pumpOut pc' s') = running s)
      by (unfold running; simpl; rewrite B1; reflexivity).
    assert (Hwt : weight (set_pumpOut pc' s') = weight s)
      by (unfold weight; simpl; rewrite B2, B3; reflexivity).
    constructor; simpl; auto.
    + apply Forall_upd; auto.
    + congruence.
    + rewrite (sumZ_upd _ _ _ _ _ Ei), Hrun. lia.
    + rewrite (liveDrivers_upd _ _ _ _ Ei), Hwt, Ho, Hopen. f_equal; lia.
    + rewrite Hdo, Hca, Hb. destruct (doOnce (proxy st)); auto.
      destruct Honce as (_ & _ & _ & _ & Hnil & _). rewrite Hnil in Ei.
      destruct i; discriminate.
    + intros Hlt. specialize (Htrip Hlt). unfold ctx_done in *. simpl.
      rewrite Hb. exact Htrip.
  - (* a call of Close: proxy.cancel() *)
    unfold Close_cancel in H.
    destruct (cancel (proxy st)) as [c|] eqn:Ec; [|discriminate].
    inversion H; subst; clear H.
    destruct (doOnce (proxy st)) eqn:Hd.
    + destruct Honce as (Hc & Hb & Hl).
      assert (c = 0%nat) by congruence. subst c.
      constructor; simpl; rewrite ?Hd; auto.
      * repeat split; auto. destruct (ctxs st); [discriminate|exact Hl].
      * intros _. unfold ctx_done. simpl. rewrite Hb.
        destruct (ctxs st); [discriminate|reflexivity].
    + destruct Honce as (Hc & _). congruence.
  - (* a call of Close: serveWg.Wait() returns *)
    destruct (waiting st) as [|w] eqn:Ew; [discriminate|].
    destruct (Wait_returns st); [|discriminate].
    inversion H; subst; clear H.
    constructor; simpl; auto.
    + destruct (doOnce (proxy st)); auto.
      destruct Honce as (_ & _ & _ & _ & _ & Hw0 & _). congruence.
    + intros _. apply Htrip. lia.
Qed.

End TaskSteps.

(** ** Every reachable state keeps the books *)

Section Reachable.

Variable text6 : IP -> string.

Lemma newState_inv (name : string) (pp : bool) (dt ct st cka ska : Duration) :
  StateInv text6 (inert name pp dt ct st cka ska)
    (newState (inert name pp dt ct st cka ska)).
Proof.
  constructor; simpl; auto.
  - repeat split; reflexivity.
  - intros H. inversion H.
Qed.

Lemma run_inv (p0 : TCPProxy) (acts : list Action) (st st' : State) :
  StateInv text6 p0 st -> run text6 acts st = Some st' ->
  StateInv text6 p0 st'.
Proof.
  revert st. induction acts as [|a rest IH]; intros st Hinv H; simpl in H.
  - inversion H; subst. exact Hinv.
  - destruct (step text6 a st) as [st1|] eqn:E; [|discriminate].
    apply (IH st1); [eapply step_inv; eassumption | exact H].
Qed.

Lemma reachable_inv (name : string) (pp : bool) (dt ct st0 cka ska : Duration)
    (st : State) :
  reachable text6 (inert name pp dt ct st0 cka ska) st ->
  StateInv text6 (inert name pp dt ct st0 cka ska) st.
Proof.
  intros [acts H]. eapply run_inv; [apply newState_inv | exact H].
Qed.

Lemma reachable_session (name : string) (pp : bool)
    (dt ct st0 cka ska : Duration) (st : State) (s : Session) :
  reachable text6 (inert name pp dt ct st0 cka ska) st ->
  In s (sessions st) -> SessInv text6 pp s.
Proof.
  intros Hr Hin. apply reachable_inv in Hr.
  destruct Hr as [Hs _ _ _ _ _]. rewrite Forall_forall in Hs.
  apply (Hs s Hin).
Qed.

End Reachable.

Lemma reachable_final (acts : list Action) (st : State) :
  run sample_text6 acts (newState sample_proxy) = Some st ->
  reachable sample_text6 sample_proxy st.
Proof. intros H. exists acts. exact H. Qed.

(** ** The PROXY v1 header on the back-end socket *)

(** C1, as amended.  With [ProxyProto] on, whatever has been written to the
    back-end socket of a session starts with the header line and is followed
    by forwarded data only.  The line is
    [PROXY <PROTO> <SRC_IP> <DST_IP> <SRC_PORT> <DST_PORT>\r\n], where PROTO
    is TCP4 exactly when the peer address of the front socket has the IPv4
    form and TCP6 otherwise, the source is the peer of the front socket and
    the destination is the peer of the back-end socket: for a client
    127.0.0.1:A proxied to the back-end 127.0.0.1:C the line is
    [PROXY TCP4 127.0.0.1 127.0.0.1 A C\r\n]. *)
Theorem header_first_on_backend
    (text6 : IP -> string) (name : string) (dt ct st0 cka ska : Duration)
    (st : State) (s : Session) :
  reachable text6 (inert name true dt ct st0 cka ska) st ->
  In s (sessions st) ->
  let line := proxyHeader text6 (sAddr s) (dAddr s) in
  (wire (dConn s) = []
   \/ exists ns, wire (dConn s) = WroteHeader line :: map Forwarded ns)
  /\ (exists proto,
        line = ("PROXY " ++ proto ++ " "
                ++ IP_String text6 (addrIP (sAddr s)) ++ " "
                ++ IP_String text6 (addrIP (dAddr s)) ++ " "
                ++ Itoa (addrPort (sAddr s)) ++ " "
                ++ Itoa (addrPort (dAddr s)) ++ CRLF)%string
        /\ (IPv4_form (addrIP (sAddr s)) -> proto = "TCP4"%string)
        /\ (~ IPv4_form (addrIP (sAddr s)) -> proto = "TCP6"%string))
  /\ (forall A C, sAddr s = loopback A -> dAddr s = loopback C ->
                  line = loopback_line A C).
Proof.
  intros Hr Hin line. split; [|split].
  - pose proof (reachable_session _ _ _ _ _ _ _ _ _ _ Hr Hin) as Hs.
    destruct Hs as [_ _ _ _ _ _ _ _ Hwire _].
    unfold headerFirst, headerPrefix in Hwire. simpl in Hwire.
    destruct (drv s); destruct (pumpIn s); tauto.
  - exists (if isIPv4 (addrIP (sAddr s)) then "TCP4" else "TCP6")%string.
    split; [apply proxyHeader_shape|].
    rewrite <- isIPv4_form.
    destruct (isIPv4 (addrIP (sAddr s))); split; congruence.
  - intros A C HA HC. unfold line. rewrite HA, HC.
    apply proxyHeader_loopback.
Qed.

Lemma header_first_on_backend_witness :
  reachable sample_text6 sample_proxy state_cancel
  /\ wire (dConn (nth 0 (sessions state_cancel) (newSession (loopback 0) (loopback 0))))
     = [WroteHeader (loopback_line 50000 9090); Forwarded 10].
Proof.
  assert (Hr : reachable sample_text6 sample_proxy state_cancel)
    by (apply (reachable_final scenario_cancel); reflexivity).
  split; [exact Hr|].
  destruct (header_first_on_backend sample_text6 EmptyString 0 (5 * Second) 0 0 0
              state_cancel
              (nth 0 (sessions state_cancel) (newSession (loopback 0) (loopback 0)))
              Hr (or_introl eq_refl)) as (_ & _ & Hline).
  rewrite <- (Hline 50000 9090 eq_refl eq_refl). reflexivity.
Defined.

(** C1, as the claim has it: the destination port of the line would be the
    port B of the front-end listener.  [serve] never reads the listener's
    address: for the client 127.0.0.1:50000 accepted on 127.0.0.1:8080 and
    proxied to 127.0.0.1:9090 the line carries the port 9090. *)
Lemma header_dst_port_is_backend_port :
  let s := nth 0 (sessions state_open) (newSession (loopback 0) (loopback 0)) in
  sAddr s = loopback 50000 /\ sLocal s = loopback 8080
  /\ dAddr s = loopback 9090
  /\ wire (dConn s) = [WroteHeader (loopback_line 50000 9090)]
  /\ wire (dConn s) <> [WroteHeader (loopback_line 50000 8080)].
Proof.
  repeat split. intros H. vm_compute in H. discriminate H.
Qed.

(** ** Who closes the sockets *)

(** C3, as amended.  At every point the calls of [Close] on the back-end
    socket are those of the front-to-back pump (one, once it is done) and of
    the driver's Done branch (one, once it is past it), and likewise for the
    front socket with the back-to-front pump.  So for a session whose pumps
    were started, when the driver and both pumps have exited each socket has
    been closed by the pump it is the destination of; it has been closed
    exactly once if the driver left through a completion channel, and exactly
    twice, by the driver and by the pump, on the cancellation path. *)
Theorem sockets_closed_by_pump_and_cancel
    (text6 : IP -> string) (name : string) (pp : bool)
    (dt ct st0 cka ska : Duration) (st : State) (s : Session) :
  reachable text6 (inert name pp dt ct st0 cka ska) st ->
  In s (sessions st) ->
  closeCalls (dConn s) = (closedByPump (pumpIn s) + closedByDriverD s)%nat
  /\ closeCalls (sConn s) = (closedByPump (pumpOut s) + closedByDriverS s)%nat
  /\ (drv s = D_exit -> pumpIn s = P_done -> pumpOut s = P_done ->
      closeCalls (dConn s) = (if tookCancel s then 2 else 1)%nat
      /\ closeCalls (sConn s) = (if tookCancel s then 2 else 1)%nat).
Proof.
  intros Hr Hin.
  destruct (reachable_session _ _ _ _ _ _ _ _ _ _ Hr Hin)
    as [HcD HcS _ _ _ _ _ _ _ _].
  split; [exact HcD|]. split; [exact HcS|].
  intros Hd Hi Ho. rewrite HcD, HcS, Hi, Ho.
  unfold closedByDriverD, closedByDriverS. rewrite Hd.
  destruct (tookCancel s); split; reflexivity.
Qed.

Lemma sockets_closed_by_pump_and_cancel_witness :
  let s := nth 0 (sessions state_eof) (newSession (loopback 0) (loopback 0)) in
  reachable sample_text6 sample_proxy state_eof
  /\ closeCalls (dConn s) = 1%nat /\ closeCalls (sConn s) = 1%nat.
Proof.
  assert (Hr : reachable sample_text6 sample_proxy state_eof)
    by (apply (reachable_final scenario_eof); reflexivity).
  split; [exact Hr|].
  destruct (sockets_closed_by_pump_and_cancel sample_text6 EmptyString true 0
              (5 * Second) 0 0 0 state_eof
              (nth 0 (sessions state_eof) (newSession (loopback 0) (loopback 0)))
              Hr (or_introl eq_refl)) as (_ & _ & Hfin).
  exact (Hfin eq_refl eq_refl eq_refl).
Defined.

(** C3, as the claim has it, fails on the cancellation path: the driver has
    closed both sockets and each pump has closed its destination again. *)
Lemma cancel_path_closes_each_socket_twice :
  reachable sample_text6 sample_proxy state_cancel
  /\ map (fun s => (drv s, pumpIn s, pumpOut s,
                    closeCalls (sConn s), closeCalls (dConn s)))
         (sessions state_cancel)
     = [(D_exit, P_done, P_done, 2%nat, 2%nat)].
Proof.
  split; [apply (reachable_final scenario_cancel)|]; reflexivity.
Qed.

(** ** The count of open connections *)

Lemma weight_nonneg_sum (l : list Session) :
  Forall (fun s => incs s = 1%nat /\ (decs s <= 1)%nat) l ->
  0 <= liveDrivers l.
Proof.
  unfold liveDrivers. induction 1 as [|s l [Hi Hd] _ IH]; simpl; lia.
Qed.

(** ** Shutdown *)

Lemma running_nonneg (s : Session) : 0 <= running s.
Proof. unfold running. destruct (drv s); lia. Qed.

Lemma tracking_nonneg (pc : AcceptorPC) : 0 <= tracking pc.
Proof. destruct pc; simpl; lia. Qed.

Lemma drained_sessions (text6 : IP -> string) (p0 : TCPProxy) (st : State) :
  StateInv text6 p0 st -> serveWg (proxy st) = 0 ->
  Forall cleanedUp (sessions st).
Proof.
  intros [Hs _ Hwg _ _ _] H0. rewrite Hwg in H0.
  pose proof (sumZ_nonneg running (sessions st) running_nonneg).
  pose proof (sumZ_nonneg tracking (acceptors st) tracking_nonneg).
  assert (Hz : sumZ running (sessions st) = 0) by lia.
  apply (sumZ_zero running _ running_nonneg) in Hz.
  rewrite Forall_forall in *. intros s Hin.
  specialize (Hs s Hin). specialize (Hz s Hin).
  destruct Hs as [_ _ _ _ _ Hd _ _ _ _].
  unfold cleanedUp, running in *. destruct (drv s); try discriminate.
  auto.
Qed.

(** ** Idle deadlines *)

(** C9.  The setter made from [d] and [fn] does nothing when [d <= 0] and
    otherwise calls [fn] with the reading of the clock at the invocation plus
    [d].  [serve] makes two of them and hands one to each pump: the one of
    the front-to-back pump sets the read deadline of the front socket from
    [ClientTimeout], the one of the back-to-front pump its write deadline
    from [ServerTimeout]; neither touches the back-end socket, which never
    has a deadline. *)
Theorem idle_deadline_setters :
  (forall (W : Type) (d : Duration) (fn : Time -> W -> W) (now : Time) (w : W),
      (d <= 0 -> timeoutFunc d fn now w = w)
      /\ (0 < d -> timeoutFunc d fn now w = fn (now + d) w))
  /\ (forall (p : TCPProxy) (now : Time) (s : Session),
        let s' := a_setTimeout (argsIn p) now s in
        dConn s' = dConn s
        /\ writeDeadline (sConn s') = writeDeadline (sConn s)
        /\ readDeadline (sConn s')
           = (if 0 <? ClientTimeout p then Some (now + ClientTimeout p)
              else readDeadline (sConn s)))
  /\ (forall (p : TCPProxy) (now : Time) (s : Session),
        let s' := a_setTimeout (argsOut p) now s in
        dConn s' = dConn s
        /\ readDeadline (sConn s') = readDeadline (sConn s)
        /\ writeDeadline (sConn s')
           = (if 0 <? ServerTimeout p then Some (now + ServerTimeout p)
              else writeDeadline (sConn s)))
  /\ (forall (text6 : IP -> string) (name : string) (pp : bool)
             (dt ct st0 cka ska : Duration) (st : State) (s : Session),
        reachable text6 (inert name pp dt ct st0 cka ska) st ->
        In s (sessions st) ->
        readDeadline (dConn s) = None /\ writeDeadline (dConn s) = None).
Proof.
  split; [|split; [|split]].
  - intros W d fn now w. unfold timeoutFunc, Time_Add.
    destruct (Z.ltb_spec d 1); split; intros; try reflexivity; lia.
  - intros p now s. simpl. unfold clientTimeout, timeoutFunc, Time_Add.
    destruct (Z.ltb_spec (ClientTimeout p) 1);
      destruct (Z.ltb_spec 0 (ClientTimeout p)); try lia; auto.
  - intros p now s. simpl. unfold serverTimeout, timeoutFunc, Time_Add.
    destruct (Z.ltb_spec (ServerTimeout p) 1);
      destruct (Z.ltb_spec 0 (ServerTimeout p)); try lia; auto.
  - intros text6 name pp dt ct st0 cka ska st s Hr Hin.
    destruct (reachable_session _ _ _ _ _ _ _ _ _ _ Hr Hin)
      as [_ _ _ _ _ _ _ _ _ Hdl].
    exact Hdl.
Qed.

Lemma idle_deadline_setters_witness :
  let s := nth 0 (sessions state_cancel) (newSession (loopback 0) (loopback 0)) in
  timeoutFunc (5 * Second) (fun t (w : list Time) => t :: w) 1000 []
  = [5000001000]
  /\ timeoutFunc 0 (fun t (w : list Time) => t :: w) 1000 [] = []
  /\ readDeadline (sConn s) = Some 5000002000
  /\ writeDeadline (sConn s) = None
  /\ readDeadline (dConn s) = None /\ writeDeadline (dConn s) = None.
Proof.
  destruct idle_deadline_setters as (Hgen & _ & _ & Hback).
  destruct (Hgen (list Time) (5 * Second) (fun t w => t :: w) 1000 [])
    as [_ Hpos].
  destruct (Hgen (list Time) 0 (fun t w => t :: w) 1000 []) as [Hzero _].
  split; [apply Hpos; reflexivity|].
  split; [apply Hzero; discriminate|].
  split; [reflexivity|]. split; [reflexivity|].
  apply (Hback sample_text6 EmptyString true 0 (5 * Second) 0 0 0 state_cancel).
  - apply (reachable_final scenario_cancel). reflexivity.
  - left. reflexivity.
Defined.

(** ** The copy pump *)

Lemma conn_set_chan (x : Side) (y : ChanName) (c : Chan) (s : Session) :
  conn x (set_chan y c s) = conn x s.
Proof. destruct x, y; reflexivity. Qed.

Lemma chan_set_chan (y : ChanName) (c : Chan) (s : Session) :
  chan y (set_chan y c s) = c.
Proof. destruct y; reflexivity. Qed.

Lemma chan_set_conn (x : Side) (y : ChanName) (c : Conn) (s : Session) :
  chan y (set_conn x c s) = chan y s.
Proof. destruct x, y; reflexivity. Qed.

Lemma conn_set_conn (x : Side) (c : Conn) (s : Session) :
  conn x (set_conn x c s) = c.
Proof. destruct x; reflexivity. Qed.

Lemma isTimeout_cases (e : error) :
  isTimeout e -> exists tmp w, e = net_OpError true tmp w.
Proof.
  intros [tmp H]. destruct e; simpl in H; try discriminate.
  inversion H; subst. eauto.
Qed.

(** One iteration of the pump that got [n] and [err] from [ReadFrom]: on
    nil, [io.EOF] or the value [net.ErrClosed] itself it adds [n] to the
    counter of its direction and leaves the loop, nothing sent; on a timeout
    with [n = 0] it leaves the loop, nothing counted and nothing sent; on a
    timeout with [n > 0] it adds [n] and stays in the loop; on any other
    error, an error that wraps [net.ErrClosed] included, it sends the error
    on its channel and leaves the loop.  Leaving the loop leads to the
    deferred function, which closes the channel and calls [Close] on the
    destination socket.  In every reachable state a pump in its loop has an
    empty open channel, so that its one send goes through; one about to
    close its channel finds it open; and one that is done has closed both
    channel and socket. *)
Theorem copyConn_iteration_outcomes
    (a : copyConnArgs) (now : Time) (n : Z) (err : option error)
    (p : TCPProxy) (s : Session) :
  let s0 := a_setTimeout a now s in
  let s1 := set_conn (a_dst a) (ReadFrom_moved n (conn (a_dst a) s0)) s0 in
  let counted :=
    if a_isClientToServer a then addBytesIn n p else addBytesOut n p in
  let iter := copyConn_step a (P_ReadFrom now n err) P_loop p s in
  (bytesIn counted
   = (if a_isClientToServer a then wrap_u64 (bytesIn p + wrap_u64 n)
      else bytesIn p)
   /\ bytesOut counted
      = (if a_isClientToServer a then bytesOut p
         else wrap_u64 (bytesOut p + wrap_u64 n)))
  /\ (err = None \/ err = Some io_EOF \/ err = Some net_ErrClosed ->
     iter = Some (P_closeChan, counted, s1))
  /\ (forall e, err = Some e -> isTimeout e ->
        (n = 0 -> iter = Some (P_closeChan, p, s1))
        /\ (0 < n -> iter = Some (P_loop, counted, s1)))
  /\ (forall e, err = Some e -> e <> io_EOF -> e <> net_ErrClosed ->
        ~ isTimeout e -> chan (a_errChan a) s1 = newChan ->
        iter = Some (P_closeChan, p,
                     set_chan (a_errChan a) (mkChan [e] false) s1))
  /\ (forall p2 s2, chClosed (chan (a_errChan a) s2) = false ->
        exists s3 s4,
          copyConn_step a P_next P_closeChan p2 s2 = Some (P_closeDst, p2, s3)
          /\ copyConn_step a P_next P_closeDst p2 s3 = Some (P_done, p2, s4)
          /\ chClosed (chan (a_errChan a) s4) = true
          /\ buf (chan (a_errChan a) s4) = buf (chan (a_errChan a) s2)
          /\ closeCalls (conn (a_dst a) s4)
             = S (closeCalls (conn (a_dst a) s2)))
  /\ (forall (text6 : IP -> string) (name : string) (pp : bool)
             (dt ct st0 cka ska : Duration) (st : State) (x : Session),
        reachable text6 (inert name pp dt ct st0 cka ska) st ->
        In x (sessions st) ->
        (pumpIn x = P_loop -> errIn x = newChan)
        /\ (pumpOut x = P_loop -> errOut x = newChan)
        /\ (pumpIn x = P_closeChan -> chClosed (errIn x) = false)
        /\ (pumpOut x = P_closeChan -> chClosed (errOut x) = false)
        /\ (pumpIn x = P_done ->
            chClosed (errIn x) = true /\ (1 <= closeCalls (dConn x))%nat)
        /\ (pumpOut x = P_done ->
            chClosed (errOut x) = true /\ (1 <= closeCalls (sConn x))%nat)).
Proof.
  cbv zeta. unfold copyConn_step, copyConn_iter.
  split; [|split; [|split; [|split; [|split]]]].
  - destruct (a_isClientToServer a); split; reflexivity.
  - intros [-> | [-> | ->]]; reflexivity.
  - intros e -> Ht. apply isTimeout_cases in Ht. destruct Ht as (tmp & w & ->).
    simpl. split; intros Hn.
    + subst n. reflexivity.
    + destruct (Z.ltb_spec n 1); [lia|reflexivity].
  - intros e -> Hne1 Hne2 Hnt Hch.
    destruct e as [| |t tmp w|msg]; try congruence; simpl.
    + destruct t.
      * exfalso. apply Hnt. exists tmp. reflexivity.
      * rewrite Hch. reflexivity.
    + rewrite Hch. reflexivity.
  - intros p2 s2 Hopen. unfold Chan_close. rewrite Hopen.
    eexists. eexists. split; [reflexivity|]. split; [reflexivity|].
    rewrite chan_set_conn, chan_set_chan, conn_set_conn, conn_set_chan.
    simpl. auto.
  - intros text6 name pp dt ct st0 cka ska st x Hr Hin.
    destruct (reachable_session _ _ _ _ _ _ _ _ _ _ Hr Hin)
      as [HcD HcS _ _ _ _ HeI HeO _ _].
    split; [|split; [|split; [|split; [|split]]]]; intros Hpc;
      rewrite Hpc in *; simpl in *; auto; split; auto; lia.
Qed.

Lemma copyConn_iteration_outcomes_witness :
  copyConn_step (argsOut sample_proxy) (P_ReadFrom 1000 5 (Some resetErr))
    P_loop sample_proxy (newSession (loopback 50000) (loopback 8080))
  = Some (P_closeChan, sample_proxy,
          set_errOut (mkChan [resetErr] false)
            (set_sConn (mkConn 0 None None [Forwarded 5])
               (newSession (loopback 50000) (loopback 8080))))
  /\ copyConn_step (argsIn sample_proxy) (P_ReadFrom 1000 5 (Some timeoutErr))
       P_loop sample_proxy (newSession (loopback 50000) (loopback 8080))
     = Some (P_loop, addBytesIn 5 sample_proxy,
             set_dConn (mkConn 0 None None [Forwarded 5])
               (set_sConn (mkConn 0 (Some 5000001000) None [])
                  (newSession (loopback 50000) (loopback 8080))))
  /\ chClosed (errIn (nth 0 (sessions state_eof)
                        (newSession (loopback 0) (loopback 0)))) = true.
Proof.
  split; [|split].
  - destruct (copyConn_iteration_outcomes (argsOut sample_proxy) 1000 5
                (Some resetErr) sample_proxy
                (newSession (loopback 50000) (loopback 8080)))
      as (_ & _ & _ & Hother & _).
    apply (Hother resetErr eq_refl).
    + discriminate.
    + discriminate.
    + intros [tmp H]. discriminate H.
    + reflexivity.
  - destruct (copyConn_iteration_outcomes (argsIn sample_proxy) 1000 5
                (Some timeoutErr) sample_proxy
                (newSession (loopback 50000) (loopback 8080)))
      as (_ & _ & Htimeout & _).
    destruct (Htimeout timeoutErr eq_refl (ex_intro _ false eq_refl))
      as [_ Hmore].
    apply Hmore. reflexivity.
  - destruct (copyConn_iteration_outcomes (argsIn sample_proxy) 0 0 None
                sample_proxy (newSession (loopback 0) (loopback 0)))
      as (_ & _ & _ & _ & _ & Hreach).
    destruct (Hreach sample_text6 EmptyString true 0 (5 * Second) 0 0 0
                state_eof
                (nth 0 (sessions state_eof) (newSession (loopback 0) (loopback 0))))
      as (_ & _ & _ & _ & Hdone & _).
    + apply (reachable_final scenario_eof). reflexivity.
    + left. reflexivity.
    + apply Hdone. reflexivity.
Defined.

(** ** Initialisation *)

(** C10.  [Close] on an instance as constructed, before any call of [Proxy]
    has run [init], calls the nil [cancel] and panics; [Close] panics exactly
    when [cancel] is nil, and [init] sets it. *)
Theorem Close_before_init_panics
    (text6 : IP -> string) (name : string) (pp : bool)
    (dt ct st0 cka ska : Duration) :
  let fresh := newState (inert name pp dt ct st0 cka ska) in
  Close fresh = ClosePanics
  /\ step text6 CallClose fresh = None
  /\ (forall st, Close st = ClosePanics <-> cancel (proxy st) = None)
  /\ cancel (proxy (init fresh)) = Some 0%nat
  /\ baseCtx (proxy (init fresh)) = Some 0%nat
  /\ Close (init fresh) = CloseReturns (set_ctxs [true] (init fresh))
  /\ (forall de ce le,
        Close (fst (Proxy_enter de ce le fresh)) <> ClosePanics).
Proof.
  cbv zeta. split; [reflexivity|]. split; [reflexivity|].
  split; [|split; [reflexivity|split; [reflexivity|split; [reflexivity|]]]].
  - intros st. unfold Close, Close_cancel.
    destruct (cancel (proxy st)); split; try congruence.
    destruct (Wait_returns _); discriminate.
  - intros de ce le. unfold Proxy_enter.
    destruct de; [|destruct ce; [|destruct le]]; simpl; discriminate.
Qed.

(** C6, evaluated on the code: two calls of [Proxy] on one instance share
    the context with its cancel function, the dialer, the listener
    configuration and the buffer pool made by the first call, but each call
    makes a timer and starts a statistics goroutine of its own. *)
Theorem Proxy_twice_starts_two_stats_tasks
    (name : string) (pp : bool) (dt ct st0 cka ska : Duration)
    (de1 ce1 le1 de2 ce2 le2 : option error) :
  let fresh := newState (inert name pp dt ct st0 cka ska) in
  let st1 := fst (Proxy_enter de1 ce1 le1 fresh) in
  let st2 := fst (Proxy_enter de2 ce2 le2 st1) in
  ctxs st1 = [false] /\ ctxs st2 = [false]
  /\ cancel (proxy st2) = cancel (proxy st1)
  /\ baseCtx (proxy st2) = baseCtx (proxy st1)
  /\ dialer (proxy st2) = dialer (proxy st1)
  /\ lnCfg (proxy st2) = lnCfg (proxy st1)
  /\ ppool (proxy st2) = ppool (proxy st1)
  /\ statsTasks st1 = [0%nat] /\ statsTasks st2 = [0%nat; 1%nat]
  /\ statsTimer (proxy st1) = Some 0%nat
  /\ statsTimer (proxy st2) = Some 1%nat.
Proof.
  cbv zeta. unfold Proxy_enter.
  destruct de1; [|destruct ce1; [|destruct le1]];
    (destruct de2; [|destruct ce2; [|destruct le2]]);
    simpl; repeat split; reflexivity.
Qed.

(** ** Traffic accounting *)

Lemma addBytesIn_exact (n : Z) (p : TCPProxy) :
  0 <= n -> 0 <= bytesIn p -> bytesIn p + n < 2 ^ 64 ->
  bytesIn (addBytesIn n p) = bytesIn p + n
  /\ bytesOut (addBytesIn n p) = bytesOut p.
Proof.
  intros Hn Hb Hlt. unfold addBytesIn, wrap_u64. simpl.
  rewrite (Z.mod_small n) by lia. rewrite Z.mod_small by lia. auto.
Qed.

Lemma addBytesOut_exact (n : Z) (p : TCPProxy) :
  0 <= n -> 0 <= bytesOut p -> bytesOut p + n < 2 ^ 64 ->
  bytesOut (addBytesOut n p) = bytesOut p + n
  /\ bytesIn (addBytesOut n p) = bytesIn p.
Proof.
  intros Hn Hb Hlt. unfold addBytesOut, wrap_u64. simpl.
  rewrite (Z.mod_small n) by lia. rewrite Z.mod_small by lia. auto.
Qed.

(** An iteration that ends with an error other than end of stream, closed
    connection or timeout leaves both counters as they were, whatever [n]. *)
Lemma failed_copy_is_not_counted (a : copyConnArgs) (now : Time) (n : Z)
    (e : error) (p p' : TCPProxy) (s s' : Session) (ctl : LoopCtl) :
  e <> io_EOF -> e <> net_ErrClosed -> ~ isTimeout e ->
  copyConn_iter a now n (Some e) p s = Some (p', s', ctl) ->
  p' = p
  /\ wire (conn (a_dst a) s')
     = wire (ReadFrom_moved n (conn (a_dst a) (a_setTimeout a now s))).
Proof.
  intros H1 H2 H3 H. unfold copyConn_iter in H.
  destruct e as [| |t tmp w|msg]; try congruence; simpl in H.
  - destruct t; [exfalso; apply H3; exists tmp; reflexivity|].
    destruct (Chan_send _ _) as [c|]; inversion H; subst.
    rewrite conn_set_chan, conn_set_conn. auto.
  - destruct (Chan_send _ _) as [c|]; inversion H; subst.
    rewrite conn_set_chan, conn_set_conn. auto.
Qed.

(** C7, evaluated on the code: the back-end resets the connection after 5
    bytes of its answer have gone out on the front socket.  The back-to-front
    pump sends the error and leaves; [bytesOut] stays 0 although 5 bytes
    crossed the pump. *)
Theorem bytesOut_misses_bytes_of_failed_copy :
  let s := nth 0 (sessions state_reset) (newSession (loopback 0) (loopback 0)) in
  reachable sample_text6 sample_proxy state_reset
  /\ pumpOut s = P_done
  /\ forwardedBytes (wire (sConn s)) = 5
  /\ bytesOut (proxy state_reset) = 0.
Proof.
  split; [apply (reachable_final scenario_reset)|]; repeat split; reflexivity.
Qed.

(** ** The exit paths of a session, one by one *)

Example exit_by_dial_failure :
  exit_summary (final scenario_dial_fails) = [(D_exit, 1, 1, 0, 0)%nat]
  /\ open (proxy (final scenario_dial_fails)) = 0
  /\ serveWg (proxy (final scenario_dial_fails)) = 0.
Proof. repeat split; reflexivity. Qed.

Example exit_by_header_failure :
  exit_summary (final scenario_header_fails) = [(D_exit, 1, 1, 0, 0)%nat]
  /\ open (proxy (final scenario_header_fails)) = 0
  /\ serveWg (proxy (final scenario_header_fails)) = 0.
Proof. repeat split; reflexivity. Qed.

Example exit_by_panic :
  exit_summary (final scenario_panic) = [(D_exit, 1, 1, 0, 0)%nat]
  /\ open (proxy (final scenario_panic)) = 0.
Proof. repeat split; reflexivity. Qed.

Example exit_by_pump_completion :
  exit_summary state_eof = [(D_exit, 1, 1, 1, 1)%nat]
  /\ open (proxy state_eof) = 0 /\ bytesIn (proxy state_eof) = 10.
Proof. repeat split; reflexivity. Qed.

Example exit_by_cancellation :
  exit_summary state_cancel = [(D_exit, 1, 1, 2, 2)%nat]
  /\ open (proxy state_cancel) = 0 /\ returned state_cancel = 1%nat.
Proof. repeat split; reflexivity. Qed.

(** ** Human-readable byte counts *)

Lemma formatBytes_loop_spec (bytes : Z) (fuel : nat) (n div exp : Z) :
  0 <= bytes < 2 ^ 64 -> 0 <= exp ->
  div = 1024 ^ (exp + 1) -> n = bytes / div -> 1 <= n ->
  (Z.to_nat n < 2 ^ (10 * fuel))%nat ->
  exists div' exp',
    formatBytes_loop fuel n div exp = Some (div', exp')
    /\ exp <= exp' /\ div' = 1024 ^ (exp' + 1)
    /\ div' <= bytes < 1024 * div'.
Proof.
  intros Hb. revert n div exp.
  induction fuel as [|fuel IH]; intros n div exp He Hd Hn H1 Hf.
  - simpl in Hf. assert (Hn1 : n = 1) by lia. cbn [formatBytes_loop].
    unfold byteUnit.
    destruct (Z.geb_spec n 1024) as [Hge|Hlt]; [lia|].
    exists div, exp. split; [reflexivity|]. split; [lia|]. split; [exact Hd|].
    assert (0 < div) by (rewrite Hd; apply Z.pow_pos_nonneg; lia).
    pose proof (Z.mod_pos_bound bytes div ltac:(lia)).
    pose proof (Z.div_mod bytes div ltac:(lia)). nia.
  - assert (Hpos : 0 < div) by (rewrite Hd; apply Z.pow_pos_nonneg; lia).
    pose proof (Z.mod_pos_bound bytes div ltac:(lia)) as Hm.
    pose proof (Z.div_mod bytes div ltac:(lia)) as Hdm.
    cbn [formatBytes_loop]. unfold byteUnit.
    destruct (Z.geb_spec n 1024) as [Hge|Hlt].
    + assert (Hdiv : 1024 * div <= bytes) by nia.
      assert (Hw : wrap_u64 (div * 1024) = 1024 ^ (exp + 1 + 1)).
      { unfold wrap_u64. rewrite Z.mod_small by lia.
        rewrite (Z.pow_add_r 1024 (exp + 1) 1) by lia. rewrite Hd. ring. }
      destruct (IH (n / 1024) (wrap_u64 (div * 1024)) (exp + 1))
        as (d' & e' & Hrun & Hle & Hd' & Hbr).
      * lia.
      * exact Hw.
      * rewrite Hw, Hn. rewrite (Z.pow_add_r 1024 (exp + 1) 1) by lia.
        rewrite <- Hd. rewrite Z.div_div by lia. reflexivity.
      * apply Z.div_le_lower_bound; lia.
      * assert (Hq : n / 1024 < 2 ^ (10 * Z.of_nat fuel)).
        { apply Z.div_lt_upper_bound; [lia|].
          replace (1024 * 2 ^ (10 * Z.of_nat fuel))
            with (2 ^ (10 * Z.of_nat (S fuel))).
          - apply Nat2Z.inj_lt in Hf. rewrite Z2Nat.id in Hf by lia.
            rewrite Nat2Z.inj_pow in Hf. rewrite Nat2Z.inj_mul in Hf.
            exact Hf.
          - rewrite Nat2Z.inj_succ.
            replace (10 * Z.succ (Z.of_nat fuel))
              with (10 + 10 * Z.of_nat fuel) by lia.
            rewrite Z.pow_add_r by lia. reflexivity. }
        apply Nat2Z.inj_lt. rewrite Z2Nat.id
          by (apply Z.div_pos; lia).
        rewrite Nat2Z.inj_pow, Nat2Z.inj_mul. exact Hq.
      * exists d', e'. split; [exact Hrun|]. split; [lia|]. tauto.
    + exists div, exp. split; [reflexivity|]. split; [lia|].
      split; [exact Hd|]. rewrite <- Hn in Hdm.
      assert (div * 1 <= div * n) by (apply Z.mul_le_mono_nonneg_l; lia).
      assert (div * n <= div * 1023) by (apply Z.mul_le_mono_nonneg_l; lia).
      lia.
Qed.

(** X1.  For every [uint64] count, [formatBytes] returns: below 1024 it
    prints the plain count; from 1024 on it picks the divisor [1024^(exp+1)]
    with [div <= bytes < 1024 * div], so that the printed quotient lies in
    [1, 1024), and [exp] is at most 5, so that the index into ["KMGTPE"] is
    never out of range.  Six rounds of the loop are always enough. *)
Theorem formatBytes_picks_the_unit (fuel : nat) (bytes : Z) :
  (6 <= fuel)%nat -> 0 <= bytes < 2 ^ 64 ->
  (bytes < 1024 -> formatBytes fuel bytes = Some (PlainBytes bytes))
  /\ (1024 <= bytes ->
      exists div exp c,
        formatBytes fuel bytes = Some (Scaled bytes div c)
        /\ 0 <= exp <= 5 /\ div = 1024 ^ (exp + 1)
        /\ div <= bytes < 1024 * div
        /\ unitLetter exp = Some c).
Proof.
  intros Hfuel Hb. unfold formatBytes, byteUnit. split.
  - intros Hlt. destruct (Z.ltb_spec bytes 1024); [reflexivity|lia].
  - intros Hge. destruct (Z.ltb_spec bytes 1024); [lia|].
    assert (H1 : 1 <= bytes / 1024)
      by (apply Z.div_le_lower_bound; lia).
    assert (Hf : (Z.to_nat (bytes / 1024) < 2 ^ (10 * fuel))%nat).
    { assert (Hq : bytes / 1024 < 2 ^ 54)
        by (apply Z.div_lt_upper_bound; lia).
      apply Nat2Z.inj_lt.
      rewrite Z2Nat.id by (apply Z.div_pos; lia).
      rewrite Nat2Z.inj_pow, Nat2Z.inj_mul.
      apply Z.lt_le_trans with (2 ^ 54); [exact Hq|].
      apply Z.pow_le_mono_r; lia. }
    destruct (formatBytes_loop_spec bytes fuel (bytes / 1024) 1024 0 Hb
                (Z.le_refl 0) eq_refl eq_refl H1 Hf)
      as (div & exp & Hrun & Hexp & Hdiv & Hbr).
    assert (Hexp5 : exp <= 5).
    { destruct (Z.le_gt_cases exp 5) as [|Hgt]; [assumption|].
      assert (1024 ^ 7 <= 1024 ^ (exp + 1))
        by (apply Z.pow_le_mono_r; lia).
      assert (1024 ^ 7 = 2 ^ 70) by reflexivity.
      assert (2 ^ 64 < 2 ^ 70) by reflexivity. lia. }
    assert (Hc : exists c, unitLetter exp = Some c).
    { assert (exp = 0 \/ exp = 1 \/ exp = 2 \/ exp = 3 \/ exp = 4 \/ exp = 5)
        as [-> | [-> | [-> | [-> | [-> | ->]]]]] by lia;
        eexists; reflexivity. }
    destruct Hc as [c Hc]. exists div, exp, c.
    rewrite Hrun, Hc. repeat split; auto; lia.
Qed.

Lemma formatBytes_picks_the_unit_witness :
  (exists div exp c,
      formatBytes 6 1536 = Some (Scaled 1536 div c)
      /\ 0 <= exp <= 5 /\ div = 1024 ^ (exp + 1)
      /\ div <= 1536 < 1024 * div
      /\ unitLetter exp = Some c)
  /\ formatBytes 6 1023 = Some (PlainBytes 1023).
Proof.
  destruct (formatBytes_picks_the_unit 6 1536 (le_n 6)) as [_ Hbig];
    [split; [discriminate | reflexivity]|].
  destruct (formatBytes_picks_the_unit 6 1023 (le_n 6)) as [Hsmall _];
    [split; [discriminate | reflexivity]|].
  split; [apply Hbig; discriminate | apply Hsmall; reflexivity].
Defined.

(** ** Invariants of sessions, in general *)

Section SessionInvariants.

Variable text6 : IP -> string.
Variable P : Session -> Prop.

Hypothesis P_new : forall peer local, P (newSession peer local).
Hypothesis P_serve :
  forall act done p s p' s' evs,
    P s -> serve_step text6 act done p s = Some (p', s', evs) -> P s'.
Hypothesis P_pumpIn :
  forall act p s pc' p' s',
    P s -> copyConn_step (argsIn p) act (pumpIn s) p s = Some (pc', p', s') ->
    P (set_pumpIn pc' s').
Hypothesis P_pumpOut :
  forall act p s pc' p' s',
    P s -> copyConn_step (argsOut p) act (pumpOut s) p s = Some (pc', p', s') ->
    P (set_pumpOut pc' s').

Lemma step_sessions_invariant (act : Action) (st st' : State) :
  Forall P (sessions st) -> step text6 act st = Some st' ->
  Forall P (sessions st').
Proof.
  intros Hall H.
  destruct act as [de ce le|j a|i a|i a|i a| | |k a]; simpl in H.
  8: { destruct (nth_error (statsPCs st) k) as [spc|]; [|discriminate].
    destruct (stats_step a spc st) as [[spc' stS]|] eqn:Ess; [|discriminate].
    inversion H; subst; clear H.
    destruct (stats_step_frame _ _ _ _ _ Ess)
      as (Fp & Fc & Fd & Fs & Fa & Fw & Fr & Ft & Fk).
    simpl. rewrite Fs. exact Hall. }
  - assert (Hs : sessions (init st) = sessions st)
      by (unfold init; destruct (doOnce (proxy st)); reflexivity).
    unfold Proxy_enter in H.
    destruct de; [|destruct ce; [|destruct le]];
      inversion H; subst; simpl; rewrite Hs; exact Hall.
  - destruct (nth_error (acceptors st) j) as [pc|]; [|discriminate].
    unfold acceptor_step in H.
    destruct pc; destruct a as [|r|]; try discriminate.
    + destruct (ctx_done st); inversion H; subst; exact Hall.
    + destruct (accept_iter (Name (proxy st)) r).
      inversion H; subst; exact Hall.
    + inversion H; subst; exact Hall.
    + inversion H; subst; simpl. apply Forall_app. split; [exact Hall|].
      constructor; [apply P_new | constructor].
  - destruct (nth_error (sessions st) i) as [s|] eqn:Ei; [|discriminate].
    destruct (serve_step text6 a (ctx_done st) (proxy st) s)
      as [[[p' s'] evs]|] eqn:Es; [|discriminate].
    inversion H; subst; simpl. apply Forall_upd; [exact Hall|].
    eapply P_serve; [|exact Es]. eapply Forall_nth_error; eassumption.
  - destruct (nth_error (sessions st) i) as [s|] eqn:Ei; [|discriminate].
    destruct (copyConn_step (argsIn (proxy st)) a (pumpIn s) (proxy st) s)
      as [[[pc' p'] s']|] eqn:Es; [|discriminate].
    inversion H; subst; simpl. apply Forall_upd; [exact Hall|].
    eapply P_pumpIn; [|exact Es]. eapply Forall_nth_error; eassumption.
  - destruct (nth_error (sessions st) i) as [s|] eqn:Ei; [|discriminate].
    destruct (copyConn_step (argsOut (proxy st)) a (pumpOut s) (proxy st) s)
      as [[[pc' p'] s']|] eqn:Es; [|discriminate].
    inversion H; subst; simpl. apply Forall_upd; [exact Hall|].
    eapply P_pumpOut; [|exact Es]. eapply Forall_nth_error; eassumption.
  - unfold Close_cancel in H. destruct (cancel (proxy st));
      inversion H; subst; exact Hall.
  - destruct (waiting st); [discriminate|].
    destruct (Wait_returns st); inversion H; subst; exact Hall.
Qed.

Lemma run_sessions_invariant (acts : list Action) (st st' : State) :
  Forall P (sessions st) -> run text6 acts st = Some st' ->
  Forall P (sessions st').
Proof.
  revert st. induction acts as [|a rest IH]; intros st Hall H; simpl in H.
  - inversion H; subst. exact Hall.
  - destruct (step text6 a st) as [st1|] eqn:E; [|discriminate].
    apply (IH st1); [eapply step_sessions_invariant; eassumption | exact H].
Qed.

Lemma reachable_sessions_invariant (p0 : TCPProxy) (st : State) (s : Session) :
  reachable text6 p0 st -> In s (sessions st) -> P s.
Proof.
  intros [acts H] Hin.
  assert (Hall : Forall P (sessions st))
    by (eapply run_sessions_invariant; [|exact H]; constructor).
  rewrite Forall_forall in Hall. auto.
Qed.

End SessionInvariants.

(** ** The pumps start together *)

Lemma map_Forwarded_moved (c : Conn) (n : Z) :
  (exists ns, wire c = map Forwarded ns) ->
  exists ns, wire (ReadFrom_moved n c) = map Forwarded ns.
Proof.
  intros [ns Hns]. unfold ReadFrom_moved. destruct (0 <? n); simpl.
  - exists (ns ++ [n]). rewrite Hns, map_app. reflexivity.
  - exists ns. exact Hns.
Qed.

Lemma PumpsInv_serve (text6 : IP -> string) (act : DrvAction) (done : bool)
    (p p' : TCPProxy) (s s' : Session) (evs : list Event) :
  PumpsInv s -> serve_step text6 act done p s = Some (p', s', evs) ->
  PumpsInv s'.
Proof.
  intros [Htog Hsel Hcan Hfw] H. unfold serve_step in H.
  destruct (drv s) eqn:Edrv.
  all: destruct act as [[err|addr]|werr|[| |]| |]; try discriminate.
  all: repeat match type of H with
       | context [if ?b then _ else _] => destruct b eqn:?
       | context [match ?x with _ => _ end] => destruct x eqn:?
       end; try discriminate.
  all: inversion H; subst; clear H.
  all: constructor; simpl; auto.
  all: try (split; discriminate).
  all: try (intros _; discriminate).
  all: try discriminate.
Qed.

Lemma PumpsInv_pumpIn (act : PumpAction) (p p' : TCPProxy) (s s' : Session)
    (pc' : PumpPC) :
  PumpsInv s ->
  copyConn_step (argsIn p) act (pumpIn s) p s = Some (pc', p', s') ->
  PumpsInv (set_pumpIn pc' s').
Proof.
  intros [Htog Hsel Hcan Hfw] H. unfold copyConn_step in H.
  destruct (pumpIn s) eqn:Epc; destruct act as [now n err|];
    try discriminate.
  - destruct (copyConn_iter (argsIn p) now n err p s)
      as [[[p1 s1] ctl]|] eqn:Eiter; [|discriminate].
    assert (Hpc : pc' <> P_idle) by (destruct ctl; inversion H; discriminate).
    assert (s1 = s') by (destruct ctl; inversion H; auto). subst s1. clear H.
    assert (Hw : wire (sConn s') = wire (sConn s)).
    { apply copyConn_iter_cases in Eiter. simpl in Eiter.
      destruct (clientTimeout_cases p now s) as [Hct|Hct];
        rewrite Hct in Eiter; simpl in Eiter;
        destruct Eiter as [[Hs _]|(e & _ & _ & _ & _ & Hs)]; subst s';
        reflexivity. }
    apply copyConn_iter_In_frame in Eiter.
    destruct Eiter as (F1 & F2 & F3 & F4 & F5 & F6 & _).
    constructor; simpl; rewrite ?F1, ?F3, ?F6, ?Hw; auto.
    split; [intros; contradiction|].
    intros Ho. apply Htog in Ho. discriminate.
  - simpl in H. destruct (Chan_close (errIn s)); inversion H; subst.
    constructor; simpl; auto; try discriminate.
    split; [discriminate|]. intros Ho. apply Htog in Ho. discriminate.
  - simpl in H. inversion H; subst.
    constructor; simpl; auto; try discriminate.
    split; [discriminate|]. intros Ho. apply Htog in Ho. discriminate.
Qed.

Lemma PumpsInv_pumpOut (act : PumpAction) (p p' : TCPProxy) (s s' : Session)
    (pc' : PumpPC) :
  PumpsInv s ->
  copyConn_step (argsOut p) act (pumpOut s) p s = Some (pc', p', s') ->
  PumpsInv (set_pumpOut pc' s').
Proof.
  intros [Htog Hsel Hcan Hfw] H. unfold copyConn_step in H.
  destruct (pumpOut s) eqn:Epc; destruct act as [now n err|];
    try discriminate.
  - destruct (copyConn_iter (argsOut p) now n err p s)
      as [[[p1 s1] ctl]|] eqn:Eiter; [|discriminate].
    assert (Hpc : pc' <> P_idle) by (destruct ctl; inversion H; discriminate).
    assert (s1 = s') by (destruct ctl; inversion H; auto). subst s1. clear H.
    assert (Hw : wire (sConn s') = wire (ReadFrom_moved n (sConn s))).
    { apply copyConn_iter_cases in Eiter. simpl in Eiter.
      destruct (serverTimeout_cases p now s) as [Hct|Hct];
        rewrite Hct in Eiter; simpl in Eiter;
        destruct Eiter as [[Hs _]|(e & _ & _ & _ & _ & Hs)]; subst s';
        simpl; unfold ReadFrom_moved; destruct (0 <? n); reflexivity. }
    apply copyConn_iter_Out_frame in Eiter.
    destruct Eiter as (F1 & F2 & F3 & F4 & F5 & F6 & _).
    assert (Hi : pumpIn s <> P_idle)
      by (intros Hi; apply Htog in Hi; congruence).
    constructor; simpl; rewrite ?F1, ?F2, ?F6, ?Hw; auto.
    + split; [intros; contradiction|]. intros; contradiction.
    + apply map_Forwarded_moved. exact Hfw.
  - simpl in H. destruct (Chan_close (errOut s)); inversion H; subst.
    assert (Hi : pumpIn s <> P_idle)
      by (intros Hi; apply Htog in Hi; congruence).
    constructor; simpl; auto.
    split; [intros; contradiction|discriminate].
  - simpl in H. inversion H; subst.
    assert (Hi : pumpIn s <> P_idle)
      by (intros Hi; apply Htog in Hi; congruence).
    constructor; simpl; auto.
    split; [intros; contradiction|discriminate].
Qed.

Lemma reachable_PumpsInv (text6 : IP -> string) (p0 : TCPProxy) (st : State)
    (s : Session) :
  reachable text6 p0 st -> In s (sessions st) -> PumpsInv s.
Proof.
  apply (reachable_sessions_invariant text6 PumpsInv).
  - intros peer local. constructor; simpl; try discriminate.
    + split; reflexivity.
    + exists []. reflexivity.
  - intros. eapply PumpsInv_serve; eassumption.
  - intros. eapply PumpsInv_pumpIn; eassumption.
  - intros. eapply PumpsInv_pumpOut; eassumption.
Qed.

(** X2.  A session that leaves [serve] before the pumps are started (the
    dial failed, the header write failed, or [serve] panicked before the
    [go] statements) never has [Close] called on either of its sockets: at
    every point, while the pumps are not started both sockets have no close
    call, and the pumps of a driver that has reached its deferred function
    are never started afterwards. *)
Theorem unstarted_session_never_closes_its_sockets
    (text6 : IP -> string) (name : string) (pp : bool)
    (dt ct st0 cka ska : Duration) (st : State) (s : Session) :
  reachable text6 (inert name pp dt ct st0 cka ska) st ->
  In s (sessions st) ->
  pumpIn s = P_idle ->
  pumpOut s = P_idle
  /\ closeCalls (sConn s) = 0%nat /\ closeCalls (dConn s) = 0%nat
  /\ forall a done p p' s' evs,
       (drv s = D_deferDec \/ drv s = D_deferDone \/ drv s = D_exit) ->
       serve_step text6 a done p s = Some (p', s', evs) ->
       pumpIn s' = P_idle /\ pumpOut s' = P_idle
       /\ sConn s' = sConn s /\ dConn s' = dConn s.
Proof.
  intros Hr Hin Hidle.
  destruct (reachable_PumpsInv _ _ _ _ Hr Hin) as [Htog _ Hcan _].
  destruct (reachable_session _ _ _ _ _ _ _ _ _ _ Hr Hin)
    as [HcD HcS _ _ _ _ _ _ _ _].
  assert (Hout : pumpOut s = P_idle) by (apply Htog; exact Hidle).
  assert (Hnc : tookCancel s = false).
  { destruct (tookCancel s); [|reflexivity].
    exfalso. apply Hcan; auto. }
  split; [exact Hout|].
  unfold closedByDriverD, closedByDriverS in *.
  rewrite Hidle, Hnc in HcD. rewrite Hout, Hnc in HcS.
  split; [exact HcS|]. split; [exact HcD|].
  intros a done p p' s' evs Hdrv H. unfold serve_step in H.
  destruct Hdrv as [Hd | [Hd | Hd]]; rewrite Hd in H;
    destruct a as [[err|addr]|werr|[| |]| |]; try discriminate;
    inversion H; subst; simpl; auto.
Qed.

Lemma unstarted_session_never_closes_its_sockets_witness :
  let s := nth 0 (sessions state_dial_fails)
               (newSession (loopback 0) (loopback 0)) in
  drv s = D_exit /\ pumpOut s = P_idle
  /\ closeCalls (sConn s) = 0%nat /\ closeCalls (dConn s) = 0%nat.
Proof.
  destruct (unstarted_session_never_closes_its_sockets sample_text6
              EmptyString true 0 (5 * Second) 0 0 0 state_dial_fails
              (nth 0 (sessions state_dial_fails)
                 (newSession (loopback 0) (loopback 0))))
    as (Ho & Hs & Hd & _).
  - apply (reachable_final scenario_dial_fails). reflexivity.
  - left. reflexivity.
  - reflexivity.
  - repeat split; assumption.
Defined.

(** X3.  The header never reaches the client, and without [ProxyProto] it
    reaches nobody: whatever has been written to the front socket of a
    session is forwarded data only, and with [ProxyProto] off so is whatever
    has been written to its back-end socket. *)
Theorem only_forwarded_data_without_header
    (text6 : IP -> string) (name : string) (pp : bool)
    (dt ct st0 cka ska : Duration) (st : State) (s : Session) :
  reachable text6 (inert name pp dt ct st0 cka ska) st ->
  In s (sessions st) ->
  (exists ns, wire (sConn s) = map Forwarded ns)
  /\ (pp = false -> exists ns, wire (dConn s) = map Forwarded ns).
Proof.
  intros Hr Hin. split.
  - destruct (reachable_PumpsInv _ _ _ _ Hr Hin) as [_ _ _ Hfw]. exact Hfw.
  - intros ->.
    destruct (reachable_session _ _ _ _ _ _ _ _ _ _ Hr Hin)
      as [_ _ _ _ _ _ _ _ Hwire _].
    unfold headerFirst, headerPrefix in Hwire. simpl in Hwire.
    assert (Hcases : wire (dConn s) = []
                     \/ exists ns, wire (dConn s) = map Forwarded ns)
      by (destruct (drv s); destruct (pumpIn s); tauto).
    destruct Hcases as [H0|H1]; [exists []; exact H0 | exact H1].
Qed.

Lemma only_forwarded_data_without_header_witness :
  exists ns,
    wire (sConn (nth 0 (sessions state_reset)
                   (newSession (loopback 0) (loopback 0))))
    = map Forwarded ns.
Proof.
  destruct (only_forwarded_data_without_header sample_text6 EmptyString true 0
              (5 * Second) 0 0 0 state_reset
              (nth 0 (sessions state_reset)
                 (newSession (loopback 0) (loopback 0)))) as [Hfront _].
  - apply (reachable_final scenario_reset). reflexivity.
  - left. reflexivity.
  - exact Hfront.
Defined.

(** ** The pumps are never stuck *)

Lemma copyConn_iter_In_enabled (p : TCPProxy) (now : Time) (n : Z)
    (err : option error) (s : Session) :
  errIn s = newChan -> copyConn_iter (argsIn p) now n err p s <> None.
Proof.
  intros Hch. unfold copyConn_iter. simpl.
  assert (He : errIn (clientTimeout p now s) = newChan)
    by (destruct (clientTimeout_cases p now s) as [-> | ->]; exact Hch).
  destruct err as [e|]; [|discriminate].
  destruct (eq_EOF e || eq_ErrClosed e); [discriminate|].
  destruct (as_net_Error e) as [[[|] tmp]|];
    try (destruct (n <? 1); discriminate);
    rewrite He; discriminate.
Qed.

Lemma copyConn_iter_Out_enabled (p : TCPProxy) (now : Time) (n : Z)
    (err : option error) (s : Session) :
  errOut s = newChan -> copyConn_iter (argsOut p) now n err p s <> None.
Proof.
  intros Hch. unfold copyConn_iter. simpl.
  assert (He : errOut (serverTimeout p now s) = newChan)
    by (destruct (serverTimeout_cases p now s) as [-> | ->]; exact Hch).
  destruct err as [e|]; [|discriminate].
  destruct (eq_EOF e || eq_ErrClosed e); [discriminate|].
  destruct (as_net_Error e) as [[[|] tmp]|];
    try (destruct (n <? 1); discriminate);
    rewrite He; discriminate.
Qed.

(** X4.  A started pump is never stuck and never panics: in every reachable
    state a pump in its loop goes on whatever [ReadFrom] returns (its one
    send finds the buffer of its channel empty), and a pump in its deferred
    function can run its next statement (its channel is not closed yet). *)
Theorem pumps_never_block_or_panic
    (text6 : IP -> string) (name : string) (pp : bool)
    (dt ct st0 cka ska : Duration) (st : State) (i : nat) (s : Session) :
  reachable text6 (inert name pp dt ct st0 cka ska) st ->
  nth_error (sessions st) i = Some s ->
  (pumpIn s = P_loop -> forall now n err,
     step text6 (PumpIn i (P_ReadFrom now n err)) st <> None)
  /\ (pumpIn s = P_closeChan \/ pumpIn s = P_closeDst ->
      step text6 (PumpIn i P_next) st <> None)
  /\ (pumpOut s = P_loop -> forall now n err,
        step text6 (PumpOut i (P_ReadFrom now n err)) st <> None)
  /\ (pumpOut s = P_closeChan \/ pumpOut s = P_closeDst ->
      step text6 (PumpOut i P_next) st <> None).
Proof.
  intros Hr Hi.
  destruct (reachable_session _ _ _ _ _ _ _ _ _ _ Hr (nth_error_In _ _ Hi))
    as [_ _ _ _ _ _ HeI HeO _ _].
  split; [|split; [|split]].
  - intros Hpc now n err. simpl. rewrite Hi, Hpc. rewrite Hpc in HeI.
    simpl in HeI.
    pose proof (copyConn_iter_In_enabled (proxy st) now n err s HeI) as Hen.
    simpl. destruct (copyConn_iter (argsIn (proxy st)) now n err (proxy st) s)
      as [[[p1 s1] [|]]|]; [discriminate | discriminate | contradiction].
  - intros [Hpc|Hpc]; simpl; rewrite Hi, Hpc; rewrite Hpc in HeI;
      simpl in *; [|discriminate].
    unfold Chan_close. rewrite HeI. discriminate.
  - intros Hpc now n err. simpl. rewrite Hi, Hpc. rewrite Hpc in HeO.
    simpl in HeO.
    pose proof (copyConn_iter_Out_enabled (proxy st) now n err s HeO) as Hen.
    simpl. destruct (copyConn_iter (argsOut (proxy st)) now n err (proxy st) s)
      as [[[p1 s1] [|]]|]; [discriminate | discriminate | contradiction].
  - intros [Hpc|Hpc]; simpl; rewrite Hi, Hpc; rewrite Hpc in HeO;
      simpl in *; [|discriminate].
    unfold Chan_close. rewrite HeO. discriminate.
Qed.

Lemma pumps_never_block_or_panic_witness :
  step sample_text6 (PumpIn 0 (P_ReadFrom 7 3 (Some resetErr))) state_open
  <> None.
Proof.
  destruct (pumps_never_block_or_panic sample_text6 EmptyString true 0
              (5 * Second) 0 0 0 state_open 0
              (nth 0 (sessions state_open)
                 (newSession (loopback 0) (loopback 0)))) as [Hloop _].
  - apply (reachable_final scenario_open). reflexivity.
  - reflexivity.
  - apply Hloop. reflexivity.
Defined.

(** ** The barrier *)

Lemma sumZ_ge_member {A : Type} (f : A -> Z) (l : list A) (x : A) :
  (forall y, 0 <= f y) -> In x l -> f x <= sumZ f l.
Proof.
  intros Hf. induction l as [|h t IH]; simpl; intros Hin; [contradiction|].
  pose proof (sumZ_nonneg f t Hf). pose proof (Hf h).
  destruct Hin as [-> | Hin]; [lia | specialize (IH Hin); lia].
Qed.

(** X5.  The counter of [serveWg] never goes negative, and it is at least
    one as long as some driver has not called [Done]: [serveWg.Done()] never
    panics. *)
Theorem barrier_never_negative
    (text6 : IP -> string) (name : string) (pp : bool)
    (dt ct st0 cka ska : Duration) (st : State) :
  reachable text6 (inert name pp dt ct st0 cka ska) st ->
  0 <= serveWg (proxy st)
  /\ (forall s, In s (sessions st) -> drv s <> D_exit ->
                1 <= serveWg (proxy st)).
Proof.
  intros Hr. destruct (reachable_inv _ _ _ _ _ _ _ _ _ Hr) as [_ _ Hwg _ _ _].
  pose proof (sumZ_nonneg running (sessions st) running_nonneg).
  pose proof (sumZ_nonneg tracking (acceptors st) tracking_nonneg).
  split; [lia|]. intros s Hin Hne.
  pose proof (sumZ_ge_member running _ _ running_nonneg Hin) as Hge.
  assert (running s = 1) by (unfold running; destruct (drv s); congruence).
  lia.
Qed.

Lemma barrier_never_negative_witness :
  0 <= serveWg (proxy state_reset) /\ 1 <= serveWg (proxy state_reset).
Proof.
  destruct (barrier_never_negative sample_text6 EmptyString true 0
              (5 * Second) 0 0 0 state_reset) as [H0 H1].
  - apply (reachable_final scenario_reset). reflexivity.
  - split; [exact H0|].
    apply (H1 (nth 0 (sessions state_reset)
                 (newSession (loopback 0) (loopback 0)))).
    + left. reflexivity.
    + discriminate.
Defined.

(** ** Traffic counters, step by step *)

Lemma init_bytes (st : State) :
  bytesIn (proxy (init st)) = bytesIn (proxy st)
  /\ bytesOut (proxy (init st)) = bytesOut (proxy st).
Proof. unfold init. destruct (doOnce (proxy st)); split; reflexivity. Qed.

Lemma copyConn_step_bytes (a : copyConnArgs) (act : PumpAction)
    (pc pc' : PumpPC) (p p' : TCPProxy) (s s' : Session) :
  copyConn_step a act pc p s = Some (pc', p', s') ->
  p' = p
  \/ exists now n err,
       act = P_ReadFrom now n err
       /\ p' = (if a_isClientToServer a then addBytesIn n p
                else addBytesOut n p).
Proof.
  intros H. unfold copyConn_step in H.
  destruct pc; destruct act as [now n err|]; try discriminate.
  - destruct (copyConn_iter a now n err p s) as [[[p1 s1] ctl]|] eqn:E;
      [|discriminate].
    assert (p1 = p') by (destruct ctl; inversion H; auto). subst p1.
    apply copyConn_iter_cases in E.
    destruct E as [[_ [Hp|Hp]]|(e & _ & _ & Hp & _)]; auto.
    right. exists now, n, err. auto.
  - destruct (Chan_close _); inversion H; auto.
  - inversion H; auto.
Qed.

Lemma step_bytes (text6 : IP -> string) (act : Action) (st st' : State) :
  step text6 act st = Some st' ->
  (bytesIn (proxy st') = bytesIn (proxy st)
   \/ exists i now n err,
        act = PumpIn i (P_ReadFrom now n err)
        /\ bytesIn (proxy st')
           = wrap_u64 (bytesIn (proxy st) + wrap_u64 n))
  /\ (bytesOut (proxy st') = bytesOut (proxy st)
      \/ exists i now n err,
           act = PumpOut i (P_ReadFrom now n err)
           /\ bytesOut (proxy st')
              = wrap_u64 (bytesOut (proxy st) + wrap_u64 n)).
Proof.
  intros H.
  destruct act as [de ce le|j a|i a|i a|i a| | |k a]; simpl in H.
  8: { destruct (nth_error (statsPCs st) k) as [spc|]; [|discriminate].
    destruct (stats_step a spc st) as [[spc' stS]|] eqn:Ess; [|discriminate].
    inversion H; subst; clear H.
    destruct (stats_step_frame _ _ _ _ _ Ess)
      as (Fp & Fc & Fd & Fs & Fa & Fw & Fr & Ft & Fk).
    simpl. rewrite Fp. auto. }
  - destruct (init_bytes st) as [Hi Ho]. unfold Proxy_enter in H.
    destruct de; [|destruct ce; [|destruct le]];
      inversion H; subst; simpl; rewrite Hi, Ho; auto.
  - destruct (nth_error (acceptors st) j) as [pc|]; [|discriminate].
    unfold acceptor_step in H.
    destruct pc; destruct a as [|r|]; try discriminate.
    + destruct (ctx_done st); inversion H; subst; simpl; auto.
    + destruct (accept_iter (Name (proxy st)) r).
      inversion H; subst; simpl; auto.
    + inversion H; subst; simpl; auto.
    + inversion H; subst; simpl; auto.
  - destruct (nth_error (sessions st) i) as [s|]; [|discriminate].
    destruct (serve_step text6 a (ctx_done st) (proxy st) s)
      as [[[p' s'] evs]|] eqn:Es; [|discriminate].
    inversion H; subst; simpl.
    destruct (serve_step_proxy _ _ _ _ _ _ _ _ Es) as (_ & Hi & Ho & _).
    rewrite Hi, Ho. auto.
  - destruct (nth_error (sessions st) i) as [s|]; [|discriminate].
    destruct (copyConn_step (argsIn (proxy st)) a (pumpIn s) (proxy st) s)
      as [[[pc' p'] s']|] eqn:Es; [|discriminate].
    inversion H; subst; simpl.
    destruct (copyConn_step_bytes _ _ _ _ _ _ _ _ Es)
      as [-> | (now & n & err & -> & ->)]; [auto|].
    simpl. split; [right; exists i, now, n, err; auto | auto].
  - destruct (nth_error (sessions st) i) as [s|]; [|discriminate].
    destruct (copyConn_step (argsOut (proxy st)) a (pumpOut s) (proxy st) s)
      as [[[pc' p'] s']|] eqn:Es; [|discriminate].
    inversion H; subst; simpl.
    destruct (copyConn_step_bytes _ _ _ _ _ _ _ _ Es)
      as [-> | (now & n & err & -> & ->)]; [auto|].
    simpl. split; [auto | right; exists i, now, n, err; auto].
  - unfold Close_cancel in H. destruct (cancel (proxy st));
      inversion H; subst; simpl; auto.
  - destruct (waiting st); [discriminate|].
    destruct (Wait_returns st); inversion H; subst; simpl; auto.
Qed.

(** X6.  The traffic counters are tagged by direction: the only step that
    changes [bytesIn] is an iteration of a front-to-back pump, which adds
    the count [n] that [ReadFrom] returned (modulo 2^64), and the only step
    that changes [bytesOut] is an iteration of a back-to-front pump,
    likewise; no pump touches the counter of the other direction. *)
Theorem counters_move_only_with_their_pump
    (text6 : IP -> string) (act : Action) (st st' : State) :
  step text6 act st = Some st' ->
  (bytesIn (proxy st') <> bytesIn (proxy st) ->
   exists i now n err,
     act = PumpIn i (P_ReadFrom now n err)
     /\ bytesIn (proxy st') = wrap_u64 (bytesIn (proxy st) + wrap_u64 n)
     /\ bytesOut (proxy st') = bytesOut (proxy st))
  /\ (bytesOut (proxy st') <> bytesOut (proxy st) ->
      exists i now n err,
        act = PumpOut i (P_ReadFrom now n err)
        /\ bytesOut (proxy st') = wrap_u64 (bytesOut (proxy st) + wrap_u64 n)
        /\ bytesIn (proxy st') = bytesIn (proxy st)).
Proof.
  intros H. destruct (step_bytes _ _ _ _ H) as [Hin Hout]. split.
  - intros Hne. destruct Hin as [Heq|(i & now & n & err & Hact & Hv)];
      [contradiction|].
    exists i, now, n, err. split; [exact Hact|]. split; [exact Hv|].
    destruct Hout as [Ho|(i2 & now2 & n2 & err2 & Hact2 & _)];
      [exact Ho | congruence].
  - intros Hne. destruct Hout as [Heq|(i & now & n & err & Hact & Hv)];
      [contradiction|].
    exists i, now, n, err. split; [exact Hact|]. split; [exact Hv|].
    destruct Hin as [Hi|(i2 & now2 & n2 & err2 & Hact2 & _)];
      [exact Hi | congruence].
Qed.

Lemma counters_move_only_with_their_pump_witness :
  exists i now n err,
    PumpIn 0 (P_ReadFrom 7 3 None) = PumpIn i (P_ReadFrom now n err)
    /\ 3 = wrap_u64 (bytesIn (proxy state_open) + wrap_u64 n)
    /\ 0 = bytesOut (proxy state_open).
Proof.
  destruct (counters_move_only_with_their_pump sample_text6
              (PumpIn 0 (P_ReadFrom 7 3 None)) state_open
              (final (scenario_open ++ [PumpIn 0 (P_ReadFrom 7 3 None)])))
    as [Hin _].
  - reflexivity.
  - apply Hin. discriminate.
Defined.

Lemma wrap_u64_bounds (x : Z) : 0 <= wrap_u64 x < 2 ^ 64.
Proof. unfold wrap_u64. apply Z.mod_pos_bound. reflexivity. Qed.

Lemma run_bytes_range (text6 : IP -> string) (acts : list Action)
    (st st' : State) :
  run text6 acts st = Some st' ->
  0 <= bytesIn (proxy st) < 2 ^ 64 /\ 0 <= bytesOut (proxy st) < 2 ^ 64 ->
  0 <= bytesIn (proxy st') < 2 ^ 64 /\ 0 <= bytesOut (proxy st') < 2 ^ 64.
Proof.
  revert st. induction acts as [|a rest IH]; intros st H Hrange; simpl in H.
  - inversion H; subst. exact Hrange.
  - destruct (step text6 a st) as [st1|] eqn:E; [|discriminate].
    apply (IH st1 H). destruct (step_bytes _ _ _ _ E) as [Hin Hout].
    split.
    + destruct Hin as [-> | (i & now & n & err & _ & ->)];
        [tauto | apply wrap_u64_bounds].
    + destruct Hout as [-> | (i & now & n & err & _ & ->)];
        [tauto | apply wrap_u64_bounds].
Qed.

(** X7.  Both traffic counters stay within [uint64], and a step never
    decreases [bytesIn] nor [bytesOut] as long as the count [n] returned by
    [ReadFrom] is not negative and adding it does not wrap the counter. *)
Theorem counters_non_decreasing_until_wrap
    (text6 : IP -> string) (name : string) (pp : bool)
    (dt ct st0 cka ska : Duration) (st st' : State) (act : Action) :
  reachable text6 (inert name pp dt ct st0 cka ska) st ->
  step text6 act st = Some st' ->
  (0 <= bytesIn (proxy st) < 2 ^ 64 /\ 0 <= bytesOut (proxy st) < 2 ^ 64)
  /\ ((forall i now n err, act = PumpIn i (P_ReadFrom now n err) ->
         0 <= n /\ bytesIn (proxy st) + n < 2 ^ 64) ->
      bytesIn (proxy st) <= bytesIn (proxy st'))
  /\ ((forall i now n err, act = PumpOut i (P_ReadFrom now n err) ->
         0 <= n /\ bytesOut (proxy st) + n < 2 ^ 64) ->
      bytesOut (proxy st) <= bytesOut (proxy st')).
Proof.
  intros [acts Hrun] Hstep.
  assert (Hrange : 0 <= bytesIn (proxy st) < 2 ^ 64
                   /\ 0 <= bytesOut (proxy st) < 2 ^ 64).
  { apply (run_bytes_range _ _ _ _ Hrun). simpl. split; split; try lia;
      reflexivity. }
  split; [exact Hrange|].
  destruct (step_bytes _ _ _ _ Hstep) as [Hin Hout]. split.
  - intros Hfit. destruct Hin as [-> | (i & now & n & err & Hact & ->)];
      [lia|].
    destruct (Hfit _ _ _ _ Hact) as [Hn Hlt]. unfold wrap_u64.
    rewrite (Z.mod_small n) by lia. rewrite Z.mod_small by lia. lia.
  - intros Hfit. destruct Hout as [-> | (i & now & n & err & Hact & ->)];
      [lia|].
    destruct (Hfit _ _ _ _ Hact) as [Hn Hlt]. unfold wrap_u64.
    rewrite (Z.mod_small n) by lia. rewrite Z.mod_small by lia. lia.
Qed.

Lemma counters_non_decreasing_until_wrap_witness :
  bytesIn (proxy state_open)
  <= bytesIn (proxy (final (scenario_open ++ [PumpIn 0 (P_ReadFrom 7 3 None)]))).
Proof.
  destruct (counters_non_decreasing_until_wrap sample_text6 EmptyString true 0
              (5 * Second) 0 0 0 state_open
              (final (scenario_open ++ [PumpIn 0 (P_ReadFrom 7 3 None)]))
              (PumpIn 0 (P_ReadFrom 7 3 None))) as (_ & Hin & _).
  - apply (reachable_final scenario_open). reflexivity.
  - reflexivity.
  - apply Hin. intros i now n err Hact. inversion Hact; subst.
    split; [discriminate | reflexivity].
Defined.

(** ** What is set up once *)

Lemma serve_step_setup (text6 : IP -> string) (act : DrvAction) (done : bool)
    (p p' : TCPProxy) (s s' : Session) (evs : list Event) :
  serve_step text6 act done p s = Some (p', s', evs) -> setup p' = setup p.
Proof.
  intros H. unfold serve_step in H.
  destruct (drv s) eqn:Edrv.
  all: destruct act as [[err|addr]|werr|[| |]| |]; try discriminate.
  all: repeat match type of H with
       | context [if ?b then _ else _] => destruct b eqn:?
       | context [match ?x with _ => _ end] => destruct x eqn:?
       end; try discriminate.
  all: inversion H; subst; reflexivity.
Qed.

Lemma copyConn_step_setup (a : copyConnArgs) (act : PumpAction)
    (pc pc' : PumpPC) (p p' : TCPProxy) (s s' : Session) :
  copyConn_step a act pc p s = Some (pc', p', s') -> setup p' = setup p.
Proof.
  intros H. destruct (copyConn_step_bytes _ _ _ _ _ _ _ _ H)
    as [-> | (now & n & err & _ & ->)]; [reflexivity|].
  destruct (a_isClientToServer a); reflexivity.
Qed.

Lemma step_setup (text6 : IP -> string) (act : Action) (st st' : State) :
  step text6 act st = Some st' -> doOnce (proxy st) = true ->
  setup (proxy st') = setup (proxy st)
  /\ (ctxs st' = ctxs st
      \/ exists c, act = CallClose /\ ctxs st' = upd c true (ctxs st)).
Proof.
  intros H Hd.
  destruct act as [de ce le|j a|i a|i a|i a| | |k a]; simpl in H.
  8: { destruct (nth_error (statsPCs st) k) as [spc|]; [|discriminate].
    destruct (stats_step a spc st) as [[spc' stS]|] eqn:Ess; [|discriminate].
    inversion H; subst; clear H.
    destruct (stats_step_frame _ _ _ _ _ Ess)
      as (Fp & Fc & Fd & Fs & Fa & Fw & Fr & Ft & Fk).
    simpl. rewrite Fp, Fc. auto. }
  - assert (Hi : init st = st) by (unfold init; rewrite Hd; reflexivity).
    unfold Proxy_enter in H. rewrite Hi in H.
    destruct de; [|destruct ce; [|destruct le]];
      inversion H; subst; simpl; auto.
  - destruct (nth_error (acceptors st) j) as [pc|]; [|discriminate].
    unfold acceptor_step in H.
    destruct pc; destruct a as [|r|]; try discriminate.
    + destruct (ctx_done st); inversion H; subst; simpl; auto.
    + destruct (accept_iter (Name (proxy st)) r).
      inversion H; subst; simpl; auto.
    + inversion H; subst; simpl; auto.
    + inversion H; subst; simpl; auto.
  - destruct (nth_error (sessions st) i) as [s|]; [|discriminate].
    destruct (serve_step text6 a (ctx_done st) (proxy st) s)
      as [[[p' s'] evs]|] eqn:Es; [|discriminate].
    inversion H; subst; simpl. split; [|auto].
    eapply serve_step_setup; eassumption.
  - destruct (nth_error (sessions st) i) as [s|]; [|discriminate].
    destruct (copyConn_step (argsIn (proxy st)) a (pumpIn s) (proxy st) s)
      as [[[pc' p'] s']|] eqn:Es; [|discriminate].
    inversion H; subst; simpl. split; [|auto].
    eapply copyConn_step_setup; eassumption.
  - destruct (nth_error (sessions st) i) as [s|]; [|discriminate].
    destruct (copyConn_step (argsOut (proxy st)) a (pumpOut s) (proxy st) s)
      as [[[pc' p'] s']|] eqn:Es; [|discriminate].
    inversion H; subst; simpl. split; [|auto].
    eapply copyConn_step_setup; eassumption.
  - unfold Close_cancel in H. destruct (cancel (proxy st)) as [c|];
      inversion H; subst; simpl. split; [reflexivity|].
    right. exists c. auto.
  - destruct (waiting st); [discriminate|].
    destruct (Wait_returns st); inversion H; subst; simpl; auto.
Qed.

Lemma nth_upd_true (l : list bool) (c c' : nat) :
  nth c l false = true -> nth c (upd c' true l) false = true.
Proof.
  revert c c'. induction l as [|h t IH]; intros [|c] [|c'] H; simpl in *;
    auto.
Qed.

Lemma run_snoc (text6 : IP -> string) (acts : list Action) (act : Action)
    (st st1 st2 : State) :
  run text6 acts st = Some st1 -> step text6 act st1 = Some st2 ->
  run text6 (acts ++ [act]) st = Some st2.
Proof.
  revert st. induction acts as [|a rest IH]; intros st Hrun Hstep;
    simpl in *.
  - inversion Hrun; subst. rewrite Hstep. reflexivity.
  - destruct (step text6 a st); [apply IH; assumption | discriminate].
Qed.

Lemma reachable_step (text6 : IP -> string) (p0 : TCPProxy) (act : Action)
    (st st' : State) :
  reachable text6 p0 st -> step text6 act st = Some st' ->
  reachable text6 p0 st'.
Proof.
  intros [acts Hrun] Hstep. exists (acts ++ [act]).
  eapply run_snoc; eassumption.
Qed.

Lemma init_knobs (st : State) :
  ProxyProto (proxy (init st)) = ProxyProto (proxy st)
  /\ DialTimeout (proxy (init st)) = DialTimeout (proxy st)
  /\ ClientTimeout (proxy (init st)) = ClientTimeout (proxy st)
  /\ ServerTimeout (proxy (init st)) = ServerTimeout (proxy st).
Proof. unfold init. destruct (doOnce (proxy st)); auto. Qed.

Lemma step_knobs (text6 : IP -> string) (act : Action) (st st' : State) :
  step text6 act st = Some st' ->
  ProxyProto (proxy st') = ProxyProto (proxy st)
  /\ DialTimeout (proxy st') = DialTimeout (proxy st)
  /\ ClientTimeout (proxy st') = ClientTimeout (proxy st)
  /\ ServerTimeout (proxy st') = ServerTimeout (proxy st).
Proof.
  intros H.
  destruct act as [de ce le|j a|i a|i a|i a| | |k a]; simpl in H.
  8: { destruct (nth_error (statsPCs st) k) as [spc|]; [|discriminate].
    destruct (stats_step a spc st) as [[spc' stS]|] eqn:Ess; [|discriminate].
    inversion H; subst; clear H.
    destruct (stats_step_frame _ _ _ _ _ Ess)
      as (Fp & Fc & Fd & Fs & Fa & Fw & Fr & Ft & Fk).
    simpl. rewrite Fp. auto. }
  - pose proof (init_knobs st) as Hk. unfold Proxy_enter in H.
    destruct de; [|destruct ce; [|destruct le]];
      inversion H; subst; simpl; exact Hk.
  - destruct (nth_error (acceptors st) j) as [pc|]; [|discriminate].
    unfold acceptor_step in H.
    destruct pc; destruct a as [|r|]; try discriminate.
    + destruct (ctx_done st); inversion H; subst; simpl; auto.
    + destruct (accept_iter (Name (proxy st)) r).
      inversion H; subst; simpl; auto.
    + inversion H; subst; simpl; auto.
    + inversion H; subst; simpl; auto.
  - destruct (nth_error (sessions st) i) as [s|]; [|discriminate].
    destruct (serve_step text6 a (ctx_done st) (proxy st) s)
      as [[[p' s'] evs]|] eqn:Es; [|discriminate].
    inversion H; subst; simpl.
    pose proof (serve_step_setup _ _ _ _ _ _ _ _ Es) as Hs.
    unfold setup in Hs. inversion Hs. auto.
  - destruct (nth_error (sessions st) i) as [s|]; [|discriminate].
    destruct (copyConn_step (argsIn (proxy st)) a (pumpIn s) (proxy st) s)
      as [[[pc' p'] s']|] eqn:Es; [|discriminate].
    inversion H; subst; simpl.
    pose proof (copyConn_step_setup _ _ _ _ _ _ _ _ Es) as Hs.
    unfold setup in Hs. inversion Hs. auto.
  - destruct (nth_error (sessions st) i) as [s|]; [|discriminate].
    destruct (copyConn_step (argsOut (proxy st)) a (pumpOut s) (proxy st) s)
      as [[[pc' p'] s']|] eqn:Es; [|discriminate].
    inversion H; subst; simpl.
    pose proof (copyConn_step_setup _ _ _ _ _ _ _ _ Es) as Hs.
    unfold setup in Hs. inversion Hs. auto.
  - unfold Close_cancel in H. destruct (cancel (proxy st));
      inversion H; subst; simpl; auto.
  - destruct (waiting st); [discriminate|].
    destruct (Wait_returns st); inversion H; subst; simpl; auto.
Qed.

Lemma run_knobs (text6 : IP -> string) (acts : list Action) (st st' : State) :
  run text6 acts st = Some st' ->
  ProxyProto (proxy st') = ProxyProto (proxy st)
  /\ DialTimeout (proxy st') = DialTimeout (proxy st)
  /\ ClientTimeout (proxy st') = ClientTimeout (proxy st)
  /\ ServerTimeout (proxy st') = ServerTimeout (proxy st).
Proof.
  revert st. induction acts as [|a rest IH]; intros st H; simpl in H.
  - inversion H; subst. auto.
  - destruct (step text6 a st) as [st1|] eqn:E; [|discriminate].
    destruct (IH st1 H) as (A1 & A2 & A3 & A4).
    destruct (step_knobs _ _ _ _ E) as (B1 & B2 & B3 & B4).
    repeat split; congruence.
Qed.

(** ** The statistics goroutines *)

Lemma serve_step_statsTimer (text6 : IP -> string) (act : DrvAction)
    (done : bool) (p p' : TCPProxy) (s s' : Session) (evs : list Event) :
  serve_step text6 act done p s = Some (p', s', evs) ->
  statsTimer p' = statsTimer p /\ doOnce p' = doOnce p.
Proof.
  intros H. unfold serve_step in H.
  destruct (drv s) eqn:Edrv.
  all: destruct act as [[err|addr]|werr|[| |]| |]; try discriminate.
  all: repeat match type of H with
       | context [if ?b then _ else _] => destruct b eqn:?
       | context [match ?x with _ => _ end] => destruct x eqn:?
       end; try discriminate.
  all: inversion H; subst; split; reflexivity.
Qed.

Lemma copyConn_step_statsTimer (a : copyConnArgs) (act : PumpAction)
    (pc pc' : PumpPC) (p p' : TCPProxy) (s s' : Session) :
  copyConn_step a act pc p s = Some (pc', p', s') ->
  statsTimer p' = statsTimer p /\ doOnce p' = doOnce p.
Proof.
  intros H. destruct (copyConn_step_bytes _ _ _ _ _ _ _ _ H)
    as [-> | (now & n & err & _ & ->)]; [split; reflexivity|].
  destruct (a_isClientToServer a); split; reflexivity.
Qed.

(** The tasks of the sessions, the accept loops and [Close] leave the
    statistics goroutines and their timers alone. *)
Lemma step_stats_frame (text6 : IP -> string) (act : Action)
    (st st' : State) :
  step text6 act st = Some st' ->
  (forall de ce le, act <> CallProxy de ce le) ->
  (forall k a, act <> Stats k a) ->
  statsPCs st' = statsPCs st /\ statsTasks st' = statsTasks st
  /\ timers st' = timers st
  /\ statsTimer (proxy st') = statsTimer (proxy st)
  /\ doOnce (proxy st') = doOnce (proxy st).
Proof.
  intros H Hp Hk.
  destruct act as [de ce le|j a|i a|i a|i a| | |k a]; simpl in H.
  - exfalso. apply (Hp de ce le). reflexivity.
  - destruct (nth_error (acceptors st) j) as [pc|]; [|discriminate].
    unfold acceptor_step in H.
    destruct pc; destruct a as [|r|]; try discriminate.
    + destruct (ctx_done st); inversion H; subst; simpl; auto.
    + destruct (accept_iter (Name (proxy st)) r).
      inversion H; subst; simpl; auto.
    + inversion H; subst; simpl; auto.
    + inversion H; subst; simpl; auto.
  - destruct (nth_error (sessions st) i) as [s|]; [|discriminate].
    destruct (serve_step text6 a (ctx_done st) (proxy st) s)
      as [[[p' s'] evs]|] eqn:Es; [|discriminate].
    inversion H; subst; simpl.
    destruct (serve_step_statsTimer _ _ _ _ _ _ _ _ Es). auto.
  - destruct (nth_error (sessions st) i) as [s|]; [|discriminate].
    destruct (copyConn_step (argsIn (proxy st)) a (pumpIn s) (proxy st) s)
      as [[[pc' p'] s']|] eqn:Es; [|discriminate].
    inversion H; subst; simpl.
    destruct (copyConn_step_statsTimer _ _ _ _ _ _ _ _ Es). auto.
  - destruct (nth_error (sessions st) i) as [s|]; [|discriminate].
    destruct (copyConn_step (argsOut (proxy st)) a (pumpOut s) (proxy st) s)
      as [[[pc' p'] s']|] eqn:Es; [|discriminate].
    inversion H; subst; simpl.
    destruct (copyConn_step_statsTimer _ _ _ _ _ _ _ _ Es). auto.
  - unfold Close_cancel in H. destruct (cancel (proxy st));
      inversion H; subst; simpl; auto.
  - destruct (waiting st); [discriminate|].
    destruct (Wait_returns st); inversion H; subst; simpl; auto.
  - exfalso. apply (Hk k a). reflexivity.
Qed.

(** A step never uncancels the context. *)
Lemma step_ctx_done (text6 : IP -> string) (p0 : TCPProxy) (act : Action)
    (st st' : State) :
  StateInv text6 p0 st -> step text6 act st = Some st' ->
  ctx_done st = true -> ctx_done st' = true.
Proof.
  intros [_ _ _ _ Honce _] E Hdone.
  destruct (doOnce (proxy st)) eqn:Hd.
  - destruct (step_setup _ _ _ _ E Hd) as [Hs Hc].
    assert (Hb : baseCtx (proxy st') = baseCtx (proxy st))
      by (unfold setup in Hs; congruence).
    unfold ctx_done in *. rewrite Hb.
    destruct (baseCtx (proxy st)) as [c|]; [|discriminate].
    destruct Hc as [-> | (c' & _ & ->)];
      [exact Hdone | apply nth_upd_true; exact Hdone].
  - destruct Honce as (_ & Hb & _). unfold ctx_done in Hdone.
    rewrite Hb in Hdone. discriminate.
Qed.

Lemma stats_step_timers (a : StatsAction) (pc pc' : StatsPC)
    (st st' : State) :
  stats_step a pc st = Some (pc', st') ->
  List.length (timers st') = List.length (timers st)
  /\ (pc' = S_stop -> ctx_done st = true)
  /\ (pc' = S_returned -> pc = S_stop).
Proof.
  intros H. unfold stats_step in H.
  destruct pc; destruct a; try discriminate H;
    repeat match type of H with
           | context [match ?x with Some _ => _ | None => _ end] =>
               destruct x eqn:?
           | context [if ?b then _ else _] => destruct b eqn:?
           end;
    try discriminate H; inversion H; subst; clear H; simpl;
    rewrite ?upd_length; repeat split; intros; try reflexivity;
    try discriminate; congruence.
Qed.

Lemma Proxy_enter_stats (de ce le : option error) (st : State) :
  let st' := fst (Proxy_enter de ce le st) in
  statsPCs st' = statsPCs st ++ [S_top]
  /\ statsTasks st' = statsTasks st ++ [List.length (timers st)]
  /\ timers st' = timers st ++ [true]
  /\ statsTimer (proxy st') = Some (List.length (timers st))
  /\ doOnce (proxy st') = true.
Proof.
  cbv zeta. unfold Proxy_enter, init.
  destruct de; [|destruct ce; [|destruct le]];
    destruct (doOnce (proxy st)) eqn:Hd; simpl; rewrite ?Hd; auto.
Qed.

Lemma Proxy_enter_ctx_done (text6 : IP -> string) (p0 : TCPProxy)
    (de ce le : option error) (st : State) :
  StateInv text6 p0 st ->
  ctx_done (fst (Proxy_enter de ce le st)) = ctx_done st.
Proof.
  intros [_ _ _ _ Honce _]. unfold Proxy_enter, init.
  destruct (doOnce (proxy st)) eqn:Hd.
  - destruct de; [|destruct ce; [|destruct le]]; reflexivity.
  - destruct Honce as (_ & Hb & Hx & _).
    destruct de; [|destruct ce; [|destruct le]];
      unfold ctx_done; simpl; rewrite Hb, Hx; reflexivity.
Qed.

Lemma step_StatsInv (text6 : IP -> string) (p0 : TCPProxy) (act : Action)
    (st st' : State) :
  StateInv text6 p0 st -> StatsInv st -> step text6 act st = Some st' ->
  StatsInv st'.
Proof.
  intros Hinv [Hlen Hun Htm Hal] H.
  assert (Hmono : ctx_done st' = false -> ctx_done st = false).
  { intros Hf. destruct (ctx_done st) eqn:E; [|reflexivity].
    rewrite (step_ctx_done _ _ _ _ _ Hinv H E) in Hf. discriminate. }
  destruct act as [de ce le|j a|i a|i a|i a| | |k a].
  1: { (* a call of Proxy *)
    destruct (Proxy_enter_stats de ce le st) as (E1 & E2 & E3 & E4 & E5).
    assert (Hst : statsPCs st' = statsPCs st ++ [S_top]
                  /\ statsTasks st' = statsTasks st ++ [List.length (timers st)]
                  /\ timers st' = timers st ++ [true]
                  /\ statsTimer (proxy st') = Some (List.length (timers st))
                  /\ doOnce (proxy st') = true).
    { simpl in H. destruct (Proxy_enter de ce le st) as [stE [e|]];
        inversion H; subst; simpl in *; auto. }
    destruct Hst as (F1 & F2 & F3 & F4 & F5).
    constructor.
    - rewrite F1, F2, !length_app, Hlen. reflexivity.
    - rewrite F5. discriminate.
    - intros _. exists (List.length (timers st)). split; [exact F4|].
      rewrite F3, length_app. simpl. lia.
    - intros Hf. rewrite F1. apply Forall_app. split.
      + apply Hal. apply Hmono. exact Hf.
      + constructor; [split; discriminate | constructor]. }
  7: { (* a step of a statistics goroutine *)
    simpl in H.
    destruct (nth_error (statsPCs st) k) as [spc|] eqn:Ek; [|discriminate].
    destruct (stats_step a spc st) as [[spc' stS]|] eqn:Ess; [|discriminate].
    inversion H; subst; clear H.
    destruct (stats_step_frame _ _ _ _ _ Ess)
      as (Fp & Fc & Fd & Fs & Fa & Fw & Fr & Ft & Fk).
    destruct (stats_step_timers _ _ _ _ _ Ess) as (Tl & Ts & Tr).
    assert (Hne : statsPCs st <> [])
      by (intros E0; rewrite E0 in Ek; destruct k; discriminate).
    constructor; simpl.
    - rewrite upd_length, Fk, Ft. exact Hlen.
    - rewrite Fp. intros Hd. exfalso. apply Hne. apply Hun. exact Hd.
    - intros _. rewrite Fp, Tl. apply Htm. exact Hne.
    - intros Hf. simpl in Hmono. rewrite Fk.
      assert (Hf0 : ctx_done st = false).
      { unfold ctx_done in Hf |- *. simpl in Hf. rewrite Fp, Fc in Hf.
        exact Hf. }
      specialize (Hal Hf0). apply Forall_upd; [exact Hal|].
      split.
      + intros E. rewrite (Ts E) in Hf0. discriminate.
      + intros E. specialize (Tr E). subst spc.
        pose proof (Forall_nth_error _ _ _ _ Hal Ek) as [Hx _].
        apply Hx. reflexivity. }
  all: destruct (step_stats_frame _ _ _ _ H) as (G1 & G2 & G3 & G4 & G5);
    try (intros; discriminate).
  all: constructor; rewrite ?G1, ?G2, ?G3, ?G4, ?G5; auto.
Qed.

Lemma run_StatsInv (text6 : IP -> string) (p0 : TCPProxy)
    (acts : list Action) (st st' : State) :
  StateInv text6 p0 st -> StatsInv st -> run text6 acts st = Some st' ->
  StatsInv st'.
Proof.
  revert st. induction acts as [|a rest IH]; intros st Hinv Hst H;
    simpl in H.
  - inversion H; subst. exact Hst.
  - destruct (step text6 a st) as [st1|] eqn:E; [|discriminate].
    apply (IH st1); [eapply step_inv; eassumption | | exact H].
    eapply step_StatsInv; eassumption.
Qed.

Lemma reachable_StatsInv (text6 : IP -> string) (name : string) (pp : bool)
    (dt ct st0 cka ska : Duration) (st : State) :
  reachable text6 (inert name pp dt ct st0 cka ska) st -> StatsInv st.
Proof.
  intros [acts H]. eapply run_StatsInv; [apply newState_inv | | exact H].
  constructor; simpl; auto. intros E. congruence.
Qed.





(** X8.  [init] runs its body once.  After it, no step of any task changes
    the name, the knobs, the listener configuration, the dialer, the pool,
    the base context or its cancel function, however often [Proxy] is called
    again; the knobs are those of the instance as constructed; there is
    never more than one context; and before [init] nothing runs but the
    first call of [Proxy]. *)
Theorem setup_is_written_once
    (text6 : IP -> string) (name : string) (pp : bool)
    (dt ct st0 cka ska : Duration) (st st' : State) (act : Action) :
  reachable text6 (inert name pp dt ct st0 cka ska) st ->
  step text6 act st = Some st' ->
  (List.length (ctxs st') <= 1)%nat
  /\ ProxyProto (proxy st') = pp /\ DialTimeout (proxy st') = dt
  /\ ClientTimeout (proxy st') = ct /\ ServerTimeout (proxy st') = st0
  /\ (doOnce (proxy st) = true -> setup (proxy st') = setup (proxy st))
  /\ (doOnce (proxy st) = false ->
      exists de ce le, act = CallProxy de ce le).
Proof.
  intros Hr Hstep.
  pose proof (reachable_step _ _ _ _ _ Hr Hstep) as Hr'.
  destruct (reachable_inv _ _ _ _ _ _ _ _ _ Hr') as [_ _ _ _ Honce' _].
  destruct (reachable_inv _ _ _ _ _ _ _ _ _ Hr) as [_ _ _ _ Honce _].
  split.
  { destruct (doOnce (proxy st')).
    - destruct Honce' as (_ & _ & Hl). lia.
    - destruct Honce' as (_ & _ & Hn & _). rewrite Hn. simpl. lia. }
  destruct Hr' as [acts Hrun].
  destruct (run_knobs _ _ _ _ Hrun) as (K1 & K2 & K3 & K4). simpl in *.
  repeat (split; [assumption|]).
  split.
  - intros Hd. apply (step_setup _ _ _ _ Hstep Hd).
  - intros Hd. rewrite Hd in Honce.
    destruct Honce as (Hc & _ & _ & Ha & Hs & Hw & _).
    destruct (reachable_StatsInv _ _ _ _ _ _ _ _ _ Hr) as [_ Hun _ _].
    specialize (Hun Hd).
    destruct act as [de ce le|j a|i a|i a|i a| | |k a]; simpl in Hstep.
    + eauto.
    + rewrite Ha in Hstep. destruct j; discriminate.
    + rewrite Hs in Hstep. destruct i; discriminate.
    + rewrite Hs in Hstep. destruct i; discriminate.
    + rewrite Hs in Hstep. destruct i; discriminate.
    + unfold Close_cancel in Hstep. rewrite Hc in Hstep. discriminate.
    + rewrite Hw in Hstep. discriminate.
    + rewrite Hun in Hstep. destruct k; discriminate.
Qed.

Lemma setup_is_written_once_witness :
  setup (proxy (final [CallProxy None None None; CallProxy None None None]))
  = setup (proxy (final [CallProxy None None None])).
Proof.
  destruct (setup_is_written_once sample_text6 EmptyString true 0
              (5 * Second) 0 0 0 (final [CallProxy None None None])
              (final [CallProxy None None None; CallProxy None None None])
              (CallProxy None None None)) as (_ & _ & _ & _ & _ & Hset & _).
  - apply (reachable_final [CallProxy None None None]). reflexivity.
  - reflexivity.
  - apply Hset. reflexivity.
Defined.

(** X9.  Cancellation is final: once the base context is cancelled it stays
    cancelled through every later step of every task. *)
Theorem cancellation_is_final
    (text6 : IP -> string) (name : string) (pp : bool)
    (dt ct st0 cka ska : Duration) (acts : list Action) (st st' : State) :
  reachable text6 (inert name pp dt ct st0 cka ska) st ->
  ctx_done st = true ->
  run text6 acts st = Some st' ->
  ctx_done st' = true.
Proof.
  intros Hr Hdone. revert st Hr Hdone.
  induction acts as [|a rest IH]; intros st Hr Hdone H; simpl in H.
  - inversion H; subst. exact Hdone.
  - destruct (step text6 a st) as [st1|] eqn:E; [|discriminate].
    apply (IH st1); [eapply reachable_step; eassumption | | exact H].
    destruct (reachable_inv _ _ _ _ _ _ _ _ _ Hr) as [_ _ _ _ Honce _].
    destruct (doOnce (proxy st)) eqn:Hd.
    + destruct (step_setup _ _ _ _ E Hd) as [Hs Hc].
      assert (Hb : baseCtx (proxy st1) = baseCtx (proxy st))
        by (unfold setup in Hs; congruence).
      unfold ctx_done in *. rewrite Hb.
      destruct (baseCtx (proxy st)) as [c|]; [|discriminate].
      destruct Hc as [-> | (c' & _ & ->)];
        [exact Hdone | apply nth_upd_true; exact Hdone].
    + destruct Honce as (_ & Hb & _). unfold ctx_done in Hdone.
      rewrite Hb in Hdone. discriminate.
Qed.

Lemma cancellation_is_final_witness :
  ctx_done state_cancel = true.
Proof.
  apply (cancellation_is_final sample_text6 EmptyString true 0 (5 * Second)
           0 0 0 scenario_drain state_closing).
  - apply (reachable_final scenario_closing). reflexivity.
  - reflexivity.
  - vm_compute. reflexivity.
Defined.

(** ** Shutdown always gets through *)

Lemma step_Drv (text6 : IP -> string) (st : State) (i : nat) (a : DrvAction)
    (s s' : Session) (p' : TCPProxy) (evs : list Event) :
  nth_error (sessions st) i = Some s ->
  serve_step text6 a (ctx_done st) (proxy st) s = Some (p', s', evs) ->
  exists st1,
    step text6 (Drv i a) st = Some st1
    /\ nth_error (sessions st1) i = Some s'
    /\ proxy st1 = p' /\ logs st1 = logs st ++ evs
    /\ ctxs st1 = ctxs st.
Proof.
  intros Hi Hs. eexists. split.
  - simpl. rewrite Hi, Hs. reflexivity.
  - simpl. split; [eapply nth_error_upd_same; exact Hi|]. auto.
Qed.

(** X10.  Once the base context is cancelled, a driver waiting in its
    select needs nobody to get out: it can take the Done branch, call
    [Close] on the back-end socket and then on the front socket, decrement
    [proxy.open], release the barrier and exit, in five steps of its own,
    whatever its pumps are doing. *)
Theorem cancelled_driver_exits_on_its_own
    (text6 : IP -> string) (st : State) (i : nat) (s : Session) :
  ctx_done st = true ->
  nth_error (sessions st) i = Some s ->
  drv s = D_select ->
  exists st' s',
    run text6 [Drv i (D_selected CaseDone); Drv i D_next; Drv i D_next;
               Drv i D_next; Drv i D_next] st = Some st'
    /\ nth_error (sessions st') i = Some s'
    /\ drv s' = D_exit /\ tookCancel s' = true
    /\ dConn s' = Conn_Close (dConn s) /\ sConn s' = Conn_Close (sConn s)
    /\ pumpIn s' = pumpIn s /\ pumpOut s' = pumpOut s
    /\ open (proxy st') = atomic_AddInt64 (open (proxy st)) (-1)
    /\ serveWg (proxy st') = serveWg (proxy st) - 1
    /\ logs st' = logs st.
Proof.
  intros Hdone Hi Hsel.
  assert (S1 : serve_step text6 (D_selected CaseDone) (ctx_done st) (proxy st) s
               = Some (proxy st, set_drv D_closeD (set_tookCancel s), []))
    by (unfold serve_step; rewrite Hsel, Hdone; reflexivity).
  destruct (step_Drv text6 st i _ _ _ _ _ Hi S1)
    as (st1 & E1 & I1 & P1 & L1 & _).
  destruct (step_Drv text6 st1 i D_next _
              (set_drv D_closeS
                 (set_dConn (Conn_Close (dConn s))
                    (set_drv D_closeD (set_tookCancel s))))
              (proxy st1) [] I1 eq_refl)
    as (st2 & E2 & I2 & P2 & L2 & _).
  destruct (step_Drv text6 st2 i D_next _ _ (proxy st2) [] I2 eq_refl)
    as (st3 & E3 & I3 & P3 & L3 & _).
  destruct (step_Drv text6 st3 i D_next _ _ _ [] I3 eq_refl)
    as (st4 & E4 & I4 & P4 & L4 & _).
  destruct (step_Drv text6 st4 i D_next _ _ _ [] I4 eq_refl)
    as (st5 & E5 & I5 & P5 & L5 & _).
  exists st5. eexists. split.
  - cbn [run]. rewrite E1, E2, E3, E4, E5. reflexivity.
  - split; [exact I5|].
    rewrite P5, P4, P3, P2, P1, L5, L4, L3, L2, L1, !app_nil_r.
    repeat split; reflexivity.
Qed.

Lemma cancelled_driver_exits_on_its_own_witness :
  exists st' s',
    run sample_text6 [Drv 0 (D_selected CaseDone); Drv 0 D_next; Drv 0 D_next;
                      Drv 0 D_next; Drv 0 D_next] state_closing = Some st'
    /\ nth_error (sessions st') 0 = Some s'
    /\ drv s' = D_exit /\ serveWg (proxy st') = 0.
Proof.
  destruct (cancelled_driver_exits_on_its_own sample_text6 state_closing 0
              (nth 0 (sessions state_closing)
                 (newSession (loopback 0) (loopback 0)))
              eq_refl eq_refl eq_refl)
    as (st' & s' & Hrun & Hs & Hexit & _ & _ & _ & _ & _ & _ & Hwg & _).
  exists st', s'. repeat split; assumption.
Defined.

(** ** The accept loop and cancellation *)

Lemma step_Acc (text6 : IP -> string) (st st1 : State) (j : nat)
    (a : AccAction) (pc pc' : AcceptorPC) :
  nth_error (acceptors st) j = Some pc ->
  acceptor_step a pc st = Some (pc', st1) ->
  acceptors st1 = acceptors st ->
  exists st2,
    step text6 (Acc j a) st = Some st2
    /\ nth_error (acceptors st2) j = Some pc'
    /\ proxy st2 = proxy st1 /\ sessions st2 = sessions st1
    /\ ctxs st2 = ctxs st1 /\ logs st2 = logs st1.
Proof.
  intros Hj Ha Hacc. eexists. split.
  - simpl. rewrite Hj, Ha. reflexivity.
  - simpl. rewrite Hacc. split; [eapply nth_error_upd_same; exact Hj|]. auto.
Qed.

(** X11.  Cancellation is noticed only at the top of the accept loop.  A
    call of [Proxy] that is at the top when the context is cancelled returns
    [ErrProxyClosed] without accepting; one that is already in [Accept] is
    not interrupted: the next connection is accepted, counted in the barrier
    and in [proxy.open] and handed to a new driver, and only then does the
    call return [ErrProxyClosed]. *)
Theorem cancellation_is_seen_at_loop_top
    (text6 : IP -> string) (st : State) (j : nat) (peer local : TCPAddr) :
  ctx_done st = true ->
  (nth_error (acceptors st) j = Some L_top ->
   step text6 (Acc j L_check) st
   = Some (set_acceptors
             (upd j (L_returned (Some ErrProxyClosed)) (acceptors st)) st))
  /\ (nth_error (acceptors st) j = Some L_accept ->
      exists st',
        run text6 [Acc j (L_accepted (Accepted peer local)); Acc j L_next;
                   Acc j L_next; Acc j L_check] st = Some st'
        /\ sessions st' = sessions st ++ [newSession peer local]
        /\ nth_error (acceptors st') j
           = Some (L_returned (Some ErrProxyClosed))
        /\ serveWg (proxy st') = serveWg (proxy st) + 1
        /\ open (proxy st') = atomic_AddInt64 (open (proxy st)) 1).
Proof.
  intros Hdone. split.
  - intros Hj. simpl. rewrite Hj. simpl. rewrite Hdone. reflexivity.
  - intros Hj.
    destruct (step_Acc text6 st _ j (L_accepted (Accepted peer local))
                L_accept (L_wgAdd peer local) Hj eq_refl eq_refl)
      as (st1 & E1 & J1 & P1 & S1 & C1 & _).
    destruct (step_Acc text6 st1 _ j L_next _ _ J1 eq_refl eq_refl)
      as (st2 & E2 & J2 & P2 & S2 & C2 & _).
    destruct (step_Acc text6 st2 _ j L_next _ _ J2 eq_refl eq_refl)
      as (st3 & E3 & J3 & P3 & S3 & C3 & _).
    simpl in P1, S1, C1, P2, S2, C2, P3, S3, C3.
    assert (Hd3 : ctx_done st3 = true).
    { unfold ctx_done in *. rewrite P3, C3. simpl.
      rewrite P2, C2. simpl. rewrite P1, C1. exact Hdone. }
    assert (A3 : acceptor_step L_check L_top st3
                 = Some (L_returned (Some ErrProxyClosed), st3))
      by (simpl; rewrite Hd3; reflexivity).
    destruct (step_Acc text6 st3 _ j L_check _ _ J3 A3 eq_refl)
      as (st4 & E4 & J4 & P4 & S4 & _).
    exists st4. split.
    + cbn [run]. rewrite E1, E2, E3, E4. reflexivity.
    + simpl in P4, S4. rewrite S4, S3, S2, S1, P4, P3. simpl.
      rewrite P2. simpl. rewrite P1.
      repeat split; auto.
Qed.

Lemma cancellation_is_seen_at_loop_top_witness :
  step sample_text6 (Acc 0 L_check) state_cancel
  = Some (set_acceptors [L_returned (Some ErrProxyClosed)] state_cancel).
Proof.
  destruct (cancellation_is_seen_at_loop_top sample_text6 state_cancel 0
              (loopback 1) (loopback 2) eq_refl) as [Htop _].
  exact (Htop eq_refl).
Defined.

(** X12.  Temporary accept errors never end the accept loop: after any
    number of them in a row the call of [Proxy] is still in [Accept], each
    failure has been logged and followed by a sleep of one second, and
    nothing else of the instance has changed. *)
Theorem temporary_accept_errors_keep_the_loop
    (text6 : IP -> string) (st : State) (j : nat) (err : error) (k : nat) :
  nth_error (acceptors st) j = Some L_accept ->
  isTemporary err ->
  run text6 (repeat (Acc j (L_accepted (AcceptFailed err))) k) st
  = Some (add_logs
            (List.concat (repeat [ErrorKVs (Name (proxy st)) err "temp. accept error";
                             Sleep Second] k))
            st).
Proof.
  intros Hj [t Ht]. revert st Hj.
  induction k as [|k IH]; intros st Hj.
  - simpl. unfold add_logs. rewrite app_nil_r. destruct st; reflexivity.
  - cbn [repeat run]. unfold step. rewrite Hj. unfold acceptor_step, accept_iter.
    rewrite Ht. cbn [acceptors add_logs]. rewrite (upd_same _ _ _ Hj).
    replace (set_acceptors (acceptors st)
               (add_logs [ErrorKVs (Name (proxy st)) err "temp. accept error";
                          Sleep Second] st))
      with (add_logs [ErrorKVs (Name (proxy st)) err "temp. accept error";
                      Sleep Second] st) by (destruct st; reflexivity).
    rewrite IH by exact Hj. unfold add_logs. simpl.
    rewrite <- app_assoc. reflexivity.
Qed.

Lemma temporary_accept_errors_keep_the_loop_witness :
  run sample_text6
    (repeat (Acc 0 (L_accepted (AcceptFailed
                                  (net_OpError false true
                                     (errors_New "too many open files"))))) 3)
    (final [CallProxy None None None; Acc 0 L_check])
  = Some (add_logs
            (List.concat (repeat [ErrorKVs "proxy"
                               (net_OpError false true
                                  (errors_New "too many open files"))
                               "temp. accept error";
                             Sleep Second] 3))
            (final [CallProxy None None None; Acc 0 L_check])).
Proof.
  apply (temporary_accept_errors_keep_the_loop sample_text6
           (final [CallProxy None None None; Acc 0 L_check]) 0
           (net_OpError false true (errors_New "too many open files")) 3).
  - reflexivity.
  - exists false. reflexivity.
Defined.

(** ** The size of the header *)

Lemma all_from_spec (f : Z -> bool) (count : nat) (x y : Z) :
  all_from f count x = true -> x <= y < x + Z.of_nat count -> f y = true.
Proof.
  revert x. induction count as [|c IH]; intros x H Hy; simpl in H.
  - lia.
  - apply andb_true_iff in H. destruct H as [Hx Hrest].
    destruct (Z.eq_dec x y) as [->|Hne]; [exact Hx|].
    apply (IH (x + 1) Hrest). lia.
Qed.

Lemma Itoa_length_byte (b : Z) :
  isByte b -> (String.length (Itoa b) <= 3)%nat.
Proof.
  intros Hb. apply Nat.leb_le.
  apply (all_from_spec (fun x => (String.length (Itoa x) <=? 3)%nat) 256 0).
  - vm_compute. reflexivity.
  - unfold isByte in Hb. lia.
Qed.

Lemma Itoa_length_port (x : Z) :
  isPort x -> (String.length (Itoa x) <= 5)%nat.
Proof.
  intros Hx. apply Nat.leb_le.
  apply (all_from_spec (fun x => (String.length (Itoa x) <=? 5)%nat)
           (Z.to_nat 65536) 0).
  - vm_compute. reflexivity.
  - unfold isPort in Hx. lia.
Qed.

Lemma string_length_app (a b : string) :
  String.length (a ++ b) = (String.length a + String.length b)%nat.
Proof.
  induction a as [|c a IH]; simpl; [reflexivity | now rewrite IH].
Qed.

Lemma nth_isByte (l : IP) (i : nat) : Forall isByte l -> isByte (nth i l 0).
Proof.
  intros H. revert i. induction H as [|b t Hb Ht IH]; intros [|i]; simpl;
    auto; unfold isByte; lia.
Qed.

Lemma Forall_skipn {A : Type} (P : A -> Prop) (n : nat) (l : list A) :
  Forall P l -> Forall P (skipn n l).
Proof.
  intros H. revert n. induction H as [|h t Hh Ht IH]; intros [|n]; simpl;
    auto.
Qed.

Lemma IP_String_length (text6 : IP -> string) (ip : IP) :
  (forall x, (String.length (text6 x) <= 39)%nat) ->
  Forall isByte ip ->
  (String.length (IP_String text6 ip) <= 39)%nat
  /\ (isIPv4 ip = true -> (String.length (IP_String text6 ip) <= 15)%nat).
Proof.
  intros Ht Hb. unfold IP_String.
  assert (Hd : forall p4, Forall isByte p4 ->
                          (String.length (dotted p4) <= 15)%nat).
  { intros p4 H4. unfold dotted. rewrite !string_length_app. simpl.
    pose proof (Itoa_length_byte _ (nth_isByte p4 0 H4)).
    pose proof (Itoa_length_byte _ (nth_isByte p4 1 H4)).
    pose proof (Itoa_length_byte _ (nth_isByte p4 2 H4)).
    pose proof (Itoa_length_byte _ (nth_isByte p4 3 H4)). lia. }
  unfold To4, isIPv4.
  destruct (List.length ip =? IPv4len)%nat.
  - specialize (Hd ip Hb). split; [lia | intros _; exact Hd].
  - cbn [orb].
    destruct ((List.length ip =? IPv6len)%nat && isZeros (firstn 10 ip)
              && (nth 10 ip 0 =? 255) && (nth 11 ip 0 =? 255)).
    + specialize (Hd _ (Forall_skipn _ 12 _ Hb)).
      split; [lia | intros _; exact Hd].
    + split; [apply Ht | discriminate].
Qed.

(** X14.  The header fits the buffer of the pool: for endpoints whose
    address bytes and ports are in range, and a rendering of non-IPv4
    addresses of at most 39 characters (the longest colon-hex form), the
    header is at most 104 bytes long, within the 107 of the buffers made by
    [ppool.New]; between two IPv4 endpoints it is at most 56 bytes long. *)
Theorem header_fits_the_pool_buffer
    (text6 : IP -> string) (sAddr dAddr : TCPAddr) :
  (forall x, (String.length (text6 x) <= 39)%nat) ->
  Forall isByte (addrIP sAddr) -> Forall isByte (addrIP dAddr) ->
  isPort (addrPort sAddr) -> isPort (addrPort dAddr) ->
  (String.length (proxyHeader text6 sAddr dAddr) <= 104)%nat
  /\ (isIPv4 (addrIP sAddr) = true -> isIPv4 (addrIP dAddr) = true ->
      (String.length (proxyHeader text6 sAddr dAddr) <= 56)%nat).
Proof.
  intros Ht Hs Hd Hps Hpd.
  destruct (IP_String_length text6 _ Ht Hs) as [Ls Ls4].
  destruct (IP_String_length text6 _ Ht Hd) as [Ld Ld4].
  pose proof (Itoa_length_port _ Hps). pose proof (Itoa_length_port _ Hpd).
  rewrite proxyHeader_shape. rewrite !string_length_app.
  assert (Hp : String.length
                 (if isIPv4 (addrIP sAddr) then "TCP4" else "TCP6")%string
               = 4%nat) by (destruct (isIPv4 (addrIP sAddr)); reflexivity).
  rewrite Hp. change (String.length CRLF) with 2%nat. simpl String.length.
  split; [lia|]. intros H4s H4d. specialize (Ls4 H4s). specialize (Ld4 H4d).
  lia.
Qed.

Lemma header_fits_the_pool_buffer_witness :
  (String.length (proxyHeader sample_text6 (loopback 50000) (loopback 9090))
   <= 104)%nat.
Proof.
  apply (header_fits_the_pool_buffer sample_text6 (loopback 50000)
           (loopback 9090)).
  - intros x. simpl. lia.
  - repeat constructor; discriminate.
  - repeat constructor; discriminate.
  - split; discriminate.
  - split; discriminate.
Defined.

(** ** The transparent-socket hook *)

(** X15.  [SetSocketIPTransparent] returns nil exactly when [c.Control]
    returned nil and, if it ran the function at all, both system calls
    succeeded and the option read back as 1.  An error of [c.Control] is
    returned in place of the function's own. *)
Theorem transparent_nil_only_when_confirmed (a : SockAnswers) :
  (snd (SetSocketIPTransparent a) = None <->
     controlErr a = None /\
     (controlRuns a = true ->
      setErr a = None /\ getErr a = None /\ getVal a = 1))
  /\ (forall err, controlErr a = Some err ->
        snd (SetSocketIPTransparent a) = Some err).
Proof.
  unfold SetSocketIPTransparent, transparentControl.
  destruct a as [runs cerr serr val gerr]; simpl.
  split.
  - destruct runs, cerr as [ce|], serr as [se|], gerr as [ge|]; simpl;
      try destruct (Z.eqb_spec val 1); simpl;
      (split;
       [ intros H;
         first [ discriminate H
               | split;
                 [ reflexivity
                 | intros Hr;
                   first [ discriminate Hr
                         | repeat split; first [assumption | reflexivity] ] ] ]
       | intros [Hc Hr];
         first [ discriminate Hc
               | reflexivity
               | destruct (Hr eq_refl) as (Hs & Hg & Hv);
                 first [ discriminate Hs | discriminate Hg | contradiction ] ]
       ]).
  - intros err ->.
    destruct runs, serr, gerr; simpl;
      try destruct (Z.eqb_spec val 1); reflexivity.
Qed.

Lemma transparent_nil_only_when_confirmed_witness :
  snd (SetSocketIPTransparent
         (mkSockAnswers false (Some net_ErrClosed) None 0 None))
  = Some net_ErrClosed.
Proof.
  apply (transparent_nil_only_when_confirmed
           (mkSockAnswers false (Some net_ErrClosed) None 0 None)).
  reflexivity.
Defined.

(** X16.  The option is read back only after it was set without error:
    whenever the call trace contains a [GetsockoptInt], the function ran, the
    [SetsockoptInt] before it succeeded, and the trace is exactly the set of
    IP_TRANSPARENT to 1 followed by the read of the same option. *)
Theorem transparent_reads_back_only_after_set (a : SockAnswers) (l o : Z) :
  In (GetsockoptInt l o) (fst (SetSocketIPTransparent a)) ->
  controlRuns a = true /\ setErr a = None
  /\ fst (SetSocketIPTransparent a)
     = [SetsockoptInt SOL_IP IP_TRANSPARENT 1;
        GetsockoptInt SOL_IP IP_TRANSPARENT].
Proof.
  unfold SetSocketIPTransparent, transparentControl.
  destruct a as [runs cerr serr val gerr]; simpl.
  destruct runs, cerr, serr, gerr; simpl;
    try destruct (Z.eqb_spec val 1); simpl; intros H;
    repeat (destruct H as [H|H]; try discriminate H); try contradiction;
    repeat split.
Qed.

Lemma transparent_reads_back_only_after_set_witness :
  controlRuns (mkSockAnswers true None None 0 None) = true
  /\ setErr (mkSockAnswers true None None 0 None) = None
  /\ fst (SetSocketIPTransparent (mkSockAnswers true None None 0 None))
     = [SetsockoptInt SOL_IP IP_TRANSPARENT 1;
        GetsockoptInt SOL_IP IP_TRANSPARENT].
Proof.
  apply (transparent_reads_back_only_after_set
           (mkSockAnswers true None None 0 None) SOL_IP IP_TRANSPARENT).
  simpl. right. left. reflexivity.
Defined.

(** ** Contextual error data *)

Section ErrorDataProperties.

Variable V : Type.

Implicit Types (d : list (KV V)) (key : string) (v : V).

Lemma errorData_Value_set_same key v d :
  errorData_Value key (errorData_set key v d) = Some v.
Proof.
  induction d as [|kv rest IH]; simpl.
  - rewrite String.eqb_refl. reflexivity.
  - destruct (String.eqb (kv_Key kv) key) eqn:E; simpl; rewrite E.
    + reflexivity.
    + exact IH.
Qed.

Lemma errorData_Value_set_other key key' v d :
  key' <> key ->
  errorData_Value key' (errorData_set key v d) = errorData_Value key' d.
Proof.
  intros Hne. induction d as [|kv rest IH]; simpl.
  - destruct (String.eqb_spec key key') as [->|_]; [contradiction|reflexivity].
  - destruct (String.eqb_spec (kv_Key kv) key) as [E|E]; simpl.
    + destruct (String.eqb_spec (kv_Key kv) key') as [E'|_];
        [congruence|reflexivity].
    + rewrite IH. reflexivity.
Qed.

Lemma errorData_Value_app key (l1 l2 : list (KV V)) :
  errorData_Value key (l1 ++ l2)
  = match errorData_Value key l1 with
    | Some v => Some v
    | None => errorData_Value key l2
    end.
Proof.
  induction l1 as [|kv rest IH]; simpl; [reflexivity|].
  destruct (String.eqb (kv_Key kv) key); [reflexivity|exact IH].
Qed.

Lemma errorData_set_keys key v d :
  map kv_Key (errorData_set key v d)
  = map kv_Key d
    ++ match errorData_Value key d with Some _ => [] | None => [key] end.
Proof.
  induction d as [|kv rest IH]; simpl; [reflexivity|].
  destruct (String.eqb (kv_Key kv) key) eqn:E; simpl.
  - rewrite app_nil_r. reflexivity.
  - rewrite IH. reflexivity.
Qed.

Lemma errorData_Value_None_keys key d :
  errorData_Value key d = None <-> ~ In key (map kv_Key d).
Proof.
  induction d as [|kv rest IH]; simpl.
  - split; [intros _ []|reflexivity].
  - destruct (String.eqb_spec (kv_Key kv) key) as [E|E].
    + split; [discriminate|]. intros H. exfalso. apply H. left. exact E.
    + rewrite IH. split.
      * intros H [H'|H']; [contradiction|exact (H H')].
      * intros H H'. apply H. right. exact H'.
Qed.

Lemma errorData_set_NoDup key v d :
  NoDup (map kv_Key d) -> NoDup (map kv_Key (errorData_set key v d)).
Proof.
  intros Hnd. rewrite errorData_set_keys.
  destruct (errorData_Value key d) eqn:E.
  - rewrite app_nil_r. exact Hnd.
  - apply errorData_Value_None_keys in E.
    apply NoDup_rev in Hnd. rewrite <- (rev_involutive (_ ++ _)).
    apply NoDup_rev. rewrite rev_app_distr. simpl. constructor.
    + rewrite <- in_rev. exact E.
    + exact Hnd.
Qed.

(** X17.  Reading a key right after [set] gives the value just set, and
    every other key reads as it did before. *)
Theorem set_then_Value key key' v d :
  errorData_Value key (errorData_set key v d) = Some v
  /\ (key' <> key ->
      errorData_Value key' (errorData_set key v d) = errorData_Value key' d).
Proof.
  split; [apply errorData_Value_set_same|apply errorData_Value_set_other].
Qed.

(** X18.  [set] never removes or reorders pairs: the keys stay as they
    were, with the new key added at the end exactly when it was absent, so
    the slice grows by at most one. *)
Theorem set_keeps_the_key_order key v d :
  map kv_Key (errorData_set key v d)
  = map kv_Key d
    ++ match errorData_Value key d with Some _ => [] | None => [key] end.
Proof.
  apply errorData_set_keys.
Qed.

(** X19.  [Append] lets the last pair of a key win: a key among the
    appended pairs reads as the last of them with that key, and any other
    key reads as before. *)
Theorem Append_last_pair_wins key (kvs : list (KV V)) d :
  errorData_Value key (errorData_Append kvs d)
  = match errorData_Value key (rev kvs) with
    | Some v => Some v
    | None => errorData_Value key d
    end.
Proof.
  unfold errorData_Append. revert d.
  induction kvs as [|kv rest IH]; intros d; simpl; [reflexivity|].
  rewrite IH. rewrite errorData_Value_app. simpl.
  destruct (errorData_Value key (rev rest)); [reflexivity|].
  destruct (String.eqb_spec (kv_Key kv) key) as [E|E].
  - rewrite <- E. apply errorData_Value_set_same.
  - apply errorData_Value_set_other. congruence.
Qed.

(** X20.  Keys never repeat: data built from [NewData] by [Append] holds
    each key once, whatever pairs are appended and however often. *)
Theorem Append_keeps_keys_distinct (kvs : list (KV V)) d :
  NoDup (map kv_Key d) -> NoDup (map kv_Key (errorData_Append kvs d)).
Proof.
  unfold errorData_Append. revert d.
  induction kvs as [|kv rest IH]; intros d Hnd; simpl; [exact Hnd|].
  apply IH. apply errorData_set_NoDup. exact Hnd.
Qed.

End ErrorDataProperties.

Lemma set_then_Value_witness :
  errorData_Value "b"
    (errorData_set "a" 7 [mkKV "a" 1; mkKV "b" 2])
  = errorData_Value "b" [mkKV "a" 1; mkKV "b" 2].
Proof.
  apply (set_then_Value Z "a" "b" 7 [mkKV "a" 1; mkKV "b" 2]).
  discriminate.
Defined.

Lemma Append_keeps_keys_distinct_witness :
  NoDup (map kv_Key
           (errorData_Append [mkKV "a" 1; mkKV "b" 2; mkKV "a" 3] NewData)).
Proof.
  apply (Append_keeps_keys_distinct Z [mkKV "a" 1; mkKV "b" 2; mkKV "a" 3]
           NewData).
  simpl. constructor.
Defined.

(** ** Formatting flags *)

Lemma byte_forall (P : Z -> bool) :
  all_from P 256 0 = true -> forall x, 0 <= x < 256 -> P x = true.
Proof.
  intros H x Hx. apply (all_from_spec P 256 0 x H). lia.
Qed.

Ltac split_andb H :=
  repeat match type of H with
         | (_ && _)%bool = true =>
             let H1 := fresh "B" in
             apply andb_true_iff in H; destruct H as [H H1];
             try apply Bool.eqb_prop in H1
         end;
  try apply Bool.eqb_prop in H.

(** X21.  A format is a key or a value, never both: [SetKey] sets the key
    flag and clears the value flag, [SetValue] does the opposite, and both
    leave the verbose and panic flags as they were. *)
Theorem SetKey_SetValue_exclusive (f : Format) :
  0 <= Flags f < 256 ->
  (Format_Key (Format_SetKey f) = true
   /\ Format_Value (Format_SetKey f) = false
   /\ Format_Verbose (Format_SetKey f) = Format_Verbose f
   /\ Format_Panic (Format_SetKey f) = Format_Panic f)
  /\ (Format_Value (Format_SetValue f) = true
      /\ Format_Key (Format_SetValue f) = false
      /\ Format_Verbose (Format_SetValue f) = Format_Verbose f
      /\ Format_Panic (Format_SetValue f) = Format_Panic f).
Proof.
  intros Hb.
  pose proof (byte_forall
    (fun x =>
       let k := mkFormat x 0 0 EmptyString (mkFormatter 0) 0 in
       Bool.eqb (Format_Key (Format_SetKey k)) true
       && Bool.eqb (Format_Value (Format_SetKey k)) false
       && Bool.eqb (Format_Verbose (Format_SetKey k)) (Format_Verbose k)
       && Bool.eqb (Format_Panic (Format_SetKey k)) (Format_Panic k)
       && Bool.eqb (Format_Value (Format_SetValue k)) true
       && Bool.eqb (Format_Key (Format_SetValue k)) false
       && Bool.eqb (Format_Verbose (Format_SetValue k)) (Format_Verbose k)
       && Bool.eqb (Format_Panic (Format_SetValue k)) (Format_Panic k))%bool
    eq_refl (Flags f) Hb) as H.
  cbv beta zeta in H. split_andb H.
  destruct f as [fl de cu vt cf bu].
  unfold Format_Key, Format_Value, Format_Verbose, Format_Panic,
    Format_SetKey, Format_SetValue in *. cbn [Flags] in *.
  repeat split; assumption.
Qed.

Lemma SetKey_SetValue_exclusive_witness :
  Format_Key (Format_SetKey
    (mkFormat 6 2 1 "int" (mkFormatter 10) 0)) = true.
Proof.
  apply (SetKey_SetValue_exclusive (mkFormat 6 2 1 "int" (mkFormatter 10) 0)).
  simpl. lia.
Defined.

(** X22.  [SetPanic] marks a value in panic: the panic and value flags are
    set, the key flag is cleared, and the verbose flag stays as it was. *)
Theorem SetPanic_marks_a_value (f : Format) :
  0 <= Flags f < 256 ->
  Format_Panic (Format_SetPanic f) = true
  /\ Format_Value (Format_SetPanic f) = true
  /\ Format_Key (Format_SetPanic f) = false
  /\ Format_Verbose (Format_SetPanic f) = Format_Verbose f.
Proof.
  intros Hb.
  pose proof (byte_forall
    (fun x =>
       let k := mkFormat x 0 0 EmptyString (mkFormatter 0) 0 in
       Bool.eqb (Format_Panic (Format_SetPanic k)) true
       && Bool.eqb (Format_Value (Format_SetPanic k)) true
       && Bool.eqb (Format_Key (Format_SetPanic k)) false
       && Bool.eqb (Format_Verbose (Format_SetPanic k)) (Format_Verbose k))%bool
    eq_refl (Flags f) Hb) as H.
  cbv beta zeta in H. split_andb H.
  destruct f as [fl de cu vt cf bu].
  unfold Format_Key, Format_Value, Format_Verbose, Format_Panic,
    Format_SetPanic in *. cbn [Flags] in *.
  repeat split; assumption.
Qed.

Lemma SetPanic_marks_a_value_witness :
  Format_Key (Format_SetPanic
    (mkFormat 3 2 1 "int" (mkFormatter 10) 0)) = false.
Proof.
  apply (SetPanic_marks_a_value (mkFormat 3 2 1 "int" (mkFormatter 10) 0)).
  simpl. lia.
Defined.

(** X23.  Of two role setters in a row only the last counts: [SetKey]
    after [SetValue] is [SetKey], [SetValue] after [SetKey] is [SetValue],
    [SetPanic] after [SetKey] is [SetPanic], and each of [SetKey] and
    [SetValue] applied twice is the same as applied once. *)
Theorem last_role_setter_wins (f : Format) :
  0 <= Flags f < 256 ->
  Format_SetKey (Format_SetValue f) = Format_SetKey f
  /\ Format_SetValue (Format_SetKey f) = Format_SetValue f
  /\ Format_SetPanic (Format_SetKey f) = Format_SetPanic f
  /\ Format_SetKey (Format_SetKey f) = Format_SetKey f
  /\ Format_SetValue (Format_SetValue f) = Format_SetValue f.
Proof.
  intros Hb.
  pose proof (byte_forall
    (fun x =>
       let k := mkFormat x 0 0 EmptyString (mkFormatter 0) 0 in
       (Flags (Format_SetKey (Format_SetValue k)) =? Flags (Format_SetKey k))
       && (Flags (Format_SetValue (Format_SetKey k))
           =? Flags (Format_SetValue k))
       && (Flags (Format_SetPanic (Format_SetKey k))
           =? Flags (Format_SetPanic k))
       && (Flags (Format_SetKey (Format_SetKey k)) =? Flags (Format_SetKey k))
       && (Flags (Format_SetValue (Format_SetValue k))
           =? Flags (Format_SetValue k)))%bool
    eq_refl (Flags f) Hb) as H.
  cbv beta zeta in H.
  repeat match type of H with
         | (_ && _)%bool = true =>
             let H1 := fresh "B" in
             apply andb_true_iff in H; destruct H as [H H1];
             apply Z.eqb_eq in H1
         end.
  apply Z.eqb_eq in H.
  destruct f as [fl de cu vt cf bu].
  unfold Format_SetKey, Format_SetValue, Format_SetPanic in *.
  cbn [Flags CurDepth Config Buffer] in *.
  repeat split; f_equal; assumption.
Qed.

Lemma last_role_setter_wins_witness :
  Format_SetKey (Format_SetValue (mkFormat 6 2 1 "int" (mkFormatter 10) 0))
  = Format_SetKey (mkFormat 6 2 1 "int" (mkFormatter 10) 0).
Proof.
  apply (last_role_setter_wins (mkFormat 6 2 1 "int" (mkFormatter 10) 0)).
  simpl. lia.
Defined.

(** X24.  One level deeper is past the maximum exactly when the current
    depth has reached the maximum and is below 255: at depth 255 the
    increment wraps to 0, which is past no maximum. *)
Theorem IncrDepth_past_the_maximum (f : Format) :
  0 <= CurDepth f < 256 ->
  0 <= MaxDepth (Config f) < 256 ->
  Format_AtMaxDepth (Format_IncrDepth f)
  = ((MaxDepth (Config f) <=? CurDepth f) && (CurDepth f <? 255))%bool.
Proof.
  intros Hc Hm. destruct f as [fl de cu vt cf bu].
  unfold Format_AtMaxDepth, Format_IncrDepth, incr_u8.
  cbn [CurDepth Config] in *.
  destruct (Z.eq_dec cu 255) as [->|Hne].
  - change ((255 + 1) mod 256) with 0.
    destruct (Z.ltb_spec (MaxDepth cf) 0); [lia|].
    rewrite andb_false_r. reflexivity.
  - rewrite Z.mod_small by lia.
    destruct (Z.ltb_spec (MaxDepth cf) (cu + 1)),
      (Z.leb_spec (MaxDepth cf) cu), (Z.ltb_spec cu 255);
      simpl; try reflexivity; lia.
Qed.

Lemma IncrDepth_past_the_maximum_witness :
  Format_AtMaxDepth
    (Format_IncrDepth (mkFormat 0 0 255 EmptyString (mkFormatter 10) 0))
  = false.
Proof.
  apply (IncrDepth_past_the_maximum
           (mkFormat 0 0 255 EmptyString (mkFormatter 10) 0)).
  - simpl. lia.
  - simpl. lia.
Defined.

(** ** A read on a closed socket *)

(** C2, evaluated on the code: the front-to-back pump of an open session
    gets 5 bytes and the error of a read on a closed socket, the
    [*net.OpError] that wraps [net.ErrClosed].  That error is not the value
    [net.ErrClosed] and reports no timeout, so the pump sends it on its
    channel and counts nothing: [bytesIn] stays 0 although 5 bytes went out
    on the back-end socket, and the driver receives the error and logs it as
    an input error.  With the bare value [net.ErrClosed] in its place the
    same run counts the 5 bytes, sends nothing and logs no error. *)
Theorem closed_connection_error_is_sent_not_counted :
  let none := newSession (loopback 0) (loopback 0) in
  let opened := nth 0 (sessions state_open) none in
  let wrapped := nth 0 (sessions state_closed_read) none in
  let bare := nth 0 (sessions state_sentinel_read) none in
  let read err := PumpIn 0 (P_ReadFrom 2000 5 (Some err)) in
  (eq_ErrClosed closedConnErr = false
   /\ as_net_Error closedConnErr = Some (false, false))
  /\ (exists st1 s1,
        step sample_text6 (read closedConnErr) state_open = Some st1
        /\ nth_error (sessions st1) 0 = Some s1
        /\ pumpIn s1 = P_closeChan
        /\ errIn s1 = mkChan [closedConnErr] false
        /\ forwardedBytes (wire (dConn s1))
           = forwardedBytes (wire (dConn opened)) + 5
        /\ bytesIn (proxy st1) = bytesIn (proxy state_open)
        /\ bytesOut (proxy st1) = bytesOut (proxy state_open))
  /\ (reachable sample_text6 sample_proxy state_closed_read
      /\ pumpIn wrapped = P_done /\ drv wrapped = D_deferDec
      /\ forwardedBytes (wire (dConn wrapped)) = 5
      /\ bytesIn (proxy state_closed_read) = 0
      /\ In (ErrorKVs "proxy" closedConnErr "input error")
            (logs state_closed_read))
  /\ (exists st2 s2,
        step sample_text6 (read net_ErrClosed) state_open = Some st2
        /\ nth_error (sessions st2) 0 = Some s2
        /\ pumpIn s2 = P_closeChan
        /\ errIn s2 = newChan
        /\ bytesIn (proxy st2) = bytesIn (proxy state_open) + 5)
  /\ (reachable sample_text6 sample_proxy state_sentinel_read
      /\ pumpIn bare = P_done /\ drv bare = D_deferDec
      /\ forwardedBytes (wire (dConn bare)) = 5
      /\ bytesIn (proxy state_sentinel_read) = 5
      /\ forall e msg, ~ In (ErrorKVs "proxy" e msg)
                          (logs state_sentinel_read)).
Proof.
  cbv zeta. split; [split; reflexivity|].
  split; [eexists; eexists; repeat split; reflexivity|].
  split.
  { split; [apply (reachable_final scenario_closed_read); reflexivity|].
    repeat split; try reflexivity. vm_compute. auto. }
  split; [eexists; eexists; repeat split; reflexivity|].
  split; [apply (reachable_final scenario_sentinel_read); reflexivity|].
  repeat split; try reflexivity.
  intros e msg H. vm_compute in H.
  repeat (destruct H as [H|H]; [discriminate H|]). exact H.
Qed.

(** ** Errors of [Accept] *)

(** C8, as amended.  When [ln.Accept()] fails in the accept loop: a
    temporary network error is logged, the loop sleeps one second and calls
    [Accept] again; otherwise, if the error is end of stream the call of
    [Proxy] returns nil and logs nothing, and any other error is logged and
    returned by that call.  In each case the step appends exactly these
    events to the log, moves this call of [Proxy] only, and leaves the
    instance, its context, its sessions and the other calls of [Proxy] as
    they were; a call of [Proxy] that has returned takes no further step. *)
Theorem accept_error_outcomes
    (text6 : IP -> string) (st : State) (j : nat) (err : error) :
  nth_error (acceptors st) j = Some L_accept ->
  let name := Name (proxy st) in
  let failed := Acc j (L_accepted (AcceptFailed err)) in
  let goes evs pc :=
    step text6 failed st
    = Some (set_acceptors (upd j pc (acceptors st)) (add_logs evs st)) in
  let ends evs pc :=
    exists st',
      step text6 failed st = Some st'
      /\ nth_error (acceptors st') j = Some pc
      /\ logs st' = logs st ++ evs
      /\ (forall k, k <> j ->
            nth_error (acceptors st') k = nth_error (acceptors st) k)
      /\ proxy st' = proxy st /\ ctxs st' = ctxs st
      /\ ctx_done st' = ctx_done st /\ sessions st' = sessions st
      /\ waiting st' = waiting st /\ returned st' = returned st in
  (isTemporary err ->
     goes [ErrorKVs name err "temp. accept error"; Sleep (1 * Second)] L_accept
     /\ ends [ErrorKVs name err "temp. accept error"; Sleep (1 * Second)]
          L_accept)
  /\ (~ isTemporary err -> errors_Is_EOF err = true ->
      goes [] (L_returned None) /\ ends [] (L_returned None))
  /\ (~ isTemporary err -> errors_Is_EOF err = false ->
      goes [ErrorKVs name err "accept error"] (L_returned (Some err))
      /\ ends [ErrorKVs name err "accept error"] (L_returned (Some err)))
  /\ (forall a r st1,
        nth_error (acceptors st1) j = Some (L_returned r) ->
        step text6 (Acc j a) st1 = None).
Proof.
  intros Hj. cbv zeta.
  assert (Hends : forall evs pc,
             step text6 (Acc j (L_accepted (AcceptFailed err))) st
             = Some (set_acceptors (upd j pc (acceptors st)) (add_logs evs st))
             -> exists st',
                 step text6 (Acc j (L_accepted (AcceptFailed err))) st
                 = Some st'
                 /\ nth_error (acceptors st') j = Some pc
                 /\ logs st' = logs st ++ evs
                 /\ (forall k, k <> j ->
                       nth_error (acceptors st') k
                       = nth_error (acceptors st) k)
                 /\ proxy st' = proxy st /\ ctxs st' = ctxs st
                 /\ ctx_done st' = ctx_done st /\ sessions st' = sessions st
                 /\ waiting st' = waiting st /\ returned st' = returned st).
  { intros evs pc H. eexists. split; [exact H|]. simpl.
    split; [eapply nth_error_upd_same; exact Hj|].
    split; [reflexivity|].
    split; [intros k Hk; apply nth_error_upd_other; exact Hk|].
    repeat split. }
  assert (Hstep : forall evs pc,
             accept_iter (Name (proxy st)) (AcceptFailed err) = (evs, pc) ->
             step text6 (Acc j (L_accepted (AcceptFailed err))) st
             = Some (set_acceptors (upd j pc (acceptors st))
                       (add_logs evs st))).
  { intros evs pc H. simpl. rewrite Hj. simpl. simpl in H. rewrite H.
    reflexivity. }
  split; [|split; [|split]].
  - intros [t Ht].
    assert (H : step text6 (Acc j (L_accepted (AcceptFailed err))) st
                = Some (set_acceptors (upd j L_accept (acceptors st))
                          (add_logs [ErrorKVs (Name (proxy st)) err
                                       "temp. accept error";
                                     Sleep (1 * Second)] st)))
      by (apply Hstep; simpl; rewrite Ht; reflexivity).
    split; [exact H|apply Hends; exact H].
  - intros Hnt Heof.
    assert (H : step text6 (Acc j (L_accepted (AcceptFailed err))) st
                = Some (set_acceptors (upd j (L_returned None) (acceptors st))
                          (add_logs [] st))).
    { apply Hstep. simpl.
      destruct (as_net_Error err) as [[t [|]]|] eqn:E.
      - exfalso. apply Hnt. exists t. exact E.
      - rewrite Heof. reflexivity.
      - rewrite Heof. reflexivity. }
    split; [exact H|apply Hends; exact H].
  - intros Hnt Heof.
    assert (H : step text6 (Acc j (L_accepted (AcceptFailed err))) st
                = Some (set_acceptors
                          (upd j (L_returned (Some err)) (acceptors st))
                          (add_logs [ErrorKVs (Name (proxy st)) err
                                       "accept error"] st))).
    { apply Hstep. simpl.
      destruct (as_net_Error err) as [[t [|]]|] eqn:E.
      - exfalso. apply Hnt. exists t. exact E.
      - rewrite Heof. reflexivity.
      - rewrite Heof. reflexivity. }
    split; [exact H|apply Hends; exact H].
  - intros a r st1 H. simpl. rewrite H. destruct a; reflexivity.
Qed.

Lemma accept_error_outcomes_witness :
  exists st',
    step sample_text6 (Acc 0 (L_accepted (AcceptFailed acceptFatalErr)))
      (final (scenario_open ++
              [CallProxy None None None; Acc 1 L_check; Acc 0 L_check]))
    = Some st'
    /\ nth_error (acceptors st') 0 = Some (L_returned (Some acceptFatalErr))
    /\ logs st'
       = logs (final (scenario_open ++
                      [CallProxy None None None; Acc 1 L_check; Acc 0 L_check]))
         ++ [ErrorKVs "proxy" acceptFatalErr "accept error"].
Proof.
  destruct (accept_error_outcomes sample_text6
              (final (scenario_open ++
                      [CallProxy None None None; Acc 1 L_check; Acc 0 L_check]))
              0 acceptFatalErr eq_refl) as (_ & _ & Hfatal & _).
  destruct Hfatal as [_ (st' & Hs & Hpc & Hlogs & _)].
  - intros [t H]. discriminate H.
  - reflexivity.
  - exists st'. split; [exact Hs|]. split; [exact Hpc|exact Hlogs].
Defined.

(** C8, as the claim has it, fails: a fatal error of [Accept] ends the call
    of [Proxy] that got it and nothing else.  Here the first of two calls
    returns the error; the context is not cancelled, so the driver of the
    open session cannot take its Done branch; its pump forwards 10 more
    bytes; and the second call accepts a client and spawns its session. *)
Lemma fatal_accept_error_leaves_the_instance_running :
  let none := newSession (loopback 0) (loopback 0) in
  reachable sample_text6 sample_proxy state_accept_fatal
  /\ nth_error (acceptors state_accept_fatal) 0
     = Some (L_returned (Some acceptFatalErr))
  /\ nth_error (acceptors state_accept_fatal) 1 = Some L_accept
  /\ ctx_done state_accept_fatal = false
  /\ step sample_text6 (Drv 0 (D_selected CaseDone)) state_accept_fatal = None
  /\ run sample_text6 scenario_after_fatal state_accept_fatal
     = Some state_after_fatal
  /\ ctx_done state_after_fatal = false
  /\ bytesIn (proxy state_after_fatal)
     = bytesIn (proxy state_accept_fatal) + 10
  /\ pumpIn (nth 0 (sessions state_after_fatal) none) = P_loop
  /\ List.length (sessions state_accept_fatal) = 1%nat
  /\ List.length (sessions state_after_fatal) = 2%nat
  /\ drv (nth 1 (sessions state_after_fatal) none) = D_dial
  /\ open (proxy state_after_fatal) = 2
  /\ nth_error (acceptors state_after_fatal) 1 = Some L_top.
Proof.
  cbv zeta.
  split; [apply (reachable_final scenario_accept_fatal); reflexivity|].
  repeat split; vm_compute; reflexivity.
Qed.

(** ** What [Close] waits for *)

Lemma sumZ_nonzero_member {A : Type} (f : A -> Z) (l : list A) :
  sumZ f l <> 0 -> exists x, In x l /\ f x <> 0.
Proof.
  induction l as [|h t IH]; simpl; intros H; [congruence|].
  destruct (Z.eq_dec (f h) 0) as [E|E].
  - destruct IH as (x & Hin & Hx); [lia|]. exists x. auto.
  - exists h. auto.
Qed.

Lemma tripped_setup (text6 : IP -> string) (p0 : TCPProxy) (st : State) :
  StateInv text6 p0 st -> (0 < waiting st + returned st)%nat ->
  cancel (proxy st) = Some 0%nat /\ baseCtx (proxy st) = Some 0%nat
  /\ ctxs st = [true].
Proof.
  intros [_ _ _ _ Honce Htrip] Hpos. specialize (Htrip Hpos).
  destruct (doOnce (proxy st)).
  - destruct Honce as (Hc & Hb & Hl). split; [exact Hc|]. split; [exact Hb|].
    unfold ctx_done in Htrip. rewrite Hb in Htrip.
    destruct (ctxs st) as [|c [|c' rest]]; simpl in *; try discriminate.
    congruence.
  - destruct Honce as (_ & _ & _ & _ & _ & Hw & Hret). lia.
Qed.

(** C5, as amended.  [Close] cancels the base context and waits on the
    barrier.  The call of [Close] trips the context and touches nothing
    else; its [serveWg.Wait()] returns only when the counter is zero, and
    then the context is cancelled and the driver of every session started so
    far has run its deferred function: it has decremented [proxy.open],
    released the barrier and exited.  While [Close] is blocked the context is
    cancelled already, and some driver has not released the barrier or some
    call of [Proxy] is between [serveWg.Add(1)] and [go proxy.serve].  A
    [Close] that has returned, called again while the counter is still zero,
    returns at once and changes nothing. *)
Theorem Close_waits_for_sessions_and_is_idempotent
    (text6 : IP -> string) (name : string) (pp : bool)
    (dt ct st0 cka ska : Duration) (st : State) :
  reachable text6 (inert name pp dt ct st0 cka ska) st ->
  (forall st', step text6 CloseReturn st = Some st' ->
     ctx_done st = true /\ Forall cleanedUp (sessions st)
     /\ proxy st' = proxy st /\ sessions st' = sessions st
     /\ ctxs st' = ctxs st)
  /\ (forall st', Close st = CloseReturns st' ->
        ctx_done st' = true /\ Forall cleanedUp (sessions st')
        /\ Close st' = CloseReturns st')
  /\ (forall st', step text6 CallClose st = Some st' ->
        ctx_done st' = true /\ waiting st' = S (waiting st)
        /\ proxy st' = proxy st /\ sessions st' = sessions st
        /\ acceptors st' = acceptors st /\ logs st' = logs st
        /\ returned st' = returned st)
  /\ (forall st', step text6 CloseReturn st = Some st' ->
        serveWg (proxy st) = 0
        /\ S (waiting st') = waiting st /\ returned st' = S (returned st)
        /\ acceptors st' = acceptors st /\ logs st' = logs st
        /\ exists st'',
             run text6 [CallClose; CloseReturn] st' = Some st''
             /\ proxy st'' = proxy st' /\ sessions st'' = sessions st'
             /\ ctxs st'' = ctxs st' /\ acceptors st'' = acceptors st'
             /\ logs st'' = logs st' /\ waiting st'' = waiting st'
             /\ returned st'' = S (returned st'))
  /\ (forall st', Close st = CloseBlocks st' ->
        ctx_done st' = true /\ serveWg (proxy st') <> 0
        /\ proxy st' = proxy st /\ sessions st' = sessions st
        /\ acceptors st' = acceptors st /\ logs st' = logs st
        /\ ((exists s, In s (sessions st) /\ drv s <> D_exit)
            \/ (exists peer local, In (L_openInc peer local) (acceptors st)))).
Proof.
  intros Hr. pose proof (reachable_inv _ _ _ _ _ _ _ _ _ Hr) as Hinv.
  assert (Hcancel : forall c, cancel (proxy st) = Some c ->
            ctx_done (set_ctxs (upd c true (ctxs st)) st) = true).
  { intros c Ec. destruct Hinv as [_ _ _ _ Honce _].
    destruct (doOnce (proxy st)).
    - destruct Honce as (Hc & Hb & Hl).
      assert (c = 0%nat) by congruence. subst c.
      unfold ctx_done. simpl. rewrite Hb.
      destruct (ctxs st); [discriminate|reflexivity].
    - destruct Honce as (Hc & _). congruence. }
  split; [|split; [|split; [|split]]].
  - intros st' H. simpl in H.
    destruct (waiting st) as [|w] eqn:Ew; [discriminate|].
    unfold Wait_returns in H.
    destruct (Z.eqb_spec (serveWg (proxy st)) 0) as [H0|]; [|discriminate].
    inversion H; subst; clear H. simpl.
    repeat split; auto.
    + destruct Hinv as [_ _ _ _ _ Htrip]. apply Htrip. lia.
    + eapply drained_sessions; eassumption.
  - intros st' H. unfold Close, Close_cancel in H |- *.
    destruct (cancel (proxy st)) as [c|] eqn:Ec; [|discriminate].
    unfold Wait_returns in H |- *. simpl in H |- *.
    destruct (Z.eqb_spec (serveWg (proxy st)) 0) as [H0|]; [|discriminate].
    inversion H; subst; clear H. simpl.
    rewrite Ec. simpl.
    destruct (Z.eqb_spec (serveWg (proxy st)) 0) as [_|]; [|contradiction].
    repeat split.
    + apply Hcancel. reflexivity.
    + eapply drained_sessions; eassumption.
    + unfold set_ctxs. simpl. rewrite upd_idem. reflexivity.
  - intros st' H. simpl in H. unfold Close_cancel in H.
    destruct (cancel (proxy st)) as [c|] eqn:Ec; [|discriminate].
    inversion H; subst; clear H.
    split; [exact (Hcancel c eq_refl)|]. simpl. repeat split.
  - intros st' H. simpl in H.
    destruct (waiting st) as [|w] eqn:Ew; [discriminate|].
    unfold Wait_returns in H.
    destruct (Z.eqb_spec (serveWg (proxy st)) 0) as [H0|]; [|discriminate].
    inversion H; subst; clear H. simpl.
    split; [exact H0|]. repeat split.
    destruct (tripped_setup _ _ _ Hinv) as (Hc & Hb & Hx); [lia|].
    eexists. split.
    + simpl. unfold Close_cancel. simpl. rewrite Hc. simpl.
      unfold Wait_returns. simpl. rewrite H0. simpl. reflexivity.
    + simpl. rewrite Hx. repeat split.
  - intros st' H. unfold Close, Close_cancel in H.
    destruct (cancel (proxy st)) as [c|] eqn:Ec; [|discriminate].
    unfold Wait_returns in H. simpl in H.
    destruct (Z.eqb_spec (serveWg (proxy st)) 0) as [|Hn0]; [discriminate|].
    inversion H; subst; clear H.
    split; [exact (Hcancel c eq_refl)|]. simpl.
    split; [exact Hn0|]. repeat split.
    destruct Hinv as [_ _ Hwg _ _ _]. rewrite Hwg in Hn0.
    destruct (Z.eq_dec (sumZ running (sessions st)) 0) as [E|E].
    + right.
      destruct (sumZ_nonzero_member tracking (acceptors st)) as (pc & Hin & Hpc);
        [lia|].
      destruct pc as [| |peer local|peer local|r]; simpl in Hpc;
        try congruence.
      exists peer, local. exact Hin.
    + left. destruct (sumZ_nonzero_member running (sessions st) E)
        as (s & Hin & Hs).
      exists s. split; [exact Hin|]. unfold running in Hs.
      destruct (drv s); congruence.
Qed.

Lemma Close_waits_for_sessions_and_is_idempotent_witness :
  reachable sample_text6 sample_proxy state_cancel
  /\ Forall cleanedUp (sessions state_cancel)
  /\ Close state_cancel = CloseReturns state_cancel.
Proof.
  assert (Hr : reachable sample_text6 sample_proxy state_cancel)
    by (apply (reachable_final scenario_cancel); reflexivity).
  split; [exact Hr|].
  destruct (Close_waits_for_sessions_and_is_idempotent sample_text6 EmptyString true 0
              (5 * Second) 0 0 0 state_cancel Hr) as (_ & Hclose & _).
  destruct (Hclose state_cancel eq_refl) as (_ & Hs & Hagain).
  split; assumption.
Defined.

(** C5, as the claim has it, fails: sessions outlive the return of [Close].
    In the first run the driver of the session has exited when [Close] is
    called, so [Close] returns at once; both pumps are still at work, no
    socket has been closed, and after the return the back-to-front pump
    forwards 7 more bytes to the client.  In the second run [Close] returns
    while [Proxy] is in [Accept]; the next client is accepted all the same
    and its session started, and a second call of [Close] now blocks. *)
Lemma Close_returns_while_sessions_live :
  let none := newSession (loopback 0) (loopback 0) in
  let s := nth 0 (sessions state_close_early) none in
  let s' := nth 0 (sessions state_close_early_later) none in
  (reachable sample_text6 sample_proxy state_close_early
   /\ returned state_close_early = 1%nat /\ waiting state_close_early = 0%nat
   /\ drv s = D_exit /\ pumpIn s = P_closeDst /\ pumpOut s = P_loop
   /\ closeCalls (sConn s) = 0%nat /\ closeCalls (dConn s) = 0%nat
   /\ step sample_text6 (PumpOut 0 (P_ReadFrom 3000 7 (Some timeoutErr)))
        state_close_early
      = Some state_close_early_later
   /\ forwardedBytes (wire (sConn s')) = forwardedBytes (wire (sConn s)) + 7
   /\ bytesOut (proxy state_close_early_later) = 7
   /\ pumpOut s' = P_loop)
  /\ (reachable sample_text6 sample_proxy state_late_accept
      /\ returned state_late_accept = 1%nat
      /\ List.length (sessions state_late_accept) = 1%nat
      /\ drv (nth 0 (sessions state_late_accept) none) = D_dial
      /\ open (proxy state_late_accept) = 1
      /\ serveWg (proxy state_late_accept) = 1
      /\ (exists st', Close state_late_accept = CloseBlocks st')
      /\ run sample_text6 [CallClose; CloseReturn] state_late_accept = None).
Proof.
  cbv zeta. split.
  - split; [apply (reachable_final scenario_close_early); reflexivity|].
    repeat split; vm_compute; reflexivity.
  - split; [apply (reachable_final scenario_late_accept); reflexivity|].
    repeat split; try (vm_compute; reflexivity).
    eexists. vm_compute. reflexivity.
Qed.

(** ** Every way out of [serve] passes the decrement *)

Lemma serve_step_ledger (text6 : IP -> string) (a : DrvAction) (done : bool)
    (p p' : TCPProxy) (s s' : Session) (evs : list Event) :
  serve_step text6 a done p s = Some (p', s', evs) ->
  (stepsLeft (drv s') < stepsLeft (drv s))%nat
  /\ incs s' = incs s
  /\ (drv s = D_deferDec ->
      drv s' = D_deferDone /\ decs s' = S (decs s)
      /\ open p' = atomic_AddInt64 (open p) (-1))
  /\ (drv s <> D_deferDec -> decs s' = decs s /\ open p' = open p)
  /\ (drv s' = D_exit -> drv s = D_deferDone)
  /\ (drv s' = D_deferDone -> drv s = D_deferDec)
  /\ (a = D_panic -> drv s' = D_deferDec)
  /\ (forall err, a = D_dialed (inl err) -> drv s' = D_deferDec)
  /\ (forall err, a = D_wrote (Some err) -> ProxyProto p = true ->
        drv s' = D_deferDec)
  /\ (forall b, a = D_selected b -> b <> CaseDone -> drv s' = D_deferDec)
  /\ (drv s = D_closeS -> drv s' = D_deferDec).
Proof.
  intros E. unfold serve_step in E.
  destruct (drv s) eqn:Hd;
    destruct a as [[err|addr]|werr|[| |]| |]; try discriminate E;
    repeat match type of E with
           | context [if ?b then _ else _] => destruct b eqn:?
           | context [let (_, _) := ?r in _] => destruct r eqn:?
           | context [match ?w with Some _ => _ | None => _ end] =>
               destruct w eqn:?
           end;
    try discriminate E; inversion E; subst; clear E; simpl;
    (split; [lia|]); (split; [reflexivity|]);
    repeat split; try reflexivity; try discriminate; try congruence;
    intros; try discriminate; try congruence.
Qed.

(** C4.  Every session carries exactly one increment of [proxy.open], made
    by the accept loop when it spawns the driver, and exactly one decrement,
    made by the deferred function of [serve], whatever the way out.  The
    driver is never stuck outside its select: the dial and the header write
    proceed whatever they return, a panic can strike up to the select, the
    select proceeds as soon as a channel is ready or the context cancelled,
    and a pump that has left its loop and closed its channel makes its
    channel ready; every other statement runs.  Each step of the driver
    brings it nearer to its exit; a dial error, a header write error, a
    receive from a pump and a panic lead straight to the deferred function,
    the Done branch leads there through the two calls of [Close]; the
    deferred function is the one place where the decrement is made, and from
    it the driver exits in two steps with its one decrement done.
    [proxy.open] is the number of drivers that hold an increment without a
    decrement (as an [int64]), hence is that number and non-negative as long
    as it fits an [int64]. *)
Theorem open_counts_live_drivers
    (text6 : IP -> string) (name : string) (pp : bool)
    (dt ct st0 cka ska : Duration) (st : State) :
  reachable text6 (inert name pp dt ct st0 cka ska) st ->
  Forall (fun s => incs s = 1%nat /\ (decs s <= 1)%nat
                   /\ (drv s = D_exit -> decs s = 1%nat)
                   /\ (decs s = 1%nat ->
                       drv s = D_deferDone \/ drv s = D_exit))
         (sessions st)
  /\ open (proxy st) = wrap_i64 (liveDrivers (sessions st))
  /\ 0 <= liveDrivers (sessions st)
  /\ (liveDrivers (sessions st) < 2 ^ 63 ->
      open (proxy st) = liveDrivers (sessions st) /\ 0 <= open (proxy st))
  /\ (forall i s, nth_error (sessions st) i = Some s ->
        (drv s = D_dial ->
         forall r, step text6 (Drv i (D_dialed r)) st <> None)
        /\ (drv s = D_header ->
            forall werr, step text6 (Drv i (D_wrote werr)) st <> None)
        /\ (drv s = D_launch \/ drv s = D_closeD \/ drv s = D_closeS
            \/ drv s = D_deferDec \/ drv s = D_deferDone ->
            step text6 (Drv i D_next) st <> None)
        /\ (drv s = D_dial \/ drv s = D_header \/ drv s = D_launch
            \/ drv s = D_select ->
            step text6 (Drv i D_panic) st <> None)
        /\ (drv s = D_select ->
            (Chan_ready (errIn s) = true ->
             step text6 (Drv i (D_selected CaseErrIn)) st <> None)
            /\ (Chan_ready (errOut s) = true ->
                step text6 (Drv i (D_selected CaseErrOut)) st <> None)
            /\ (ctx_done st = true ->
                step text6 (Drv i (D_selected CaseDone)) st <> None)
            /\ (pumpIn s = P_closeDst \/ pumpIn s = P_done ->
                Chan_ready (errIn s) = true)
            /\ (pumpOut s = P_closeDst \/ pumpOut s = P_done ->
                Chan_ready (errOut s) = true))
        /\ (forall a st', step text6 (Drv i a) st = Some st' ->
            exists s',
              nth_error (sessions st') i = Some s'
              /\ (stepsLeft (drv s') < stepsLeft (drv s))%nat
              /\ incs s' = 1%nat
              /\ (drv s = D_deferDec ->
                  drv s' = D_deferDone /\ decs s = 0%nat /\ decs s' = 1%nat
                  /\ open (proxy st')
                     = atomic_AddInt64 (open (proxy st)) (-1))
              /\ (drv s <> D_deferDec ->
                  decs s' = decs s /\ open (proxy st') = open (proxy st))
              /\ (drv s' = D_exit -> drv s = D_deferDone)
              /\ (drv s' = D_deferDone -> drv s = D_deferDec)
              /\ (a = D_panic -> drv s' = D_deferDec)
              /\ (forall err, a = D_dialed (inl err) -> drv s' = D_deferDec)
              /\ (forall err, a = D_wrote (Some err) ->
                    ProxyProto (proxy st) = true -> drv s' = D_deferDec)
              /\ (forall b, a = D_selected b -> b <> CaseDone ->
                    drv s' = D_deferDec)
              /\ (drv s = D_closeS -> drv s' = D_deferDec))
        /\ (drv s = D_deferDec ->
            exists st' s',
              run text6 [Drv i D_next; Drv i D_next] st = Some st'
              /\ nth_error (sessions st') i = Some s'
              /\ drv s' = D_exit /\ incs s' = 1%nat /\ decs s' = 1%nat
              /\ open (proxy st') = atomic_AddInt64 (open (proxy st)) (-1)
              /\ serveWg (proxy st') = serveWg (proxy st) - 1)).
Proof.
  intros Hr. pose proof (reachable_inv _ _ _ _ _ _ _ _ _ Hr) as Hinv.
  destruct Hinv as [Hs _ _ Hopen _ _].
  assert (Hall : Forall (fun s => incs s = 1%nat /\ (decs s <= 1)%nat
                   /\ (drv s = D_exit -> decs s = 1%nat)
                   /\ (decs s = 1%nat ->
                       drv s = D_deferDone \/ drv s = D_exit))
                 (sessions st)).
  { eapply Forall_impl; [|exact Hs]. intros s [_ _ _ _ Hi Hd _ _ _ _].
    simpl. rewrite Hi, Hd. destruct (drv s); repeat split; auto;
      try discriminate. }
  assert (Hnn : 0 <= liveDrivers (sessions st)).
  { apply weight_nonneg_sum. eapply Forall_impl; [|exact Hall].
    simpl. tauto. }
  split; [exact Hall|]. split; [exact Hopen|]. split; [exact Hnn|].
  split; [intros Hlt; rewrite Hopen, wrap_i64_small by lia; lia|].
  intros i s Hi.
  assert (Hin : In s (sessions st)) by (eapply nth_error_In; exact Hi).
  rewrite Forall_forall in Hs. specialize (Hs s Hin).
  destruct Hs as [_ _ _ _ Hincs Hdecs HeI HeO _ _].
  split; [|split; [|split; [|split; [|split; [|split]]]]].
  - intros Hd r. simpl. rewrite Hi. unfold serve_step. rewrite Hd.
    destruct r; discriminate.
  - intros Hd werr. simpl. rewrite Hi. unfold serve_step. rewrite Hd.
    destruct (ProxyProto (proxy st)); [destruct werr|]; discriminate.
  - intros Hd. simpl. rewrite Hi. unfold serve_step.
    destruct Hd as [Hd|[Hd|[Hd|[Hd|Hd]]]]; rewrite Hd; discriminate.
  - intros Hd. simpl. rewrite Hi. unfold serve_step.
    destruct Hd as [Hd|[Hd|[Hd|Hd]]]; rewrite Hd; discriminate.
  - intros Hd. split; [|split; [|split; [|split]]]; intros Hready.
    + simpl. rewrite Hi. unfold serve_step. rewrite Hd, Hready.
      destruct (Chan_recv (errIn s)). discriminate.
    + simpl. rewrite Hi. unfold serve_step. rewrite Hd, Hready.
      destruct (Chan_recv (errOut s)). discriminate.
    + simpl. rewrite Hi. unfold serve_step. rewrite Hd, Hready.
      discriminate.
    + unfold Chan_ready.
      destruct Hready as [E|E]; rewrite E in HeI; simpl in HeI;
        rewrite HeI; destruct (buf (errIn s)); reflexivity.
    + unfold Chan_ready.
      destruct Hready as [E|E]; rewrite E in HeO; simpl in HeO;
        rewrite HeO; destruct (buf (errOut s)); reflexivity.
  - intros a st' H. simpl in H. rewrite Hi in H.
    destruct (serve_step text6 a (ctx_done st) (proxy st) s)
      as [[[p' s'] evs]|] eqn:E; [|discriminate].
    inversion H; subst; clear H. exists s'.
    split; [simpl; eapply nth_error_upd_same; exact Hi|].
    destruct (serve_step_ledger _ _ _ _ _ _ _ _ E)
      as (L1 & L2 & L3 & L4 & L5 & L6 & L7 & L8 & L9 & L10 & L11).
    simpl. split; [exact L1|]. split; [congruence|].
    split.
    { intros Hd. destruct (L3 Hd) as (A1 & A2 & A3).
      rewrite Hd in Hdecs. rewrite Hdecs in A2. auto. }
    repeat split; auto; apply L4; assumption.
  - intros Hd.
    assert (E1 : serve_step text6 D_next (ctx_done st) (proxy st) s
                 = Some (set_open (atomic_AddInt64 (open (proxy st)) (-1))
                           (proxy st),
                         set_drv D_deferDone (add_dec s), []))
      by (unfold serve_step; rewrite Hd; reflexivity).
    destruct (step_Drv text6 st i D_next _ _ _ _ Hi E1)
      as (st1 & S1 & N1 & P1 & _ & C1).
    assert (E2 : serve_step text6 D_next (ctx_done st1) (proxy st1)
                   (set_drv D_deferDone (add_dec s))
                 = Some (set_serveWg (serveWg (proxy st1) - 1) (proxy st1),
                         set_drv D_exit (set_drv D_deferDone (add_dec s)),
                         []))
      by reflexivity.
    destruct (step_Drv text6 st1 i D_next _ _ _ _ N1 E2)
      as (st2 & S2 & N2 & P2 & _ & C2).
    exists st2. eexists.
    split; [cbn [run]; rewrite S1, S2; reflexivity|].
    split; [exact N2|]. rewrite P2, P1. simpl.
    rewrite Hd in Hdecs. rewrite Hincs, Hdecs. repeat split.
Qed.

Lemma open_counts_live_drivers_witness :
  reachable sample_text6 sample_proxy state_reset
  /\ open (proxy state_reset) = 1
  /\ liveDrivers (sessions state_reset) = 1
  /\ exists st' s',
       run sample_text6 [Drv 0 D_next; Drv 0 D_next] state_reset = Some st'
       /\ nth_error (sessions st') 0 = Some s'
       /\ drv s' = D_exit /\ incs s' = 1%nat /\ decs s' = 1%nat
       /\ open (proxy st') = atomic_AddInt64 (open (proxy state_reset)) (-1)
       /\ serveWg (proxy st') = serveWg (proxy state_reset) - 1.
Proof.
  assert (Hr : reachable sample_text6 sample_proxy state_reset)
    by (apply (reachable_final scenario_reset); reflexivity).
  split; [exact Hr|].
  destruct (open_counts_live_drivers sample_text6 EmptyString true 0 (5 * Second)
              0 0 0 state_reset Hr) as (_ & _ & _ & Hfit & Hdrv).
  destruct (Hfit ltac:(vm_compute; reflexivity)) as [Ho _].
  split; [rewrite Ho; reflexivity|]. split; [reflexivity|].
  destruct (Hdrv 0%nat _ eq_refl) as (_ & _ & _ & _ & _ & _ & Hexit).
  apply Hexit. reflexivity.
Defined.
